(** * Cohort Manager front end: the dashboard's view-state handlers and the
      REST client, embedded from [src/pages/dashboard/index.js] and from the
      API client module ([service/apiClient.js]).

    The dashboard part keeps JavaScript's reference semantics: objects and
    arrays live in a store, a value is a primitive or a reference, and [===]
    on references compares addresses. The handlers are written in a small
    state-and-exception monad over the component state. *)

From stdpp Require Import gmap strings list fin_maps pretty.
From Stdlib Require Import ZArith Ascii.

Local Open Scope string_scope.
Local Open Scope list_scope.

(** ** JavaScript values and the object store *)

Module JS.

Abbreviation loc := nat (only parsing).

(** Numbers are the integers the application uses for ids. *)
Inductive val : Type :=
| Undefined
| Null
| Bool (b : bool)
| Num (z : Z)
| Str (s : string)
| Ref (l : loc).

#[global] Instance val_eq_dec : EqDecision val.
Proof. solve_decision. Defined.

(** A store cell: a plain object (own properties) or an array. *)
Inductive cell : Type :=
| Obj (fields : gmap string val)
| Arr (elems : list val).

#[global] Instance cell_eq_dec : EqDecision cell.
Proof. solve_decision. Defined.

(** [a === b]: same primitive, or same address. *)
Definition strict_eq (a b : val) : bool := bool_decide (a = b).

(** What a rejected promise or a [throw] carries. *)
Inductive exn : Type :=
| TypeError
| Reason (v : val).

(** How a promise settles. *)
Inductive settled : Type :=
| Fulfilled (v : val)
| Rejected (reason : val).

Inductive completion (A : Type) : Type :=
| Normal (a : A)
| Throw (e : exn).
Arguments Normal {A} a.
Arguments Throw {A} e.

(** The characters of a string, as one-character strings. *)
Definition chars (s : string) : list val :=
  (λ c, Str (String c EmptyString)) <$> String.list_ascii_of_string s.

(** Own enumerable properties of an array-like: its indices. *)
Definition index_props (es : list val) : gmap string val :=
  list_to_map (imap (λ i x, (pretty i, x)) es).

(** [v[k]] for the property names the dashboard reads ([id], [comments]):
    neither is an index or [length], so arrays and primitives answer
    [undefined]; [undefined] and [null] have no properties at all
    ([None]: a TypeError). *)
Definition lookup_prop (h : list cell) (v : val) (k : string) : option val :=
  match v with
  | Undefined | Null => None
  | Ref l =>
      match h !! l with
      | Some (Obj f) => Some (default Undefined (f !! k))
      | Some (Arr _) => Some Undefined
      | None => None
      end
  | _ => Some Undefined
  end.

(** The properties copied by [{...v}]. *)
Definition own_props (h : list cell) (v : val) : gmap string val :=
  match v with
  | Ref l =>
      match h !! l with
      | Some (Obj f) => f
      | Some (Arr es) => index_props es
      | None => ∅
      end
  | Str s => index_props (chars s)
  | _ => ∅
  end.

(** The receiver of an array method. *)
Definition as_array (h : list cell) (v : val) : option (list val) :=
  match v with
  | Ref l => match h !! l with Some (Arr es) => Some es | _ => None end
  | _ => None
  end.

(** The elements produced by [[...v]]: arrays and strings are iterable. *)
Definition iter_elems (h : list cell) (v : val) : option (list val) :=
  match v with
  | Ref l => match h !! l with Some (Arr es) => Some es | _ => None end
  | Str s => Some (chars s)
  | _ => None
  end.

End JS.

Import JS.

(** ** The dashboard component *)

Module Dashboard.

(** The component state the handlers touch, with the store and the
    console. [renderErrors] lists what the updaters handed to [setPosts]
    have thrown: React keeps such an error away from the caller of the
    setter and throws it again when it renders the component. *)
Record Dash : Type := mkDash {
  heap : list cell;
  posts : val;
  loadingPosts : bool;
  console : list exn;
  renderErrors : list exn
}.

Definition M (A : Type) : Type := Dash → completion A * Dash.

Definition ret {A} (a : A) : M A := λ w, (Normal a, w).

Definition bind {A B} (m : M A) (k : A → M B) : M B :=
  λ w, match m w with
       | (Normal a, w1) => k a w1
       | (Throw e, w1) => (Throw e, w1)
       end.

Definition throw {A} (e : exn) : M A := λ w, (Throw e, w).

(** [try { body } catch (err) { handler err }]. *)
Definition try_catch {A} (body : M A) (handler : exn → M A) : M A :=
  λ w, match body w with
       | (Normal a, w1) => (Normal a, w1)
       | (Throw e, w1) => handler e w1
       end.

(** [try { body } finally { fin }]. *)
Definition try_finally {A} (body : M A) (fin : M unit) : M A :=
  λ w, match body w with
       | (r, w1) =>
           match fin w1 with
           | (Normal _, w2) => (r, w2)
           | (Throw e, w2) => (Throw e, w2)
           end
       end.

Declare Scope js_scope.
Delimit Scope js_scope with js.
Notation "'let*' x ':=' c 'in' k" := (bind c (λ x, k))
  (at level 10, x pattern, c at level 100, k at level 200) : js_scope.
Notation "c ';;' k" := (bind c (λ _, k))
  (at level 100, k at level 200, right associativity) : js_scope.
Local Open Scope js_scope.

Definition of_option {A} (o : option A) : M A :=
  match o with Some a => ret a | None => throw TypeError end.

Definition get_prop (v : val) (k : string) : M val :=
  λ w, of_option (lookup_prop (heap w) v k) w.

Definition spread_props (v : val) : M (gmap string val) :=
  λ w, (Normal (own_props (heap w) v), w).

Definition array_elems (v : val) : M (list val) :=
  λ w, of_option (as_array (heap w) v) w.

Definition spread_elems (v : val) : M (list val) :=
  λ w, of_option (iter_elems (heap w) v) w.

(** A new object or array literal. *)
Definition alloc (c : cell) : M val :=
  λ w, (Normal (Ref (length (heap w))),
        mkDash (heap w ++ [c]) (posts w) (loadingPosts w) (console w)
               (renderErrors w)).

Fixpoint map_cb {A B} (f : A → M B) (l : list A) : M (list B) :=
  match l with
  | [] => ret []
  | x :: l' => let* y := f x in let* ys := map_cb f l' in ret (y :: ys)
  end.

Fixpoint filter_cb {A} (p : A → M bool) (l : list A) : M (list A) :=
  match l with
  | [] => ret []
  | x :: l' =>
      let* b := p x in
      let* ys := filter_cb p l' in
      ret (if b then x :: ys else ys)
  end.

(** [arr.map(fn)], [arr.filter(fn)]: a new array. *)
Definition Array_map (fn : val → M val) (arr : val) : M val :=
  let* es := array_elems arr in
  let* es' := map_cb fn es in
  alloc (Arr es').

Definition Array_filter (fn : val → M bool) (arr : val) : M val :=
  let* es := array_elems arr in
  let* es' := filter_cb fn es in
  alloc (Arr es').

(** [arr.reverse()]: in place, and the same array is returned. *)
Definition Array_reverse (arr : val) : M val :=
  λ w, match arr with
       | Ref l =>
           match heap w !! l with
           | Some (Arr es) =>
               (Normal (Ref l),
                mkDash (<[l := Arr (rev es)]> (heap w)) (posts w)
                       (loadingPosts w) (console w) (renderErrors w))
           | _ => (Throw TypeError, w)
           end
       | _ => (Throw TypeError, w)
       end.

(** [await p]. *)
Definition await (p : settled) : M val :=
  match p with
  | Fulfilled v => ret v
  | Rejected r => throw (Reason r)
  end.

(** State setters: [setPosts(v)] and the updater form [setPosts(fn)],
    which applies [fn] to the state current at that moment. The setter
    itself never throws. When [fn] throws, React (on a root made by
    [createRoot]) suppresses the error of this first attempt and queues
    the update, so the caller goes on; the state keeps its value and the
    error comes back in the render phase, outside the handler. *)
Definition setPosts (v : val) : M unit :=
  λ w, (Normal (), mkDash (heap w) v (loadingPosts w) (console w)
                     (renderErrors w)).

Definition setPostsFn (upd : val → M val) : M unit :=
  λ w, match upd (posts w) w with
       | (Normal v, w1) =>
           (Normal (), mkDash (heap w1) v (loadingPosts w1) (console w1)
                         (renderErrors w1))
       | (Throw e, w1) =>
           (Normal (), mkDash (heap w1) (posts w1) (loadingPosts w1) (console w1)
                         (renderErrors w1 ++ [e]))
       end.

Definition setLoadingPosts (b : bool) : M unit :=
  λ w, (Normal (), mkDash (heap w) (posts w) b (console w)
                     (renderErrors w)).

Definition console_error (e : exn) : M unit :=
  λ w, (Normal (), mkDash (heap w) (posts w) (loadingPosts w) (console w ++ [e])
                         (renderErrors w)).

(** *** The effect and the handlers *)

(** [fetchPosts], given how [getPosts()] settles. *)
Definition fetchPosts (getPosts : settled) : M unit :=
  try_finally
    (try_catch
       (let* postsFromApi := await getPosts in
        let* reversed := Array_reverse postsFromApi in
        setPosts reversed)
       (λ err, console_error err))
    (setLoadingPosts false).

(** The local transform of [handlePostSubmit]: [(prev) => [savedPost, ...prev]]. *)
Definition prependPost (savedPost : val) (prev : val) : M val :=
  let* rest := spread_elems prev in
  alloc (Arr (savedPost :: rest)).

Definition handlePostSubmit (postPost : settled) : M unit :=
  try_catch
    (let* savedPost := await postPost in
     setPostsFn (prependPost savedPost))
    (λ err, console_error err).

Definition updatePosts (fn : val → M val) : M unit :=
  setPostsFn (λ prev, Array_map fn prev).

(** The local transform of [handleDeletePost]:
    [(prev) => prev.filter((p) => p.id !== postId)]. *)
Definition removePost (postId : val) (prev : val) : M val :=
  Array_filter
    (λ p, let* id := get_prop p "id" in ret (negb (strict_eq id postId)))
    prev.

Definition handleDeletePost (postId : val) (deletePost : settled) : M unit :=
  (await deletePost;;
   setPostsFn (removePost postId)).

(** The per-post callbacks handed to [updatePosts]. *)
Definition replacePost (postId updatedPost refreshedComments : val)
    (post : val) : M val :=
  let* id := get_prop post "id" in
  if strict_eq id postId then
    let* props := spread_props updatedPost in
    alloc (Obj (<["comments" := refreshedComments]> props))
  else ret post.

Definition appendComment (postId savedComment : val) (post : val) : M val :=
  let* id := get_prop post "id" in
  if strict_eq id postId then
    let* props := spread_props post in
    let* cs := get_prop post "comments" in
    let* old := spread_elems cs in
    let* cs' := alloc (Arr (old ++ [savedComment])) in
    alloc (Obj (<["comments" := cs']> props))
  else ret post.

Definition removeComment (postId commentId : val) (post : val) : M val :=
  let* id := get_prop post "id" in
  if strict_eq id postId then
    let* props := spread_props post in
    let* cs := get_prop post "comments" in
    let* cs' := Array_filter
                  (λ c, let* cid := get_prop c "id" in
                        ret (negb (strict_eq cid commentId))) cs in
    alloc (Obj (<["comments" := cs']> props))
  else ret post.

Definition replaceComment (postId commentId updatedComment : val)
    (post : val) : M val :=
  let* id := get_prop post "id" in
  if strict_eq id postId then
    let* props := spread_props post in
    let* cs := get_prop post "comments" in
    let* cs' := Array_map
                  (λ c, let* cid := get_prop c "id" in
                        ret (if strict_eq cid commentId
                             then updatedComment else c)) cs in
    alloc (Obj (<["comments" := cs']> props))
  else ret post.

Definition handleUpdatePost (postId : val)
    (patchPost getCommentByPostId : settled) : M unit :=
  let* updatedPost := await patchPost in
  let* refreshedComments := await getCommentByPostId in
  updatePosts (replacePost postId updatedPost refreshedComments).

Definition handleCommentPost (postId : val) (postComments : settled) : M unit :=
  let* savedComment := await postComments in
  updatePosts (appendComment postId savedComment).

Definition handleDeleteComment (postId commentId : val)
    (deleteComment : settled) : M unit :=
  (await deleteComment;;
   updatePosts (removeComment postId commentId)).

Definition handleUpdateComment (postId commentId : val)
    (patchComment : settled) : M unit :=
  let* updatedComment := await patchComment in
  updatePosts (replaceComment postId commentId updatedComment).

(** The four mutations that go through [updatePosts], each with the
    values its server calls resolved to. *)
Inductive per_post : Type :=
| UpdatePost (updatedPost refreshedComments : val)
| CreateComment (savedComment : val)
| DeleteComment (commentId deleted : val)
| UpdateComment (commentId updatedComment : val).

Definition per_post_callback (postId : val) (m : per_post) : val → M val :=
  match m with
  | UpdatePost up rc => replacePost postId up rc
  | CreateComment sc => appendComment postId sc
  | DeleteComment cid _ => removeComment postId cid
  | UpdateComment cid uc => replaceComment postId cid uc
  end.

Definition run_per_post (postId : val) (m : per_post) : M unit :=
  match m with
  | UpdatePost up rc => handleUpdatePost postId (Fulfilled up) (Fulfilled rc)
  | CreateComment sc => handleCommentPost postId (Fulfilled sc)
  | DeleteComment cid d => handleDeleteComment postId cid (Fulfilled d)
  | UpdateComment cid uc => handleUpdateComment postId cid (Fulfilled uc)
  end.

(** Every user-triggered mutation, with the way each of its server calls
    settled. *)
Inductive mutation : Type :=
| CreatePostM (postPost : settled)
| DeletePostM (postId : val) (deletePost : settled)
| UpdatePostM (postId : val) (patchPost getCommentByPostId : settled)
| CreateCommentM (postId : val) (postComments : settled)
| DeleteCommentM (postId commentId : val) (deleteComment : settled)
| UpdateCommentM (postId commentId : val) (patchComment : settled).

Definition handle (m : mutation) : M unit :=
  match m with
  | CreatePostM r => handlePostSubmit r
  | DeletePostM postId r => handleDeletePost postId r
  | UpdatePostM postId r1 r2 => handleUpdatePost postId r1 r2
  | CreateCommentM postId r => handleCommentPost postId r
  | DeleteCommentM postId commentId r => handleDeleteComment postId commentId r
  | UpdateCommentM postId commentId r => handleUpdateComment postId commentId r
  end.

Definition rejection (r : settled) : option val :=
  match r with Rejected e => Some e | Fulfilled _ => None end.

(** The reason of the first server call that fails, in the order the
    handler awaits them. *)
Definition failure (m : mutation) : option val :=
  match m with
  | CreatePostM r | DeletePostM _ r | CreateCommentM _ r
  | DeleteCommentM _ _ r | UpdateCommentM _ _ r => rejection r
  | UpdatePostM _ r1 r2 =>
      match r1 with Rejected e => Some e | Fulfilled _ => rejection r2 end
  end.

Definition is_create_post (m : mutation) : bool :=
  match m with CreatePostM _ => true | _ => false end.

(** A run of successful create-post and delete-post actions. *)
Inductive post_op : Type :=
| Create (savedPost : val)
| Delete (postId deleted : val).

Definition run_op (o : post_op) : M unit :=
  match o with
  | Create savedPost => handlePostSubmit (Fulfilled savedPost)
  | Delete postId d => handleDeletePost postId (Fulfilled d)
  end.

Fixpoint run_ops (ops : list post_op) : M unit :=
  match ops with
  | [] => ret ()
  | o :: ops' => (run_op o;; run_ops ops')
  end.

(** The state of a freshly mounted component: [useState([])] for the
    posts and [useState(true)] for the flag, over a store [h]. *)
Definition mount (h : list cell) : Dash :=
  mkDash (h ++ [Arr []]) (Ref (length h)) true [] [].

(** *** Reading the view-state *)

Definition is_object (h : list cell) (v : val) : bool :=
  match v with
  | Ref l => match h !! l with Some (Obj _) => true | _ => false end
  | _ => false
  end.

(** The posts sequence held by the state: an array of objects. *)
Definition view_posts (w : Dash) : option (list val) :=
  match as_array (heap w) (posts w) with
  | Some ps => if forallb (is_object (heap w)) ps then Some ps else None
  | None => None
  end.

Definition prop_of (h : list cell) (v : val) (k : string) : val :=
  default Undefined (lookup_prop h v k).

Definition post_id (h : list cell) (p : val) : val := prop_of h p "id".

(** A post's comment sequence: an array of objects. *)
Definition post_comments (h : list cell) (p : val) : option (list val) :=
  match as_array h (prop_of h p "comments") with
  | Some cs => if forallb (is_object h) cs then Some cs else None
  | None => None
  end.

Fixpoint feed_of (h : list cell) (ps : list val) : option (list (val * list val)) :=
  match ps with
  | [] => Some []
  | p :: ps' =>
      match post_comments h p, feed_of h ps' with
      | Some cs, Some rest => Some ((p, cs) :: rest)
      | _, _ => None
      end
  end.

(** The whole tree: every post with its comments. *)
Definition view_feed (w : Dash) : option (list (val * list val)) :=
  match view_posts w with
  | Some ps => feed_of (heap w) ps
  | None => None
  end.

Definition comment_id (h : list cell) (c : val) : val := prop_of h c "id".

Definition has_comment_id (h : list cell) (commentId : val) (c : val) : bool :=
  strict_eq (comment_id h c) commentId.

(** How many comments of the whole tree carry the given id. *)
Definition occurrences (h : list cell) (commentId : val)
    (feed : list (val * list val)) : nat :=
  sum_list ((λ e, length (List.filter (has_comment_id h commentId) e.2)) <$> feed).

(** What [replacePost] makes of one post [x]: the same object when the
    id differs, otherwise a new object built from the patched post and
    the fetched comments. *)
Definition replaced (h0 : list cell) (postId up rc : val)
    (x y : val) (h : list cell) : Prop :=
  is_object h y = true ∧
  (post_id h0 x ≠ postId → y = x) ∧
  (post_id h0 x = postId →
     ∃ l hx, y = Ref l ∧ h0 `prefix_of` hx ∧
             h !! l = Some (Obj (<["comments" := rc]> (own_props hx up)))).

Definition keeps (h : list cell) (commentId : val) (c : val) : bool :=
  negb (has_comment_id h commentId c).

(** What [removeComment] makes of one post [x]: the same object when the
    id differs, otherwise an object whose comments are the kept ones. *)
Definition pruned (h0 : list cell) (postId commentId : val)
    (x y : val) (h : list cell) : Prop :=
  is_object h y = true ∧
  (post_id h0 x ≠ postId → y = x) ∧
  (∀ cs, post_comments h0 x = Some cs →
     post_comments h y =
       Some (if strict_eq (post_id h0 x) postId
             then List.filter (keeps h0 commentId) cs else cs)).

(** The posts a run creates, in order. *)
Fixpoint created (ops : list post_op) : list val :=
  match ops with
  | [] => []
  | Create p :: ops' => p :: created ops'
  | Delete _ _ :: ops' => created ops'
  end.

(** Does some delete of the run name the id of [p]? *)
Definition deleted_by (h : list cell) (ops : list post_op) (p : val) : bool :=
  existsb (λ o, match o with
                | Delete postId _ => strict_eq (post_id h p) postId
                | Create _ => false
                end) ops.

(** The created posts that no later delete names, newest first. *)
Fixpoint survivors (h : list cell) (ops : list post_op) : list val :=
  match ops with
  | [] => []
  | Create p :: ops' =>
      survivors h ops' ++ (if deleted_by h ops' p then [] else [p])
  | Delete _ _ :: ops' => survivors h ops'
  end.

(** The initial posts that no delete names. *)
Definition remaining (h : list cell) (ops : list post_op) (ps : list val) : list val :=
  List.filter (λ p, negb (deleted_by h ops p)) ps.

(** *** A small feed *)

Definition object (props : list (string * val)) : cell :=
  Obj (list_to_map props).

(** Two posts (ids 1 and 2), three comments (ids 10, 11, 12), the posts
    array, and what the server hands back in the examples: a patched
    post 1, a fresh comment list for it, a new post 3 and a new comment. *)
Definition demo_store : list cell :=
  [ object [("id", Num 1); ("content", Str "first"); ("comments", Ref 1)];
    Arr [Ref 2; Ref 3];
    object [("id", Num 10); ("postId", Num 1); ("content", Str "a")];
    object [("id", Num 11); ("postId", Num 1); ("content", Str "b")];
    object [("id", Num 2); ("content", Str "second"); ("comments", Ref 5)];
    Arr [Ref 6];
    object [("id", Num 12); ("postId", Num 2); ("content", Str "c")];
    Arr [Ref 0; Ref 4];
    object [("id", Num 1); ("content", Str "edited")];
    Arr [Ref 10];
    object [("id", Num 13); ("postId", Num 1); ("content", Str "d")];
    object [("id", Num 3); ("content", Str "third"); ("comments", Ref 12)];
    Arr [];
    object [("id", Num 14); ("postId", Num 2); ("content", Str "e")] ].

Definition demo : Dash := mkDash demo_store (Ref 7) false [] [].

(** *** Store extension *)

(** [w'] differs from [w] by freshly allocated cells only. *)
Definition grows (w w' : Dash) : Prop :=
  heap w `prefix_of` heap w' ∧ posts w' = posts w ∧
  loadingPosts w' = loadingPosts w ∧ console w' = console w ∧
  renderErrors w' = renderErrors w.

(** A value that does not point outside the store. *)
Definition in_store (h : list cell) (v : val) : bool :=
  match v with
  | Ref l => bool_decide (l < length h)
  | _ => true
  end.

End Dashboard.

(** ** The API client *)

Module ApiClient.

#[local] Set Warnings "-register-all".

(** Payloads and parsed bodies. An object lists its own properties in
    enumeration order, each key once. *)
Inductive json : Type :=
| JUndefined
| JNull
| JBool (b : bool)
| JNum (z : Z)
| JStr (s : string)
| JArr (elems : list json)
| JObj (props : list (string * json)).

(** What a rejected promise carries. *)
Inductive error : Type :=
| TypeError
| SyntaxError
| NetworkError (reason : string).

Inductive result (A : Type) : Type :=
| Resolved (a : A)
| Rejected (e : error).
Arguments Resolved {A} a.
Arguments Rejected {A} e.

(** The second argument of [fetch]; [body = None] when the property was
    never assigned. *)
Record RequestInit : Type := mkInit {
  headers : gmap string string;
  method : string;
  body : option json
}.

(** A [fetch] response: its status and what [response.json()] settles to. *)
Record Response : Type := mkResponse {
  status : Z;
  json_body : result json
}.

(** What an API function resolves to: a parsed body or the response
    object itself. *)
Inductive reply : Type :=
| Parsed (j : json)
| Raw (r : Response).

Inductive event : Type :=
| ConsoleLog (args : list reply)
| Fetch (url : string) (init : RequestInit).

(** String conversion, as in a template literal. *)
Fixpoint to_string (j : json) : string :=
  match j with
  | JUndefined => "undefined"
  | JNull => "null"
  | JBool b => if b then "true" else "false"
  | JNum z => pretty z
  | JStr s => s
  | JArr l =>
      (fix join (l : list json) : string :=
         match l with
         | [] => ""
         | x :: r =>
             let e := match x with
                      | JUndefined | JNull => ""
                      | _ => to_string x
                      end in
             match r with [] => e | _ => e +:+ "," +:+ join r end
         end) l
  | JObj _ => "[object Object]"
  end.

Definition upper_ascii (c : ascii) : ascii :=
  let n := nat_of_ascii c in
  if (97 <=? n)%nat && (n <=? 122)%nat then ascii_of_nat (n - 32) else c.

(** [s.toUpperCase()] on ASCII text. *)
Fixpoint toUpperCase (s : string) : string :=
  match s with
  | EmptyString => EmptyString
  | String c r => String (upper_ascii c) (toUpperCase r)
  end.

Definition get_field (props : list (string * json)) (k : string) : json :=
  match List.find (λ kv, String.eqb kv.1 k) props with
  | Some kv => kv.2
  | None => JUndefined
  end.

(** Own enumerable properties, as object destructuring sees them;
    [None] for [undefined] and [null], which cannot be destructured. *)
Definition own_entries (j : json) : option (list (string * json)) :=
  match j with
  | JUndefined | JNull => None
  | JObj props => Some props
  | JArr l => Some (imap (λ i x, (pretty i, x)) l)
  | JStr s =>
      Some (imap (λ i c, (pretty i, JStr (String c EmptyString)))
                 (String.list_ascii_of_string s))
  | _ => Some []
  end.

Definition rest_props (k : string) (props : list (string * json)) :
    list (string * json) :=
  List.filter (λ kv, negb (String.eqb kv.1 k)) props.

(** The rest object of [const { k, ...rest } = j]. *)
Definition rest_without (k : string) (props : list (string * json)) : json :=
  JObj (rest_props k props).

Section client.
Context {S : Type}.

(** [API_URL] comes from [./constants]; [JSON.stringify] and [fetch]
    are the platform's. The server behind [fetch] has a state of its
    own. *)
Variable API_URL : string.
Variable JSON_stringify : json → json.
Variable fetch : string → RequestInit → S → result Response * S.

Record World : Type := mkWorld {
  localStorage : gmap string string;
  server : S
}.

(** Asynchronous code over the world, recording what it logs and
    fetches. *)
Definition C (A : Type) : Type := World → result A * World * list event.

Definition ret {A} (a : A) : C A := λ w, (Resolved a, w, []).

Definition reject {A} (e : error) : C A := λ w, (Rejected e, w, []).

Definition bind {A B} (m : C A) (k : A → C B) : C B :=
  λ w, match m w with
       | (Resolved a, w1, t1) =>
           match k a w1 with (r, w2, t2) => (r, w2, t1 ++ t2) end
       | (Rejected e, w1, t1) => (Rejected e, w1, t1)
       end.

Declare Scope client_scope.
Delimit Scope client_scope with client.
Notation "'let*' x ':=' c 'in' k" := (bind c (λ x, k))
  (at level 10, x pattern, c at level 100, k at level 200) : client_scope.
Notation "c ';;' k" := (bind c (λ _, k))
  (at level 100, k at level 200, right associativity) : client_scope.
Local Open Scope client_scope.

Definition console_log (args : list reply) : C unit :=
  λ w, (Resolved (), w, [ConsoleLog args]).

(** [localStorage.getItem(k)]: the stored string, or [null]. *)
Definition getItem (k : string) : C json :=
  λ w, (Resolved (match localStorage w !! k with
                  | Some v => JStr v
                  | None => JNull
                  end), w, []).

(** [await fetch(url, init)]. *)
Definition await_fetch (url : string) (init : RequestInit) : C Response :=
  λ w, match fetch url init (server w) with
       | (r, s') => (r, mkWorld (localStorage w) s', [Fetch url init])
       end.

(** [response.json()]. *)
Definition response_json (r : Response) : C reply :=
  match json_body r with
  | Resolved j => ret (Parsed j)
  | Rejected e => reject e
  end.

Definition set_body (b : json) (o : RequestInit) : RequestInit :=
  mkInit (headers o) (method o) (Some b).

Definition set_header (k v : string) (o : RequestInit) : RequestInit :=
  mkInit (<[k := v]> (headers o)) (method o) (body o).

(** [request]; its four callers always pass all five arguments. *)
Definition request (method endpoint : string) (data : json)
    (auth getFullResponse : bool) : C reply :=
  let opts := mkInit {["Content-Type" := "application/json"]} method None in
  let opts :=
    if negb (String.eqb (toUpperCase method) "GET")
    then set_body (JSON_stringify data) opts
    else opts in
  let* opts :=
    (if auth
     then let* token := getItem "token" in
          ret (set_header "Authorization" ("Bearer " +:+ to_string token) opts)
     else ret opts) in
  (console_log [Parsed (JStr "request: ");
                Parsed (JStr (API_URL +:+ "/" +:+ endpoint))];;
   let* response := await_fetch (API_URL +:+ "/" +:+ endpoint) opts in
   if negb getFullResponse then response_json response
   else ret (Raw response)).

(** The verb helpers; an omitted flag takes its default. *)
Definition post (endpoint : string) (data : json)
    (auth getFullResponse : option bool) : C reply :=
  request "POST" endpoint data (default true auth) (default false getFullResponse).

Definition patch (endpoint : string) (data : json)
    (auth getFullResponse : option bool) : C reply :=
  request "PATCH" endpoint data (default true auth) (default false getFullResponse).

Definition get (endpoint : string)
    (auth getFullResponse : option bool) : C reply :=
  request "GET" endpoint JNull (default true auth) (default false getFullResponse).

Definition del (endpoint : string) (data : json)
    (auth getFullResponse : option bool) : C reply :=
  request "DELETE" endpoint data (default true auth) (default false getFullResponse).

(** [res.data]. *)
Definition get_data (res : reply) : C reply :=
  match res with
  | Parsed JUndefined | Parsed JNull => reject TypeError
  | Parsed (JObj props) => ret (Parsed (get_field props "data"))
  | _ => ret (Parsed JUndefined)
  end.

Definition login (email password : json) : C reply :=
  post "login" (JObj [("email", email); ("password", password)]) (Some false) None.

Definition register (email password : json) : C reply :=
  (post "users" (JObj [("email", email); ("password", password)]) (Some false) None;;
   login email password).

Definition patchProfile (userId userData : json) : C reply :=
  match own_entries userData with
  | None => reject TypeError
  | Some props =>
      let dataToSend := rest_without "password" props in
      patch ("users/" +:+ to_string userId) dataToSend (Some true) (Some true)
  end.

Definition getUsers : C reply := get "users" (Some true) (Some true).

Definition getUserById (id : json) : C reply :=
  get ("users/" +:+ to_string id) (Some true) (Some true).

Definition getUsersByName (name : json) : C reply :=
  get ("users?name=" +:+ to_string name) (Some true) (Some true).

Definition patchUser (id photoUrl : json) : C reply :=
  patch ("users/" +:+ to_string id) (JObj [("photo", photoUrl)]) None None.

Definition getPosts : C reply :=
  let* res := get "posts" None None in
  (console_log [Parsed (JStr "getPosts response:"); res];;
   get_data res).

Definition postPost (userId content : json) : C reply :=
  let* res := post "posts" (JObj [("userid", userId); ("content", content)])
                   None None in
  get_data res.

Definition deletePost (postId : json) : C reply :=
  let* res := del ("posts/" +:+ to_string postId) JUndefined None None in
  get_data res.

Definition patchPost (postId content : json) : C reply :=
  let* res := patch ("posts/" +:+ to_string postId) (JObj [("content", content)])
                    None None in
  get_data res.

Definition getCohorts : C reply := get "cohorts" (Some true) (Some true).

(** The exported functions, as calls. *)
Inductive api_call : Type :=
| Login (email password : json)
| Register (email password : json)
| PatchProfile (userId userData : json)
| GetUsers
| GetUserById (id : json)
| GetUsersByName (name : json)
| PatchUser (id photoUrl : json)
| GetPosts
| PostPost (userId content : json)
| DeletePost (postId : json)
| PatchPost (postId content : json)
| GetCohorts.

Definition call (c : api_call) : C reply :=
  match c with
  | Login email password => login email password
  | Register email password => register email password
  | PatchProfile userId userData => patchProfile userId userData
  | GetUsers => getUsers
  | GetUserById id => getUserById id
  | GetUsersByName name => getUsersByName name
  | PatchUser id photoUrl => patchUser id photoUrl
  | GetPosts => getPosts
  | PostPost userId content => postPost userId content
  | DeletePost postId => deletePost postId
  | PatchPost postId content => patchPost postId content
  | GetCohorts => getCohorts
  end.

Definition is_login_or_register (c : api_call) : bool :=
  match c with
  | Login _ _ | Register _ _ => true
  | _ => false
  end.

(** *** Observing a run *)

Definition outcome {A} (m : C A) (w : World) : result A := (m w).1.1.

Fixpoint fetches (t : list event) : list (string * RequestInit) :=
  match t with
  | [] => []
  | Fetch url init :: t' => (url, init) :: fetches t'
  | ConsoleLog _ :: t' => fetches t'
  end.

(** The requests a computation sends, in order. *)
Definition sent {A} (m : C A) (w : World) : list (string * RequestInit) :=
  fetches (m w).2.

(** The header value [request] builds from the stored token. *)
Definition bearer (w : World) : string :=
  "Bearer " +:+ match localStorage w !! "token" with
               | Some t => t
               | None => "null"
               end.

(** The [init] that [request] hands to [fetch]. *)
Definition expected_init (method : string) (data : json) (auth : bool)
    (w : World) : RequestInit :=
  mkInit
    (if auth
     then <["Authorization" := bearer w]> {["Content-Type" := "application/json"]}
     else {["Content-Type" := "application/json"]})
    method
    (if String.eqb (toUpperCase method) "GET" then None
     else Some (JSON_stringify data)).

End client.

Arguments World S : clear implicits.
Arguments C S A : clear implicits.

(** *** A toy platform for the examples *)

Definition quote : string := String (ascii_of_nat 34) EmptyString.

(** A plain serializer: no escaping, no number formats beyond integers. *)
Fixpoint show (j : json) : string :=
  match j with
  | JUndefined | JNull => "null"
  | JBool b => if b then "true" else "false"
  | JNum z => pretty z
  | JStr s => quote +:+ s +:+ quote
  | JArr l =>
      "[" +:+
      (fix items (l : list json) : string :=
         match l with
         | [] => ""
         | x :: r =>
             match r with
             | [] => show x
             | _ => show x +:+ "," +:+ items r
             end
         end) l
      +:+ "]"
  | JObj props =>
      "{" +:+
      (fix members (l : list (string * json)) : string :=
         match l with
         | [] => ""
         | (k, v) :: r =>
             let m := quote +:+ k +:+ quote +:+ ":" +:+ show v in
             match r with
             | [] => m
             | _ => m +:+ "," +:+ members r
             end
         end) props
      +:+ "}"
  end.

Definition toy_stringify (j : json) : json :=
  match j with
  | JUndefined => JUndefined
  | _ => JStr (show j)
  end.

(** A server that counts the requests it has seen and answers each with
    a JSON envelope naming the URL. *)
Definition toy_fetch (url : string) (init : RequestInit) (n : nat) :
    result Response * nat :=
  (Resolved (mkResponse 200 (Resolved (JObj [("data", JStr url)]))), Datatypes.S n).

Definition toy_world : World nat := mkWorld {["token" := "t0k3n"]} 0.

End ApiClient.

(** ** More ways to look at the dashboard *)

Module DashboardView.
Import Dashboard.
Local Open Scope js_scope.

(** A computation that touches the state by allocating only. *)
Definition allocating {A} (m : M A) : Prop :=
  ∀ w r w', m w = (r, w') → grows w w'.

(** A computation that never writes to an existing cell, never touches
    [loadingPosts], and leaves the posts state and the console alone when
    it throws. *)
Definition framed {A} (m : M A) : Prop :=
  ∀ w r w', m w = (r, w') →
    heap w `prefix_of` heap w' ∧ loadingPosts w' = loadingPosts w ∧
    (∀ e, r = Throw e → posts w' = posts w ∧ console w' = console w).

(** A computation whose normal result is an array of the store it leaves. *)
Definition yields_array (m : M val) : Prop :=
  ∀ w v w', m w = (Normal v, w') → is_Some (as_array (heap w') v).

(** A computation that keeps the posts state an array. *)
Definition keeps_array {A} (m : M A) : Prop :=
  ∀ w r w', m w = (r, w') →
    is_Some (as_array (heap w) (posts w)) →
    is_Some (as_array (heap w') (posts w')).

(** A computation that throws nothing but [TypeError]. *)
Definition type_errors_only {A} (m : M A) : Prop :=
  ∀ w e w', m w = (Throw e, w') → e = TypeError.

(** The posts state holds an array. *)
Definition posts_is_array (w : Dash) : Prop :=
  is_Some (as_array (heap w) (posts w)).

Definition is_comment_mutation (m : per_post) : bool :=
  match m with UpdatePost _ _ => false | _ => true end.

(** The comment mutations among the per-post mutations, with a payload
    that is an object of the store [h]. *)
Definition comment_payload_ok (h : list cell) (m : per_post) : bool :=
  match m with
  | UpdatePost _ _ => false
  | CreateComment savedComment => is_object h savedComment
  | DeleteComment _ _ => true
  | UpdateComment _ updatedComment => is_object h updatedComment
  end.

(** What a comment mutation makes of the comment list of a post it
    applies to: append, filter, replace in place. *)
Definition comments_after (h : list cell) (m : per_post) (cs : list val) : list val :=
  match m with
  | UpdatePost _ _ => cs
  | CreateComment savedComment => cs ++ [savedComment]
  | DeleteComment commentId _ => List.filter (keeps h commentId) cs
  | UpdateComment commentId updatedComment =>
      (λ c, if has_comment_id h commentId c then updatedComment else c) <$> cs
  end.

(** What a comment callback makes of one post [x]: the same object when
    the id differs; otherwise an object with the same properties except
    [comments], which lists [f] of the old comments. *)
Definition rebuilt (h0 : list cell) (postId : val) (f : list val → list val)
    (x y : val) (h : list cell) : Prop :=
  is_object h y = true ∧
  (post_id h0 x ≠ postId → y = x) ∧
  (∀ k, k ≠ "comments" → prop_of h y k = prop_of h0 x k) ∧
  (∀ cs, post_comments h0 x = Some cs →
     post_comments h y =
       Some (if strict_eq (post_id h0 x) postId then f cs else cs)).

(** How two entries of the tree relate across a comment mutation. *)
Definition entry_after (h0 h : list cell) (postId : val)
    (f : list val → list val) (e e' : val * list val) : Prop :=
  (post_id h0 e.1 ≠ postId → e'.1 = e.1) ∧
  (∀ k, k ≠ "comments" → prop_of h e'.1 k = prop_of h0 e.1 k) ∧
  e'.2 = if strict_eq (post_id h0 e.1) postId then f e.2 else e.2.

End DashboardView.

(** ** Cohorts on the dashboard *)

Module Cohorts.
Import Dashboard.
Local Open Scope js_scope.

(** [!!v]. *)
Definition truthy (v : val) : bool :=
  match v with
  | Undefined | Null => false
  | Bool b => b
  | Num z => negb (z =? 0)%Z
  | Str s => negb (String.eqb s "")
  | Ref _ => true
  end.

Definition nullish (v : val) : bool :=
  match v with Undefined | Null => true | _ => false end.

(** One step of [flatMap]: a callback result that is an array contributes
    its elements, any other result contributes itself. *)
Definition flatten_one (y : val) : M (list val) :=
  λ w, (Normal (match as_array (heap w) y with
                | Some es => es
                | None => [y]
                end), w).

Fixpoint flat_cb (fn : val → M val) (l : list val) : M (list val) :=
  match l with
  | [] => ret []
  | x :: l' =>
      let* y := fn x in
      let* ys := flatten_one y in
      let* rest := flat_cb fn l' in
      ret (ys ++ rest)
  end.

(** [arr.flatMap(fn)]: a new array. *)
Definition Array_flatMap (fn : val → M val) (arr : val) : M val :=
  let* es := array_elems arr in
  let* es' := flat_cb fn es in
  alloc (Arr es').

(** [v || []]. *)
Definition or_empty (v : val) : M val :=
  if truthy v then ret v else alloc (Arr []).

(** The callback [(c) => c[key] || []]. *)
Definition listed (key : string) (c : val) : M val :=
  let* members := get_prop c key in
  or_empty members.

(** [cohort?.courses.flatMap((c) => c[key] || []) || []], the common
    shape of [getStudentsInCohort] and [getTeachersInCohort]. *)
Definition cohortMembers (key : string) (cohort : val) : M val :=
  let* found :=
    (if nullish cohort then ret Undefined
     else let* courses := get_prop cohort "courses" in
          Array_flatMap (listed key) courses) in
  or_empty found.

Definition getStudentsInCohort (cohort : val) : M val :=
  cohortMembers "students" cohort.

Definition getTeachersInCohort (cohort : val) : M val :=
  cohortMembers "teachers" cohort.

(** [{ courses: cohorts.flatMap((c) => c.courses) }], the aggregate the
    staff view passes to the two functions above. *)
Definition allCourses (cohorts : val) : M val :=
  let* courses := Array_flatMap (λ c, get_prop c "courses") cohorts in
  alloc (Obj {["courses" := courses]}).

Definition allStudents (cohorts : val) : M val :=
  let* aggregate := allCourses cohorts in
  getStudentsInCohort aggregate.

Definition allTeachers (cohorts : val) : M val :=
  let* aggregate := allCourses cohorts in
  getTeachersInCohort aggregate.

(** *** The cohort state and its fetch *)

(** The dashboard state with the cohort part added. *)
Record Page : Type := mkPage {
  dash : Dash;
  cohorts : val;
  selectedCohort : val;
  loadingCohorts : bool
}.

Definition P (A : Type) : Type := Page → completion A * Page.

(** Run a computation of the posts part inside the page. *)
Definition lift {A} (m : M A) : P A :=
  λ p, match m (dash p) with
       | (r, d) => (r, mkPage d (cohorts p) (selectedCohort p) (loadingCohorts p))
       end.

Definition retP {A} (a : A) : P A := λ p, (Normal a, p).

Definition bindP {A B} (m : P A) (k : A → P B) : P B :=
  λ p, match m p with
       | (Normal a, p1) => k a p1
       | (Throw e, p1) => (Throw e, p1)
       end.

Definition try_catchP {A} (body : P A) (handler : exn → P A) : P A :=
  λ p, match body p with
       | (Normal a, p1) => (Normal a, p1)
       | (Throw e, p1) => handler e p1
       end.

Definition try_finallyP {A} (body : P A) (fin : P unit) : P A :=
  λ p, match body p with
       | (r, p1) =>
           match fin p1 with
           | (Normal _, p2) => (r, p2)
           | (Throw e, p2) => (Throw e, p2)
           end
       end.

Declare Scope page_scope.
Delimit Scope page_scope with page.
Notation "'let*' x ':=' c 'in' k" := (bindP c (λ x, k))
  (at level 10, x pattern, c at level 100, k at level 200) : page_scope.

Definition setCohorts (v : val) : P unit :=
  λ p, (Normal (), mkPage (dash p) v (selectedCohort p) (loadingCohorts p)).

Definition setSelectedCohort (v : val) : P unit :=
  λ p, (Normal (), mkPage (dash p) (cohorts p) v (loadingCohorts p)).

Definition setLoadingCohorts (b : bool) : P unit :=
  λ p, (Normal (), mkPage (dash p) (cohorts p) (selectedCohort p) b).

(** [v.length]; [None] is a TypeError. *)
Definition lookup_length (h : list cell) (v : val) : option val :=
  match v with
  | Undefined | Null => None
  | Str s => Some (Num (Z.of_nat (String.length s)))
  | Ref l =>
      match h !! l with
      | Some (Arr es) => Some (Num (Z.of_nat (length es)))
      | Some (Obj f) => Some (default Undefined (f !! "length"))
      | None => None
      end
  | _ => Some Undefined
  end.

(** [v[0]]; [None] is a TypeError. *)
Definition lookup_first (h : list cell) (v : val) : option val :=
  match v with
  | Undefined | Null => None
  | Str s => Some (default Undefined (chars s !! 0))
  | Ref l =>
      match h !! l with
      | Some (Arr es) => Some (default Undefined (es !! 0))
      | Some (Obj f) => Some (default Undefined (f !! "0"))
      | None => None
      end
  | _ => Some Undefined
  end.

Section fetching.

(** [x > 0] for a string or an object [x] goes through the platform's
    conversion to a number, which is left open. *)
Variable converted_above_zero : list cell → val → bool.

(** [v > 0]. *)
Definition above_zero (h : list cell) (v : val) : bool :=
  match v with
  | Undefined | Null => false
  | Bool b => b
  | Num z => (0 <? z)%Z
  | Str _ | Ref _ => converted_above_zero h v
  end.

(** [json.data || json]. *)
Definition unwrap (json : val) : M val :=
  let* data := get_prop json "data" in
  ret (if truthy data then data else json).

(** [fetchCohorts], for the current [user], given how the two API calls
    would settle (only the one the role selects is awaited). *)
Definition fetchCohorts (user : val) (getCohortsForUser getCohorts : settled) :
    P unit :=
  try_finallyP
    (try_catchP
       (let* role := lift (get_prop user "role") in
        if strict_eq role (Num 0) then
          let* _ := lift (get_prop user "id") in
          let* json := lift (await getCohortsForUser) in
          let* cohortData := lift (unwrap json) in
          let* len := lift (λ w, of_option (lookup_length (heap w) cohortData) w) in
          let* positive := lift (λ w, (Normal (above_zero (heap w) len), w)) in
          if positive : bool then
            let* first := lift (λ w, of_option (lookup_first (heap w) cohortData) w) in
            setSelectedCohort first
          else retP ()
        else
          let* json := lift (await getCohorts) in
          let* cohortData := lift (unwrap json) in
          setCohorts cohortData)%page
       (λ err, lift (console_error err)))
    (setLoadingCohorts false).

End fetching.

(** What [json.data || json] denotes for any [json] that has properties
    at all, an array as well as an object. *)
Definition payload (h : list cell) (json : val) : val :=
  if truthy (prop_of h json "data") then prop_of h json "data" else json.

(** *** What the member lists should be *)

Definition array_or_nil (h : list cell) (v : val) : list val :=
  match as_array h v with Some es => es | None => [] end.

(** The members one course lists under [key]. *)
Definition course_members (h : list cell) (key : string) (c : val) : list val :=
  array_or_nil h (prop_of h c key).

Definition courses_of (h : list cell) (cohort : val) : list val :=
  array_or_nil h (prop_of h cohort "courses").

(** A course that lists its members under [key] as an array, or not at
    all. *)
Definition course_ok (h : list cell) (key : string) (c : val) : bool :=
  is_object h c &&
  (negb (truthy (prop_of h c key)) || bool_decide (is_Some (as_array h (prop_of h c key)))).

(** A cohort object whose [courses] is an array of such courses. *)
Definition cohort_ok (h : list cell) (key : string) (cohort : val) : bool :=
  is_object h cohort &&
  bool_decide (is_Some (as_array h (prop_of h cohort "courses"))) &&
  forallb (course_ok h key) (courses_of h cohort).

(** *** A teacher's dashboard: two cohorts, three courses *)

Definition school_store : list cell :=
  [ object [("id", Num 1); ("title", Str "Cohort 1"); ("courses", Ref 1)];
    Arr [Ref 2; Ref 4];
    object [("title", Str "Java"); ("students", Ref 3)];
    Arr [Ref 9; Ref 10];
    object [("title", Str "React")];
    object [("id", Num 2); ("title", Str "Cohort 2"); ("courses", Ref 6)];
    Arr [Ref 7];
    object [("title", Str "C#"); ("students", Ref 8); ("teachers", Ref 12)];
    Arr [Ref 11];
    object [("id", Num 100); ("firstName", Str "Ada")];
    object [("id", Num 101); ("firstName", Str "Bob")];
    object [("id", Num 102); ("firstName", Str "Cy")];
    Arr [Ref 13];
    object [("id", Num 200); ("firstName", Str "Tea")];
    Arr [Ref 0; Ref 5] ].

Definition school : Dash := mkDash school_store (Ref 14) false [] [].

(** The same store with a response envelope around the cohorts (15), a
    student user (16), a teacher user (17) and the initial, empty
    [cohorts] array (18); the page right after mount. *)
Definition school_page : Page :=
  mkPage
    (mkDash (school_store ++
               [ object [("data", Ref 14)];
                 object [("id", Num 100); ("role", Num 0)];
                 object [("id", Num 200); ("role", Num 1)];
                 Arr [] ])
            (Ref 14) false [] [])
    (Ref 18) Null true.

End Cohorts.

(** ** More ways to look at the API client *)

Module ApiClientView.
Import ApiClient.

(** The functions that hand back [res.data]. *)
Definition unwraps_data (c : api_call) : bool :=
  match c with
  | GetPosts | PostPost _ _ | DeletePost _ | PatchPost _ _ => true
  | _ => false
  end.

(** The functions that ask for the response object itself. *)
Definition wants_response (c : api_call) : bool :=
  match c with
  | PatchProfile _ _ | GetUsers | GetUserById _ | GetUsersByName _
  | GetCohorts => true
  | _ => false
  end.

(** What [res.data] makes of a parsed body. *)
Definition data_of (j : json) : result reply :=
  match j with
  | JUndefined | JNull => Rejected TypeError
  | JObj props => Resolved (Parsed (get_field props "data"))
  | _ => Resolved (Parsed JUndefined)
  end.

(** The headers of a request without, and with, the bearer token. *)
Definition plain_headers : gmap string string :=
  {["Content-Type" := "application/json"]}.

Definition auth_headers (token : string) : gmap string string :=
  <["Authorization" := "Bearer " +:+ token]> plain_headers.

End ApiClientView.

(** ** The search box *)

Module Search.

(** The text of the box, as UTF-16 code units (numbers below 65536). *)
Abbreviation text := (list N) (only parsing).

(** [WhiteSpace] and [LineTerminator], what [trim] removes. *)
Definition is_white_space (c : N) : bool :=
  ((c =? 9) || (c =? 10) || (c =? 11) || (c =? 12) || (c =? 13) || (c =? 32)
   || (c =? 160) || (c =? 5760) || ((8192 <=? c) && (c <=? 8202))
   || (c =? 8232) || (c =? 8233) || (c =? 8239) || (c =? 8287)
   || (c =? 12288) || (c =? 65279))%N.

Fixpoint trim_start (s : text) : text :=
  match s with
  | c :: s' => if is_white_space c then trim_start s' else s
  | [] => []
  end.

(** [s.trim()]. *)
Definition trim (s : text) : text := rev (trim_start (rev (trim_start s))).

(** The characters [encodeURIComponent] leaves alone: letters, digits and
    [- _ . ! ~ * ' ( )]. *)
Definition unreserved (c : N) : bool :=
  (((65 <=? c) && (c <=? 90)) || ((97 <=? c) && (c <=? 122))
   || ((48 <=? c) && (c <=? 57))
   || (c =? 45) || (c =? 95) || (c =? 46) || (c =? 33) || (c =? 126)
   || (c =? 42) || (c =? 39) || (c =? 40) || (c =? 41))%N.

Definition is_high_surrogate (c : N) : bool := ((55296 <=? c) && (c <=? 56319))%N.
Definition is_low_surrogate (c : N) : bool := ((56320 <=? c) && (c <=? 57343))%N.

Definition hex_digit (n : N) : ascii :=
  ascii_of_N (if (n <? 10)%N then 48 + n else 55 + n).

(** [%XX] for one octet. *)
Definition percent (octet : N) : string :=
  String "%" (String (hex_digit ((octet / 16) mod 16))
                     (String (hex_digit (octet mod 16)) EmptyString)).

(** The UTF-8 octets of a code point. *)
Definition utf8 (cp : N) : list N :=
  (if cp <? 128 then [cp]
   else if cp <? 2048 then [192 + cp / 64; 128 + cp mod 64]
   else if cp <? 65536 then
     [224 + cp / 4096; 128 + (cp / 64) mod 64; 128 + cp mod 64]
   else
     [240 + cp / 262144; 128 + (cp / 4096) mod 64;
      128 + (cp / 64) mod 64; 128 + cp mod 64])%N.

Definition escape (cp : N) : string :=
  fold_right (λ o acc, percent o +:+ acc) EmptyString (utf8 cp).

(** [encodeURIComponent(s)]; [None] is the URIError for a lone
    surrogate. *)
Fixpoint encodeURIComponent (s : text) : option string :=
  match s with
  | [] => Some EmptyString
  | c :: rest =>
      if unreserved c then String (ascii_of_N c) <$> encodeURIComponent rest
      else if is_low_surrogate c then None
      else if is_high_surrogate c then
        match rest with
        | d :: rest' =>
            if is_low_surrogate d
            then (λ r, escape (65536 + (c - 55296) * 1024 + (d - 56320)) +:+ r)%N
                   <$> encodeURIComponent rest'
            else None
        | [] => None
        end
      else (λ r, escape c +:+ r) <$> encodeURIComponent rest
  end.

(** The form's state and what the handler does to the world. *)
Record Box : Type := mkBox {
  searchVal : text;
  navigations : list string;
  defaultPrevented : bool
}.

Inductive submitted : Type :=
| Done
| URIError.

(** [onSearchSubmit(e)]. *)
Definition onSearchSubmit (b : Box) : submitted * Box :=
  let b := mkBox (searchVal b) (navigations b) true in
  match trim (searchVal b) with
  | [] => (Done, b)
  | _ :: _ =>
      match encodeURIComponent (searchVal b) with
      | Some q =>
          (Done, mkBox [] (navigations b ++ ["/search?q=" +:+ q])
                       (defaultPrevented b))
      | None => (URIError, b)
      end
  end.

(** A character that may appear in an encoded component. *)
Definition safe_char (a : ascii) : bool :=
  let c := N_of_ascii a in
  unreserved c || (c =? 37)%N.

Fixpoint all_chars (P : ascii → bool) (s : string) : bool :=
  match s with
  | EmptyString => true
  | String a s' => P a && all_chars P s'
  end.

(** No surrogate that lacks its partner. *)
Fixpoint well_formed (s : text) : bool :=
  match s with
  | [] => true
  | c :: rest =>
      if is_low_surrogate c then false
      else if is_high_surrogate c then
        match rest with
        | d :: rest' => is_low_surrogate d && well_formed rest'
        | [] => false
        end
      else well_formed rest
  end.

Definition blank (s : text) : bool := forallb is_white_space s.

(** Code units from ASCII text, for the examples. *)
Definition units (s : string) : text :=
  N_of_ascii <$> String.list_ascii_of_string s.

End Search.

(** * Properties of the dashboard handlers *)

Module DashboardFacts.
Import Dashboard.
Local Open Scope nat_scope.
Local Open Scope js_scope.

(** ** The store only grows *)

Lemma prefix_cell (h h' : list cell) l c :
  h `prefix_of` h' → h !! l = Some c → h' !! l = Some c.
Proof. intros [k ->] H. by apply lookup_app_l_Some. Qed.

Lemma prefix_snoc (h : list cell) c : h `prefix_of` h ++ [c].
Proof. by exists [c]. Qed.

Lemma grows_refl w : grows w w.
Proof. by repeat split. Qed.

Lemma grows_trans w1 w2 w3 : grows w1 w2 → grows w2 w3 → grows w1 w3.
Proof.
  intros (?&?&?&?&?) (?&?&?&?&?). repeat split; try congruence.
  by etrans.
Qed.

Lemma lookup_prop_mono h h' v k x :
  h `prefix_of` h' → lookup_prop h v k = Some x → lookup_prop h' v k = Some x.
Proof.
  intros Hp. destruct v; simpl; try done.
  destruct (h !! l) as [c|] eqn:E; [|done].
  by rewrite (prefix_cell _ _ _ _ Hp E).
Qed.

Lemma as_array_mono h h' v es :
  h `prefix_of` h' → as_array h v = Some es → as_array h' v = Some es.
Proof.
  intros Hp. destruct v; simpl; try done.
  destruct (h !! l) as [c|] eqn:E; [|done].
  by rewrite (prefix_cell _ _ _ _ Hp E).
Qed.

Lemma is_object_mono h h' v :
  h `prefix_of` h' → is_object h v = true → is_object h' v = true.
Proof.
  intros Hp. destruct v; simpl; try done.
  destruct (h !! l) as [c|] eqn:E; [|done].
  by rewrite (prefix_cell _ _ _ _ Hp E).
Qed.

Lemma in_store_mono h h' v :
  h `prefix_of` h' → in_store h v = true → in_store h' v = true.
Proof.
  intros Hp. destruct v; simpl; try done.
  rewrite !bool_decide_eq_true. apply prefix_length in Hp. lia.
Qed.

Lemma own_props_mono h h' v :
  h `prefix_of` h' → in_store h v = true → own_props h' v = own_props h v.
Proof.
  intros Hp. destruct v; simpl; try done.
  rewrite bool_decide_eq_true. intros Hl.
  destruct (lookup_lt_is_Some_2 h l Hl) as [c E].
  by rewrite E, (prefix_cell _ _ _ _ Hp E).
Qed.

Lemma is_object_prop h p k :
  is_object h p = true → lookup_prop h p k = Some (prop_of h p k).
Proof.
  unfold prop_of. destruct p; simpl; try done.
  by destruct (h !! l) as [[]|].
Qed.

Lemma prop_of_mono h h' p k :
  h `prefix_of` h' → is_object h p = true → prop_of h' p k = prop_of h p k.
Proof.
  intros Hp Ho. unfold prop_of at 1.
  by rewrite (lookup_prop_mono _ _ _ _ _ Hp (is_object_prop _ _ k Ho)).
Qed.

Lemma forallb_is_object_mono h h' (l : list val) :
  h `prefix_of` h' → forallb (is_object h) l = true →
  forallb (is_object h') l = true.
Proof.
  intros Hp. rewrite !forallb_forall. intros H x Hx.
  eapply is_object_mono; eauto.
Qed.

(** ** Running the primitives *)

Lemma get_prop_object w p k :
  is_object (heap w) p = true →
  get_prop p k w = (Normal (prop_of (heap w) p k), w).
Proof. intros H. unfold get_prop. by rewrite (is_object_prop _ _ k H). Qed.

Lemma alloc_grows c w :
  grows w (snd (alloc c w)).
Proof. repeat split; simpl. apply prefix_snoc. Qed.

Lemma alloc_cell c w :
  heap (snd (alloc c w)) !! length (heap w) = Some c.
Proof. simpl. by rewrite lookup_app_r, Nat.sub_diag. Qed.

(** [map] with a callback that only allocates: the results satisfy any
    relation [G] the callback establishes, provided [G] survives later
    allocations. *)
Lemma map_cb_spec (f : val → M val) (G : val → val → list cell → Prop)
    (w0 : Dash) (l : list val) :
  (∀ x y h h', G x y h → h `prefix_of` h' → G x y h') →
  (∀ x w, x ∈ l → grows w0 w →
     ∃ y w', f x w = (Normal y, w') ∧ grows w w' ∧ G x y (heap w')) →
  ∀ w, grows w0 w →
    ∃ ys w', map_cb f l w = (Normal ys, w') ∧ grows w w' ∧
             Forall2 (λ x y, G x y (heap w')) l ys.
Proof.
  intros Hstable. induction l as [|x l IH]; intros Hf w Hw.
  - exists [], w. split; [done|]. split; [apply grows_refl | constructor].
  - destruct (Hf x w) as (y & w1 & Hfx & Hg1 & HG); [left | done |].
    destruct (IH (λ x' w' Hx', Hf x' w' (list_elem_of_further _ _ _ Hx')) w1)
      as (ys & w2 & Hrun & Hg2 & Hall); [by eapply grows_trans|].
    exists (y :: ys), w2. split; [|split].
    + simpl. unfold bind at 1. rewrite Hfx. unfold bind at 1. by rewrite Hrun.
    + by eapply grows_trans.
    + constructor; [|done]. eapply Hstable; [done|]. apply Hg2.
Qed.

(** [map] with a callback that hands every element back. *)
Lemma map_cb_id (f : val → M val) (l : list val) w :
  (∀ x, x ∈ l → f x w = (Normal x, w)) →
  map_cb f l w = (Normal l, w).
Proof.
  induction l as [|x l IH]; intros Hf; [done|].
  simpl. unfold bind at 1. rewrite (Hf x); [|left].
  unfold bind at 1. rewrite IH; [done|].
  intros y Hy. apply Hf. by right.
Qed.

(** [filter] with a callback that reads but does not write. *)
Lemma filter_cb_pure (p : val → M bool) (q : val → bool) (l : list val) w :
  (∀ x, x ∈ l → p x w = (Normal (q x), w)) →
  filter_cb p l w = (Normal (List.filter q l), w).
Proof.
  induction l as [|x l IH]; intros Hp; [done|].
  simpl. unfold bind at 1. rewrite (Hp x); [|left].
  unfold bind at 1. rewrite IH; [|intros y Hy; apply Hp; by right].
  done.
Qed.

Lemma view_posts_inv w ps :
  view_posts w = Some ps →
  as_array (heap w) (posts w) = Some ps ∧
  forallb (is_object (heap w)) ps = true.
Proof.
  unfold view_posts. destruct (as_array _ _) as [ps'|]; [|done].
  destruct (forallb _ _) eqn:E; [|done]. by intros [= ->].
Qed.

(** The state after [setPostsFn] stored a freshly built array. *)
Lemma view_posts_fresh w ys :
  forallb (is_object (heap w)) ys = true →
  view_posts (mkDash (heap w ++ [Arr ys]) (Ref (length (heap w)))
                     (loadingPosts w) (console w) (renderErrors w)) = Some ys.
Proof.
  intros H. unfold view_posts. simpl.
  rewrite lookup_app_r, Nat.sub_diag by done. simpl.
  by rewrite (forallb_is_object_mono _ _ _ (prefix_snoc _ _) H).
Qed.

(** ** [updatePosts] *)

Lemma results_are_objects (G : val → val → list cell → Prop) h l k :
  (∀ x y, G x y h → is_object h y = true) →
  Forall2 (λ x y, G x y h) l k →
  forallb (is_object h) k = true.
Proof.
  intros Hobj. induction 1 as [|x y l k HG _ IH]; [done|].
  simpl. by rewrite (Hobj _ _ HG), IH.
Qed.

Lemma updatePosts_spec (fn : val → M val)
    (G : val → val → list cell → Prop) w ps :
  view_posts w = Some ps →
  (∀ x y h h', G x y h → h `prefix_of` h' → G x y h') →
  (∀ x y h, G x y h → is_object h y = true) →
  (∀ x w1, x ∈ ps → grows w w1 →
     ∃ y w', fn x w1 = (Normal y, w') ∧ grows w1 w' ∧ G x y (heap w')) →
  ∃ w' ps',
    updatePosts fn w = (Normal (), w') ∧
    view_posts w' = Some ps' ∧
    heap w `prefix_of` heap w' ∧
    loadingPosts w' = loadingPosts w ∧ console w' = console w ∧
    Forall2 (λ x y, G x y (heap w')) ps ps'.
Proof.
  intros Hv Hstable Hobj Hfn.
  destruct (view_posts_inv _ _ Hv) as [Harr _].
  destruct (map_cb_spec fn G w ps Hstable Hfn w (grows_refl w))
    as (ys & w1 & Hrun & (Hpre & Hposts & Hload & Hcons & Herrs) & Hall).
  assert (Hys : forallb (is_object (heap w1)) ys = true).
  { eapply results_are_objects; eauto. }
  eexists _, ys. split; [|split; [|split; [|split; [|split]]]].
  - unfold updatePosts, setPostsFn, Array_map.
    unfold bind at 1. unfold array_elems. rewrite Harr. simpl.
    unfold bind at 1. rewrite Hrun. simpl. reflexivity.
  - apply view_posts_fresh, Hys.
  - simpl. etrans; [done|apply prefix_snoc].
  - done.
  - done.
  - simpl. eapply Forall2_impl; [done|]. intros x y HG. simpl in HG.
    eapply Hstable; [done|apply prefix_snoc].
Qed.

(** ** Update post *)

Lemma replacePost_step w postId up rc x w1 :
  is_object (heap w) x = true → grows w w1 →
  ∃ y w', replacePost postId up rc x w1 = (Normal y, w') ∧ grows w1 w' ∧
          replaced (heap w) postId up rc x y (heap w').
Proof.
  intros Hx Hg. pose proof Hg as (Hpre & _).
  pose proof (is_object_mono _ _ _ Hpre Hx) as Hx1.
  unfold replacePost, bind at 1. rewrite (get_prop_object _ _ _ Hx1).
  rewrite (prop_of_mono _ _ _ _ Hpre Hx). fold (post_id (heap w) x).
  unfold strict_eq. case_bool_decide as Hid.
  - eexists _, _. split; [reflexivity|]. split; [apply alloc_grows|].
    split; [|split].
    + simpl. by rewrite lookup_app_r, Nat.sub_diag.
    + done.
    + intros _. exists (length (heap w1)), (heap w1).
      split; [done|]. split; [done|]. apply alloc_cell.
  - exists x, w1. split; [done|]. split; [apply grows_refl|].
    split; [done|]. split; [done|]. done.
Qed.

Lemma replaced_stable h0 postId up rc x y h h' :
  replaced h0 postId up rc x y h → h `prefix_of` h' →
  replaced h0 postId up rc x y h'.
Proof.
  intros (Ho & Hne & Heq) Hp. split; [by eapply is_object_mono|].
  split; [done|]. intros E. destruct (Heq E) as (l & hx & -> & ? & Hc).
  exists l, hx. split; [done|]. split; [done|]. by eapply prefix_cell.
Qed.

Lemma handleUpdatePost_spec w ps postId up rc :
  view_posts w = Some ps →
  ∃ w' ps',
    handleUpdatePost postId (Fulfilled up) (Fulfilled rc) w = (Normal (), w') ∧
    view_posts w' = Some ps' ∧
    heap w `prefix_of` heap w' ∧
    loadingPosts w' = loadingPosts w ∧ console w' = console w ∧
    Forall2 (λ x y, replaced (heap w) postId up rc x y (heap w')) ps ps'.
Proof.
  intros Hv. unfold handleUpdatePost. simpl.
  apply (updatePosts_spec _ (replaced (heap w) postId up rc) w ps Hv).
  - intros. by eapply replaced_stable.
  - by intros x y h (? & _).
  - intros x w1 Hx Hg. apply replacePost_step; [|done].
    destruct (view_posts_inv _ _ Hv) as [_ Hall].
    rewrite forallb_forall in Hall. apply Hall. by apply list_elem_of_In.
Qed.

(** C1. Updating a post leaves every post with a different id in place
    as the very same object: the resulting sequence has the same length,
    holds the same reference at every position whose post has another
    id, and no cell that existed before is altered. *)
Theorem update_post_keeps_other_posts w ps postId up rc :
  view_posts w = Some ps →
  ∃ w' ps',
    handleUpdatePost postId (Fulfilled up) (Fulfilled rc) w = (Normal (), w') ∧
    view_posts w' = Some ps' ∧
    length ps' = length ps ∧
    (∀ i p, ps !! i = Some p → post_id (heap w) p ≠ postId →
            ∃ p', ps' !! i = Some p' ∧ strict_eq p' p = true) ∧
    (∀ l c, heap w !! l = Some c → heap w' !! l = Some c).
Proof.
  intros Hv.
  destruct (handleUpdatePost_spec w ps postId up rc Hv)
    as (w' & ps' & Hrun & Hv' & Hpre & _ & _ & Hall).
  exists w', ps'. split; [done|]. split; [done|].
  split; [symmetry; by eapply Forall2_length|]. split.
  - intros i p Hi Hne.
    destruct (Forall2_lookup_l _ _ _ _ _ Hall Hi) as (y & Hy & _ & Hsame & _).
    exists y. split; [done|].
    unfold strict_eq. apply bool_decide_eq_true. by apply Hsame.
  - intros l c. by apply prefix_cell.
Qed.

Lemma update_post_keeps_other_posts_witness :
  view_posts demo = Some [Ref 0; Ref 4] ∧
  ∃ w' ps',
    handleUpdatePost (Num 1) (Fulfilled (Ref 8)) (Fulfilled (Ref 9)) demo
      = (Normal (), w') ∧
    view_posts w' = Some ps' ∧
    length ps' = 2 ∧
    (∀ i p, [Ref 0; Ref 4] !! i = Some p → post_id (heap demo) p ≠ Num 1 →
            ∃ p', ps' !! i = Some p' ∧ strict_eq p' p = true) ∧
    (∀ l c, heap demo !! l = Some c → heap w' !! l = Some c).
Proof.
  split; [reflexivity|].
  apply (update_post_keeps_other_posts demo [Ref 0; Ref 4] (Num 1) (Ref 8) (Ref 9)).
  reflexivity.
Defined.

(** C3. Updating a post that is in the sequence puts, at that post's
    position, an object whose [comments] property is exactly the value
    the comments fetch resolved to (so it lists exactly the fetched
    sequence, whatever the post held before), while every post with
    another id stays the same object with the same [comments] value, and
    no existing cell, comment arrays included, is altered. *)
Theorem update_post_refreshes_comments w ps postId up rc i p :
  view_posts w = Some ps →
  ps !! i = Some p → post_id (heap w) p = postId →
  ∃ w' ps' p',
    handleUpdatePost postId (Fulfilled up) (Fulfilled rc) w = (Normal (), w') ∧
    view_posts w' = Some ps' ∧
    ps' !! i = Some p' ∧
    prop_of (heap w') p' "comments" = rc ∧
    (∀ cs, as_array (heap w) rc = Some cs →
           as_array (heap w') (prop_of (heap w') p' "comments") = Some cs) ∧
    (∀ j q, ps !! j = Some q → post_id (heap w) q ≠ postId →
            ps' !! j = Some q ∧
            prop_of (heap w') q "comments" = prop_of (heap w) q "comments") ∧
    (∀ l c, heap w !! l = Some c → heap w' !! l = Some c).
Proof.
  intros Hv Hi Hid.
  destruct (handleUpdatePost_spec w ps postId up rc Hv)
    as (w' & ps' & Hrun & Hv' & Hpre & _ & _ & Hall).
  destruct (Forall2_lookup_l _ _ _ _ _ Hall Hi) as (y & Hy & _ & _ & Hnew).
  destruct (Hnew Hid) as (l & hx & -> & _ & Hcell).
  assert (Hc : prop_of (heap w') (Ref l) "comments" = rc).
  { unfold prop_of. simpl. rewrite Hcell. by rewrite lookup_insert_eq. }
  exists w', ps', (Ref l). split; [done|]. split; [done|]. split; [done|].
  split; [done|]. split; [|split].
  - intros cs Hcs. rewrite Hc. by eapply as_array_mono.
  - intros j q Hj Hne.
    destruct (Forall2_lookup_l _ _ _ _ _ Hall Hj) as (z & Hz & _ & Hsame & _).
    rewrite (Hsame Hne) in Hz. split; [done|].
    apply prop_of_mono; [done|].
    destruct (view_posts_inv _ _ Hv) as [_ Hobj].
    rewrite forallb_forall in Hobj. apply Hobj.
    apply list_elem_of_In. by eapply list_elem_of_lookup_2.
  - intros l' c. by apply prefix_cell.
Qed.

Lemma update_post_refreshes_comments_witness :
  view_posts demo = Some [Ref 0; Ref 4] ∧
  post_id (heap demo) (Ref 0) = Num 1 ∧
  ∃ w' ps' p',
    handleUpdatePost (Num 1) (Fulfilled (Ref 8)) (Fulfilled (Ref 9)) demo
      = (Normal (), w') ∧
    view_posts w' = Some ps' ∧
    ps' !! 0 = Some p' ∧
    prop_of (heap w') p' "comments" = Ref 9 ∧
    (∀ cs, as_array (heap demo) (Ref 9) = Some cs →
           as_array (heap w') (prop_of (heap w') p' "comments") = Some cs) ∧
    (∀ j q, [Ref 0; Ref 4] !! j = Some q → post_id (heap demo) q ≠ Num 1 →
            ps' !! j = Some q ∧
            prop_of (heap w') q "comments" = prop_of (heap demo) q "comments") ∧
    (∀ l c, heap demo !! l = Some c → heap w' !! l = Some c).
Proof.
  split; [reflexivity|]. split; [reflexivity|].
  apply (update_post_refreshes_comments demo [Ref 0; Ref 4] (Num 1)
           (Ref 8) (Ref 9) 0 (Ref 0)); reflexivity.
Defined.

(** The object put in place of an updated post carries the properties of
    the patched post, with [comments] overwritten. *)
Lemma update_post_takes_patched_fields w ps postId up rc i p :
  view_posts w = Some ps → in_store (heap w) up = true →
  ps !! i = Some p → post_id (heap w) p = postId →
  ∃ w' ps' l,
    handleUpdatePost postId (Fulfilled up) (Fulfilled rc) w = (Normal (), w') ∧
    view_posts w' = Some ps' ∧
    ps' !! i = Some (Ref l) ∧
    heap w' !! l = Some (Obj (<["comments" := rc]> (own_props (heap w) up))).
Proof.
  intros Hv Hup Hi Hid.
  destruct (handleUpdatePost_spec w ps postId up rc Hv)
    as (w' & ps' & Hrun & Hv' & Hpre & _ & _ & Hall).
  destruct (Forall2_lookup_l _ _ _ _ _ Hall Hi) as (y & Hy & _ & _ & Hnew).
  destruct (Hnew Hid) as (l & hx & -> & Hhx & Hcell).
  exists w', ps', l. repeat split; try done.
  by rewrite <- (own_props_mono _ _ _ Hhx Hup).
Qed.

(** ** Delete comment *)

Section filtering.
Context {A : Type} (hit : A → bool).

Lemma filter_none_hit (l : list A) :
  length (List.filter hit l) = 0 →
  List.filter (λ x, negb (hit x)) l = l.
Proof.
  induction l as [|x l IH]; simpl; [done|].
  destruct (hit x); simpl; [done|]. intros H. by rewrite IH.
Qed.

Lemma filter_one_hit (l : list A) k c :
  l !! k = Some c → hit c = true →
  length (List.filter hit l) = 1 →
  List.filter (λ x, negb (hit x)) l = delete k l.
Proof.
  revert k. induction l as [|x l IH]; intros k Hk Hc; [done|].
  destruct k as [|k]; simpl in *.
  - injection Hk as ->. rewrite Hc. simpl. intros [= H].
    by apply filter_none_hit.
  - destruct (hit x) eqn:Hx; simpl; intros H.
    + injection H as H. apply List.length_zero_iff_nil in H.
      assert (Hin : In c (List.filter hit l)).
      { apply List.filter_In. split; [|done].
        apply list_elem_of_In. by eapply list_elem_of_lookup_2. }
      rewrite H in Hin. destruct Hin.
    + f_equal. by apply IH.
Qed.
End filtering.

Lemma sum_list_bounds {E : Type} (f : E → nat) (l : list E) i e :
  l !! i = Some e → f e ≤ sum_list (f <$> l).
Proof.
  revert i. induction l as [|x l IH]; intros [|i] Hi; csimpl in *; try done.
  - injection Hi as ->. lia.
  - specialize (IH i Hi). lia.
Qed.

Lemma single_occurrence {E : Type} (f : E → nat) (l : list E) i e :
  sum_list (f <$> l) = 1 → l !! i = Some e → 0 < f e →
  f e = 1 ∧ ∀ j e', j ≠ i → l !! j = Some e' → f e' = 0.
Proof.
  revert i. induction l as [|x l IH]; intros i Hsum Hi Hpos; [done|].
  csimpl in Hsum. destruct i as [|i]; simpl in Hi.
  - injection Hi as ->. split; [lia|].
    intros [|j] e' Hj He'; [done|]. simpl in He'.
    pose proof (sum_list_bounds f l j e' He'). lia.
  - pose proof (sum_list_bounds f l i e Hi) as Hle.
    destruct (IH i) as [H1 H0]; [lia|done|done|].
    split; [done|]. intros [|j] e' Hj He'; simpl in He'.
    + injection He' as ->. lia.
    + apply (H0 j); [congruence|done].
Qed.

Lemma post_comments_inv h p cs :
  post_comments h p = Some cs →
  as_array h (prop_of h p "comments") = Some cs ∧
  forallb (is_object h) cs = true.
Proof.
  unfold post_comments. destruct (as_array _ _) as [cs'|]; [|done].
  destruct (forallb _ _) eqn:E; [|done]. by intros [= ->].
Qed.

Lemma post_comments_mono h h' p cs :
  h `prefix_of` h' → is_object h p = true →
  post_comments h p = Some cs → post_comments h' p = Some cs.
Proof.
  intros Hp Ho Hc. destruct (post_comments_inv _ _ _ Hc) as [Ha Hf].
  unfold post_comments. rewrite (prop_of_mono _ _ _ _ Hp Ho).
  rewrite (as_array_mono _ _ _ _ Hp Ha).
  by rewrite (forallb_is_object_mono _ _ _ Hp Hf).
Qed.

Lemma Array_filter_run (cb : val → M bool) (q : val → bool) cv cs w :
  as_array (heap w) cv = Some cs →
  (∀ c, c ∈ cs → cb c w = (Normal (q c), w)) →
  Array_filter cb cv w =
    (Normal (Ref (length (heap w))),
     mkDash (heap w ++ [Arr (List.filter q cs)]) (posts w)
            (loadingPosts w) (console w) (renderErrors w)).
Proof.
  intros Ha Hcb. unfold Array_filter, bind at 1, array_elems.
  rewrite Ha. simpl. unfold bind at 1.
  by rewrite (filter_cb_pure _ _ _ _ Hcb).
Qed.

Lemma forallb_filter_sub {A} (P q : A → bool) (l : list A) :
  forallb P l = true → forallb P (List.filter q l) = true.
Proof.
  rewrite !forallb_forall. intros H x Hx.
  apply H. by apply List.filter_In in Hx as [? _].
Qed.

Lemma removeComment_step w postId commentId x cs w1 :
  is_object (heap w) x = true → post_comments (heap w) x = Some cs →
  grows w w1 →
  ∃ y w', removeComment postId commentId x w1 = (Normal y, w') ∧
          grows w1 w' ∧ pruned (heap w) postId commentId x y (heap w').
Proof.
  intros Hx Hcs Hg. pose proof Hg as (Hpre & _).
  pose proof (is_object_mono _ _ _ Hpre Hx) as Hx1.
  destruct (post_comments_inv _ _ _ Hcs) as [Harr Hobjs].
  unfold removeComment, bind at 1. rewrite (get_prop_object _ _ _ Hx1).
  rewrite (prop_of_mono _ _ _ _ Hpre Hx). fold (post_id (heap w) x).
  unfold strict_eq. case_bool_decide as Hid.
  - unfold bind at 1, spread_props. unfold bind at 1.
    rewrite (get_prop_object _ _ _ Hx1).
    rewrite (prop_of_mono _ _ _ _ Hpre Hx).
    unfold bind at 1.
    rewrite (Array_filter_run _ (keeps (heap w) commentId) _ cs).
    2:{ by eapply as_array_mono. }
    2:{ intros c Hc. unfold bind at 1.
        assert (Hco : is_object (heap w) c = true).
        { rewrite forallb_forall in Hobjs. apply Hobjs. by apply list_elem_of_In. }
        rewrite (get_prop_object _ _ _ (is_object_mono _ _ _ Hpre Hco)).
        by rewrite (prop_of_mono _ _ _ _ Hpre Hco). }
    eexists _, _. split; [reflexivity|]. split; [|split; [|split]].
    + repeat split; simpl. rewrite <- app_assoc. by eexists.
    + simpl. rewrite length_app. simpl.
      rewrite lookup_app_r; rewrite length_app; simpl; [|lia].
      by replace (_ - _) with 0 by lia.
    + done.
    + intros cs0 Hcs0. assert (cs0 = cs) as -> by congruence.
      unfold strict_eq. rewrite bool_decide_eq_true_2 by done.
      unfold post_comments, prop_of. simpl.
      rewrite length_app. simpl.
      rewrite lookup_app_r; rewrite length_app; simpl; [|lia].
      replace (_ - _) with 0 by lia. simpl. rewrite lookup_insert_eq. simpl.
      rewrite lookup_app_l; [|rewrite length_app; simpl; lia].
      rewrite lookup_app_r, Nat.sub_diag by done. simpl.
      rewrite (forallb_is_object_mono (heap w)).
      * done.
      * etrans; [exact Hpre|]. rewrite <- app_assoc. by eexists.
      * by apply forallb_filter_sub.
  - exists x, w1. split; [done|]. split; [apply grows_refl|].
    split; [done|]. split; [done|].
    intros cs0 Hcs0. unfold strict_eq. rewrite bool_decide_eq_false_2 by done.
    by eapply post_comments_mono.
Qed.

Lemma pruned_stable h0 postId commentId x y h h' :
  pruned h0 postId commentId x y h → h `prefix_of` h' →
  pruned h0 postId commentId x y h'.
Proof.
  intros (Ho & Hne & Hcs) Hp. split; [by eapply is_object_mono|].
  split; [done|]. intros cs E. eapply post_comments_mono; eauto.
Qed.

Lemma feed_of_inv h ps feed :
  feed_of h ps = Some feed →
  Forall2 (λ p e, e.1 = p ∧ post_comments h p = Some e.2) ps feed.
Proof.
  revert feed. induction ps as [|p ps IH]; simpl; intros feed.
  - intros [= <-]. constructor.
  - destruct (post_comments h p) as [cs|] eqn:E; [|done].
    destruct (feed_of h ps) as [rest|]; [|done].
    intros [= <-]. constructor; [done|]. by apply IH.
Qed.

Lemma feed_of_intro h ps feed :
  Forall2 (λ p e, e.1 = p ∧ post_comments h p = Some e.2) ps feed →
  feed_of h ps = Some feed.
Proof.
  induction 1 as [|p [q cs] ps feed [Hq Hc] _ IH]; [done|].
  simpl in *. subst q. by rewrite Hc, IH.
Qed.

Lemma feed_after_pruning h0 postId commentId h ps ps' feed :
  feed_of h0 ps = Some feed →
  Forall2 (λ x y, pruned h0 postId commentId x y h) ps ps' →
  ∃ feed',
    feed_of h ps' = Some feed' ∧
    Forall2 (λ e e',
               (post_id h0 e.1 ≠ postId → e'.1 = e.1) ∧
               e'.2 = if strict_eq (post_id h0 e.1) postId
                      then List.filter (keeps h0 commentId) e.2 else e.2)
            feed feed'.
Proof.
  intros Hfeed%feed_of_inv Hall. revert ps' Hall.
  induction Hfeed as [|p [q cs] ps feed [Hq Hc] _ IH]; intros ps' Hall.
  - apply Forall2_nil_inv_l in Hall as ->. exists []. split; [done|constructor].
  - apply Forall2_cons_inv_l in Hall as (y & ys & (Ho & Hne & Hcs) & Hall & ->).
    destruct (IH ys Hall) as (feed' & Hf' & HR). simpl in *. subst q.
    eexists ((y, _) :: feed'). split.
    + simpl. by rewrite (Hcs cs Hc), Hf'.
    + constructor; [|done]. simpl. split; [done|done].
Qed.

Lemma handleDeleteComment_spec w ps feed postId commentId d :
  view_posts w = Some ps → feed_of (heap w) ps = Some feed →
  ∃ w' ps',
    handleDeleteComment postId commentId (Fulfilled d) w = (Normal (), w') ∧
    view_posts w' = Some ps' ∧
    heap w `prefix_of` heap w' ∧
    Forall2 (λ x y, pruned (heap w) postId commentId x y (heap w')) ps ps'.
Proof.
  intros Hv Hfeed. unfold handleDeleteComment. simpl.
  destruct (updatePosts_spec (removeComment postId commentId)
              (pruned (heap w) postId commentId) w ps Hv)
    as (w' & ps' & Hrun & Hv' & Hpre & _ & _ & Hall).
  - intros. by eapply pruned_stable.
  - by intros x y h (? & _).
  - intros x w1 Hx Hg.
    destruct (view_posts_inv _ _ Hv) as [_ Hobj].
    rewrite forallb_forall in Hobj.
    apply list_elem_of_lookup_1 in Hx as [i Hi].
    destruct (Forall2_lookup_l _ _ _ _ _ (feed_of_inv _ _ _ Hfeed) Hi)
      as ([q cs] & _ & _ & Hc).
    eapply removeComment_step; [|exact Hc|done].
    apply Hobj, list_elem_of_In. by eapply list_elem_of_lookup_2.
  - by exists w', ps'.
Qed.

(** C4. When the comment id occurs exactly once in the whole tree, at
    position [k] of the comments of the post at position [i], and that
    post has the given post id, deleting the comment leaves a tree of the
    same length in which post [i] lists its old comments without the
    [k]-th one (same objects, same order) and every other post lists
    exactly the comments it listed before. *)
Theorem delete_comment_removes_exactly_one
    w feed postId commentId i p cs k c d :
  view_feed w = Some feed →
  occurrences (heap w) commentId feed = 1 →
  feed !! i = Some (p, cs) → post_id (heap w) p = postId →
  cs !! k = Some c → comment_id (heap w) c = commentId →
  ∃ w' feed' p',
    handleDeleteComment postId commentId (Fulfilled d) w = (Normal (), w') ∧
    view_feed w' = Some feed' ∧
    length feed' = length feed ∧
    feed' !! i = Some (p', delete k cs) ∧
    (∀ j q csj, j ≠ i → feed !! j = Some (q, csj) →
                ∃ q', feed' !! j = Some (q', csj)).
Proof.
  intros Hview Hocc Hi Hpid Hk Hcid.
  unfold view_feed in Hview.
  destruct (view_posts w) as [ps|] eqn:Hv; [|done].
  destruct (handleDeleteComment_spec w ps feed postId commentId d Hv Hview)
    as (w' & ps' & Hrun & Hv' & Hpre & Hall).
  destruct (feed_after_pruning _ _ _ _ _ _ _ Hview Hall) as (feed' & Hf' & HR).
  set (hit := has_comment_id (heap w) commentId).
  assert (Hhit : hit c = true).
  { unfold hit, has_comment_id, strict_eq. by apply bool_decide_eq_true. }
  destruct (single_occurrence (λ e, length (List.filter hit e.2)) feed i (p, cs))
    as [Hone Hzero]; [done|done| |].
  { simpl. assert (Hin : In c (List.filter hit cs)).
    { apply List.filter_In. split; [|done].
      apply list_elem_of_In. by eapply list_elem_of_lookup_2. }
    destruct (List.filter hit cs); [destruct Hin | simpl; lia]. }
  destruct (Forall2_lookup_l _ _ _ _ _ HR Hi) as ([p' cs'] & Hi' & _ & Hcs').
  simpl in Hcs', Hone.
  exists w', feed', p'. split; [done|]. split; [|split; [|split]].
  - unfold view_feed. by rewrite Hv'.
  - symmetry. by eapply Forall2_length.
  - rewrite Hi', Hcs'. unfold strict_eq.
    rewrite (bool_decide_eq_true_2 _ Hpid).
    by rewrite <- (filter_one_hit hit cs k c).
  - intros j q csj Hne Hj.
    destruct (Forall2_lookup_l _ _ _ _ _ HR Hj) as ([q' csj'] & Hj' & _ & Hcsj').
    simpl in Hcsj'. exists q'. rewrite Hj', Hcsj'.
    destruct (strict_eq (post_id (heap w) q) postId); [|reflexivity].
    rewrite (filter_none_hit hit); [reflexivity|]. by apply (Hzero j (q, csj)).
Qed.

Lemma delete_comment_removes_exactly_one_witness :
  view_feed demo = Some [(Ref 0, [Ref 2; Ref 3]); (Ref 4, [Ref 6])] ∧
  occurrences (heap demo) (Num 11)
    [(Ref 0, [Ref 2; Ref 3]); (Ref 4, [Ref 6])] = 1 ∧
  ∃ w' feed' p',
    handleDeleteComment (Num 1) (Num 11) (Fulfilled Undefined) demo
      = (Normal (), w') ∧
    view_feed w' = Some feed' ∧
    length feed' = 2 ∧
    feed' !! 0 = Some (p', [Ref 2]) ∧
    (∀ j q csj, j ≠ 0 →
                [(Ref 0, [Ref 2; Ref 3]); (Ref 4, [Ref 6])] !! j = Some (q, csj) →
                ∃ q', feed' !! j = Some (q', csj)).
Proof.
  split; [reflexivity|]. split; [reflexivity|].
  apply (delete_comment_removes_exactly_one demo
           [(Ref 0, [Ref 2; Ref 3]); (Ref 4, [Ref 6])]
           (Num 1) (Num 11) 0 (Ref 0) [Ref 2; Ref 3] 1 (Ref 3) Undefined);
    reflexivity.
Defined.

(** ** Create post and delete post *)

Lemma handlePostSubmit_run w ps sp :
  view_posts w = Some ps → is_object (heap w) sp = true →
  ∃ w', handlePostSubmit (Fulfilled sp) w = (Normal (), w') ∧
        heap w `prefix_of` heap w' ∧
        view_posts w' = Some (sp :: ps).
Proof.
  intros Hv Hsp. destruct (view_posts_inv _ _ Hv) as [Harr Hobj].
  eexists. split; [|split].
  - unfold handlePostSubmit, try_catch. simpl.
    unfold bind at 1. simpl. unfold setPostsFn, prependPost.
    unfold bind at 1, spread_elems.
    assert (Hit : iter_elems (heap w) (posts w) = Some ps).
    { revert Harr. unfold as_array, iter_elems. by destruct (posts w). }
    rewrite Hit. simpl. reflexivity.
  - simpl. apply prefix_snoc.
  - apply (view_posts_fresh w (sp :: ps)). simpl. by rewrite Hsp, Hobj.
Qed.

Lemma handleDeletePost_run w ps postId d :
  view_posts w = Some ps →
  ∃ w', handleDeletePost postId (Fulfilled d) w = (Normal (), w') ∧
        heap w `prefix_of` heap w' ∧
        view_posts w' =
          Some (List.filter (λ p, negb (strict_eq (post_id (heap w) p) postId)) ps).
Proof.
  intros Hv. destruct (view_posts_inv _ _ Hv) as [Harr Hobj].
  eexists. split; [|split].
  - unfold handleDeletePost. simpl. unfold bind at 1. simpl.
    unfold setPostsFn, removePost.
    rewrite (Array_filter_run _
               (λ p, negb (strict_eq (post_id (heap w) p) postId)) _ ps w Harr).
    + reflexivity.
    + intros p Hp. unfold bind at 1. rewrite get_prop_object; [done|].
      rewrite forallb_forall in Hobj. apply Hobj. by apply list_elem_of_In.
  - simpl. apply prefix_snoc.
  - apply (view_posts_fresh w). by apply forallb_filter_sub.
Qed.

Lemma filter_ext_in {A} (f g : A → bool) (l : list A) :
  (∀ x, x ∈ l → f x = g x) → List.filter f l = List.filter g l.
Proof.
  intros H. apply List.filter_ext_in. intros x Hx. apply H.
  by apply list_elem_of_In.
Qed.

Lemma filter_twice {A} (f g : A → bool) (l : list A) :
  List.filter g (List.filter f l) = List.filter (λ x, negb (negb (f x) || negb (g x))) l.
Proof.
  induction l as [|x l IH]; [done|]. simpl.
  destruct (f x) eqn:Hf; simpl; [|done].
  destruct (g x); simpl; by rewrite IH.
Qed.

Lemma remaining_nil h ps : remaining h [] ps = ps.
Proof.
  unfold remaining. induction ps as [|p ps IH]; [done|]. cbn. f_equal. exact IH.
Qed.

Lemma run_ops_spec h0 ops :
  ∀ w ps,
    h0 `prefix_of` heap w → view_posts w = Some ps →
    forallb (is_object h0) ps = true →
    forallb (is_object h0) (created ops) = true →
    ∃ w', run_ops ops w = (Normal (), w') ∧ h0 `prefix_of` heap w' ∧
          view_posts w' = Some (survivors h0 ops ++ remaining h0 ops ps).
Proof.
  induction ops as [|[sp|postId d] ops IH]; intros w ps Hpre Hv Hps Hcr.
  - exists w. split; [done|]. split; [done|]. by rewrite remaining_nil.
  - simpl in Hcr. apply andb_true_iff in Hcr as [Hsp Hcr].
    destruct (handlePostSubmit_run w ps sp Hv (is_object_mono _ _ _ Hpre Hsp))
      as (w1 & Hrun1 & Hpre1 & Hv1).
    destruct (IH w1 (sp :: ps)) as (w' & Hrun & Hpre' & Hv'); try done.
    { by etrans. }
    { simpl. by rewrite Hsp, Hps. }
    exists w'. split; [|split; [done|]].
    + simpl. unfold bind at 1. fold (handlePostSubmit (Fulfilled sp)).
      by rewrite Hrun1.
    + rewrite Hv'. f_equal. simpl. rewrite <- app_assoc. f_equal.
      unfold remaining. simpl. by destruct (deleted_by h0 ops sp).
  - simpl in Hcr.
    destruct (handleDeletePost_run w ps postId d Hv) as (w1 & Hrun1 & Hpre1 & Hv1).
    set (keep := λ p, negb (strict_eq (post_id h0 p) postId)).
    assert (Hsame : List.filter (λ p, negb (strict_eq (post_id (heap w) p) postId)) ps
                    = List.filter keep ps).
    { apply filter_ext_in. intros p Hp. unfold keep, post_id.
      rewrite (prop_of_mono h0); [done|done|].
      rewrite forallb_forall in Hps. apply Hps. by apply list_elem_of_In. }
    rewrite Hsame in Hv1.
    destruct (IH w1 (List.filter keep ps)) as (w' & Hrun & Hpre' & Hv'); try done.
    { by etrans. }
    { by apply forallb_filter_sub. }
    exists w'. split; [|split; [done|]].
    + simpl. unfold bind at 1. fold (handleDeletePost postId (Fulfilled d)).
      by rewrite Hrun1.
    + rewrite Hv'. f_equal. simpl. f_equal.
      unfold remaining. rewrite filter_twice.
      apply filter_ext_in. intros p _. unfold keep. simpl.
      by rewrite !negb_involutive.
Qed.

Lemma survivors_sublist h ops :
  survivors h ops `sublist_of` reverse (created ops).
Proof.
  induction ops as [|[sp|postId d] ops IH]; simpl; [done| |done].
  rewrite reverse_cons. apply sublist_app; [done|]. destruct (deleted_by h ops sp); [|done].
  apply sublist_nil_l.
Qed.

Lemma remaining_sublist h ops ps : remaining h ops ps `sublist_of` ps.
Proof.
  unfold remaining. induction ps as [|p ps IH]; simpl; [done|].
  destruct (negb _); [by apply sublist_skip | by apply sublist_cons].
Qed.

(** C2 (amended). Over initial posts with pairwise distinct ids, and
    with every created post carrying an id no other post carries, a run
    of creates and deletes ends with exactly the created posts that no
    later delete names (newest first) followed by the initial posts that
    no delete names: the length is the number of initial posts not
    deleted plus the number of creates not followed by a delete of the
    same id, and no id occurs twice. *)
Theorem create_delete_run_keeps_survivors w ps0 ops :
  view_posts w = Some ps0 →
  forallb (is_object (heap w)) (created ops) = true →
  NoDup (post_id (heap w) <$> (created ops ++ ps0)) →
  ∃ w' ps',
    run_ops ops w = (Normal (), w') ∧
    view_posts w' = Some ps' ∧
    ps' = survivors (heap w) ops ++ remaining (heap w) ops ps0 ∧
    length ps' = length (remaining (heap w) ops ps0)
                 + length (survivors (heap w) ops) ∧
    NoDup (post_id (heap w') <$> ps').
Proof.
  intros Hv Hcr Hnd. destruct (view_posts_inv _ _ Hv) as [_ Hobj].
  destruct (run_ops_spec (heap w) ops w ps0) as (w' & Hrun & Hpre & Hv');
    try done.
  exists w', (survivors (heap w) ops ++ remaining (heap w) ops ps0).
  split; [done|]. split; [done|]. split; [done|].
  split; [rewrite length_app; lia|].
  assert (Hsub : survivors (heap w) ops ++ remaining (heap w) ops ps0
                 `sublist_of` reverse (created ops) ++ ps0).
  { apply sublist_app; [apply survivors_sublist | apply remaining_sublist]. }
  assert (Hids : post_id (heap w') <$> (reverse (created ops) ++ ps0)
                 = post_id (heap w) <$> (reverse (created ops) ++ ps0)).
  { apply list_fmap_ext. intros i x Hx. unfold post_id.
    apply prop_of_mono; [done|].
    apply list_elem_of_lookup_2, elem_of_app in Hx as [Hx|Hx].
    - rewrite forallb_forall in Hcr. apply Hcr, list_elem_of_In.
      by apply elem_of_reverse.
    - rewrite forallb_forall in Hobj. by apply Hobj, list_elem_of_In. }
  eapply sublist_NoDup; [|exact (fmap_sublist (post_id (heap w')) _ _ Hsub)].
  rewrite Hids. by rewrite reverse_Permutation.
Qed.

Lemma create_delete_run_keeps_survivors_witness :
  view_posts demo = Some [Ref 0; Ref 4] ∧
  ∃ w' ps',
    run_ops [Create (Ref 11); Delete (Num 1) Undefined] demo = (Normal (), w') ∧
    view_posts w' = Some ps' ∧
    ps' = [Ref 11] ++ [Ref 4] ∧
    length ps' = 1 + 1 ∧
    NoDup (post_id (heap w') <$> ps').
Proof.
  split; [reflexivity|].
  apply (create_delete_run_keeps_survivors demo [Ref 0; Ref 4]
           [Create (Ref 11); Delete (Num 1) Undefined]).
  - reflexivity.
  - reflexivity.
  - apply (bool_decide_unpack _). vm_compute. exact I.
Defined.

(** C2 as first stated counts every initial post, deleted or not: it
    fails as soon as a delete names an initial post. Here the feed holds
    posts 1 and 2 and post 1 is deleted: one post is left, not two. *)
Lemma delete_of_initial_post_shortens_feed :
  ¬ (∀ w ps0 ops w' ps',
       view_posts w = Some ps0 →
       forallb (is_object (heap w)) (created ops) = true →
       NoDup (post_id (heap w) <$> (created ops ++ ps0)) →
       run_ops ops w = (Normal (), w') →
       view_posts w' = Some ps' →
       length ps' = length ps0 + length (survivors (heap w) ops)).
Proof.
  intros H.
  specialize (H demo [Ref 0; Ref 4] [Delete (Num 1) Undefined]
                (snd (run_ops [Delete (Num 1) Undefined] demo)) [Ref 4]).
  assert (Hnd : NoDup (post_id (heap demo) <$>
                  (created [Delete (Num 1) Undefined] ++ [Ref 0; Ref 4]))).
  { apply (bool_decide_unpack _). vm_compute. exact I. }
  specialize (H eq_refl eq_refl Hnd eq_refl eq_refl).
  discriminate H.
Qed.

(** ** A post id that matches nothing *)

Lemma callback_skips w postId x (m : per_post) :
  is_object (heap w) x = true → post_id (heap w) x ≠ postId →
  per_post_callback postId m x w = (Normal x, w).
Proof.
  intros Hx Hne.
  destruct m; simpl;
    unfold replacePost, appendComment, removeComment, replaceComment;
    unfold bind at 1; rewrite (get_prop_object _ _ _ Hx);
    fold (post_id (heap w) x); unfold strict_eq;
    by rewrite bool_decide_eq_false_2.
Qed.

Lemma updatePosts_skips w ps (fn : val → M val) :
  view_posts w = Some ps →
  (∀ x, x ∈ ps → fn x w = (Normal x, w)) →
  updatePosts fn w =
    (Normal (), mkDash (heap w ++ [Arr ps]) (Ref (length (heap w)))
                       (loadingPosts w) (console w) (renderErrors w)).
Proof.
  intros Hv Hfn. destruct (view_posts_inv _ _ Hv) as [Harr _].
  unfold updatePosts, setPostsFn, Array_map.
  unfold bind at 1. unfold array_elems. rewrite Harr. simpl.
  unfold bind at 1. by rewrite (map_cb_id _ _ _ Hfn).
Qed.

Lemma strict_eq_refl_list (ps : list val) :
  Forall2 (λ p p', strict_eq p' p = true) ps ps.
Proof.
  apply Forall2_same_length_lookup_2; [done|].
  intros i x y ? ?. simplify_eq. unfold strict_eq. by apply bool_decide_eq_true.
Qed.

(** C10. When no post of the sequence has the given id, each of the four
    per-post mutations (update post, create comment, delete comment,
    update comment) completes and leaves a sequence whose elements are,
    position by position, the same objects as before; no existing cell
    changes. *)
Theorem unmatched_post_id_keeps_every_post w ps postId (m : per_post) :
  view_posts w = Some ps →
  Forall (λ p, post_id (heap w) p ≠ postId) ps →
  ∃ w' ps',
    run_per_post postId m w = (Normal (), w') ∧
    view_posts w' = Some ps' ∧
    Forall2 (λ p p', strict_eq p' p = true) ps ps' ∧
    (∀ l c, heap w !! l = Some c → heap w' !! l = Some c).
Proof.
  intros Hv Hne. rewrite Forall_forall in Hne.
  pose proof (view_posts_inv _ _ Hv) as [_ Hobj].
  rewrite forallb_forall in Hobj.
  assert (Hrun : updatePosts (per_post_callback postId m) w =
            (Normal (), mkDash (heap w ++ [Arr ps]) (Ref (length (heap w)))
                               (loadingPosts w) (console w) (renderErrors w))).
  { apply updatePosts_skips; [done|]. intros x Hx.
    apply callback_skips; [|by apply Hne].
    apply Hobj. by apply list_elem_of_In. }
  eexists _, ps. split; [|split; [|split]].
  - destruct m; exact Hrun.
  - apply view_posts_fresh. by apply forallb_forall.
  - apply strict_eq_refl_list.
  - intros l c Hl. simpl. by apply lookup_app_l_Some.
Qed.

Lemma unmatched_post_id_keeps_every_post_witness :
  view_posts demo = Some [Ref 0; Ref 4] ∧
  ∃ w' ps',
    run_per_post (Num 99) (DeleteComment (Num 11) Undefined) demo
      = (Normal (), w') ∧
    view_posts w' = Some ps' ∧
    Forall2 (λ p p', strict_eq p' p = true) [Ref 0; Ref 4] ps' ∧
    (∀ l c, heap demo !! l = Some c → heap w' !! l = Some c).
Proof.
  split; [reflexivity|].
  apply (unmatched_post_id_keeps_every_post demo [Ref 0; Ref 4] (Num 99)
           (DeleteComment (Num 11) Undefined)).
  - reflexivity.
  - apply (bool_decide_unpack _). vm_compute. exact I.
Defined.

(** ** Failing server calls *)

(** C5 (amended). When a server call of a mutation handler fails, the
    store, the posts state and the loading flag are exactly what they
    were. The handlers for delete post, update post and the three comment
    mutations let the rejection through to the caller; the create-post
    handler has its own [catch]: it logs the reason and completes. *)
Theorem failed_call_leaves_state_untouched m e w :
  failure m = Some e →
  ∃ w',
    handle m w =
      (if is_create_post m then Normal () else Throw (Reason e), w') ∧
    heap w' = heap w ∧ posts w' = posts w ∧
    loadingPosts w' = loadingPosts w ∧
    console w' = if is_create_post m then console w ++ [Reason e]
                 else console w.
Proof.
  destruct w as [h ps lp cs re].
  destruct m as [r|? r|? r1 r2|? r|? ? r|? ? r]; simpl;
    try (destruct r as [v|e']; simpl; intros [= ->];
         eexists; split; [reflexivity|]; by repeat split).
  destruct r1 as [v|e']; simpl.
  - destruct r2 as [v2|e2]; simpl; intros [= ->].
    eexists; split; [reflexivity|]; by repeat split.
  - intros [= ->]. eexists; split; [reflexivity|]; by repeat split.
Qed.

Lemma failed_call_leaves_state_untouched_witness :
  failure (UpdatePostM (Num 1) (Fulfilled (Ref 8)) (Rejected (Str "offline")))
    = Some (Str "offline") ∧
  ∃ w',
    handleUpdatePost (Num 1) (Fulfilled (Ref 8)) (Rejected (Str "offline")) demo
      = (Throw (Reason (Str "offline")), w') ∧
    heap w' = heap demo ∧ posts w' = posts demo ∧
    loadingPosts w' = loadingPosts demo ∧
    console w' = console demo.
Proof.
  split; [reflexivity|].
  apply (failed_call_leaves_state_untouched
           (UpdatePostM (Num 1) (Fulfilled (Ref 8)) (Rejected (Str "offline")))
           (Str "offline") demo).
  reflexivity.
Defined.

(** C5 as first stated has every handler pass the rejection on;
    [handlePostSubmit] catches it. *)
Lemma create_post_failure_is_caught :
  ¬ (∀ m e w, failure m = Some e →
              ∃ w', handle m w = (Throw (Reason e), w') ∧ posts w' = posts w).
Proof.
  intros H.
  destruct (H (CreatePostM (Rejected (Str "offline"))) (Str "offline") demo eq_refl)
    as (w' & Hrun & _).
  discriminate Hrun.
Qed.

(** ** Initial load *)

(** C6. On a freshly mounted component: when the posts fetch resolves to
    an array, the posts state lists that array's elements in reverse
    order; when the fetch is rejected, the posts state is still the empty
    sequence; either way [loadingPosts] ends up [false] and the effect
    itself completes normally. *)
Theorem initial_load_reverses_or_stays_empty h :
  (∀ l es, h !! l = Some (Arr es) →
     ∃ w', fetchPosts (Fulfilled (Ref l)) (mount h) = (Normal (), w') ∧
           as_array (heap w') (posts w') = Some (rev es) ∧
           loadingPosts w' = false) ∧
  (∀ e,
     ∃ w', fetchPosts (Rejected e) (mount h) = (Normal (), w') ∧
           as_array (heap w') (posts w') = Some [] ∧
           loadingPosts w' = false).
Proof.
  split.
  - intros l es Hl.
    assert (Hl' : (h ++ [Arr []]) !! l = Some (Arr es))
      by by apply lookup_app_l_Some.
    eexists. split; [|split].
    + unfold fetchPosts, try_finally, try_catch, mount. simpl.
      unfold bind at 1. simpl. unfold bind at 1, Array_reverse. simpl.
      rewrite Hl'. simpl. reflexivity.
    + simpl. rewrite list_lookup_insert_eq; [done|].
      by eapply lookup_lt_Some.
    + done.
  - intros e. eexists. split; [reflexivity|]. split; [|done].
    simpl. by rewrite lookup_app_r, Nat.sub_diag.
Qed.

Lemma initial_load_reverses_or_stays_empty_witness :
  demo_store !! 7 = Some (Arr [Ref 0; Ref 4]) ∧
  ∃ w', fetchPosts (Fulfilled (Ref 7)) (mount demo_store) = (Normal (), w') ∧
        as_array (heap w') (posts w') = Some [Ref 4; Ref 0] ∧
        loadingPosts w' = false.
Proof.
  split; [reflexivity|].
  apply (proj1 (initial_load_reverses_or_stays_empty demo_store) 7 [Ref 0; Ref 4]).
  reflexivity.
Defined.

(** ** The handlers at work on the small feed *)

Example fetch_posts_not_an_array :
  fetchPosts (Fulfilled Undefined) (mount [])
  = (Normal (), mkDash [Arr []] (Ref 0) false [TypeError] []).
Proof. reflexivity. Qed.

Example comment_post_appends :
  view_feed (handleCommentPost (Num 2) (Fulfilled (Ref 13)) demo).2
  = Some [(Ref 0, [Ref 2; Ref 3]); (Ref 15, [Ref 6; Ref 13])].
Proof. reflexivity. Qed.

Example update_comment_in_place :
  view_feed (handleUpdateComment (Num 1) (Num 10) (Fulfilled (Ref 10)) demo).2
  = Some [(Ref 15, [Ref 10; Ref 3]); (Ref 4, [Ref 6])].
Proof. reflexivity. Qed.

Example create_then_delete_the_new_post :
  view_posts (run_ops [Create (Ref 11); Delete (Num 3) Undefined] demo).2
  = Some [Ref 0; Ref 4].
Proof. reflexivity. Qed.

Example update_post_drops_local_comments :
  view_feed (handleUpdatePost (Num 1) (Fulfilled (Ref 8)) (Fulfilled (Ref 9)) demo).2
  = Some [(Ref 14, [Ref 10]); (Ref 4, [Ref 6])].
Proof. reflexivity. Qed.

End DashboardFacts.

(** * Properties of the API client *)

Module ApiClientFacts.
Import ApiClient.

Section facts.
Context {S : Type}.
Variable API_URL : string.
Variable JSON_stringify : json → json.
Variable fetch : string → RequestInit → S → result Response * S.

#[local] Abbreviation request := (ApiClient.request API_URL JSON_stringify fetch).
#[local] Abbreviation call := (ApiClient.call API_URL JSON_stringify fetch).
#[local] Abbreviation patchProfile := (ApiClient.patchProfile API_URL JSON_stringify fetch).
#[local] Abbreviation expected_init := (ApiClient.expected_init JSON_stringify).

Lemma to_string_token (w : World S) :
  "Bearer " +:+ to_string (match localStorage w !! "token" with
                           | Some v => JStr v
                           | None => JNull
                           end) = bearer w.
Proof. unfold bearer. by destruct (localStorage w !! "token"). Qed.

(** One run of [request], whatever [fetch] answers. *)
Lemma request_run method endpoint data auth gfr (w : World S) :
  request method endpoint data auth gfr w =
    let url := API_URL +:+ "/" +:+ endpoint in
    let init := expected_init method data auth w in
    match fetch url init (server w) with
    | (Resolved r, s') =>
        (if gfr then Resolved (Raw r)
         else match json_body r with
              | Resolved j => Resolved (Parsed j)
              | Rejected e => Rejected e
              end,
         mkWorld (localStorage w) s',
         [ConsoleLog [Parsed (JStr "request: "); Parsed (JStr url)];
          Fetch url init])
    | (Rejected e, s') =>
        (Rejected e, mkWorld (localStorage w) s',
         [ConsoleLog [Parsed (JStr "request: "); Parsed (JStr url)];
          Fetch url init])
    end.
Proof.
  unfold ApiClient.request, ApiClient.expected_init.
  destruct auth; simpl; unfold bind, await_fetch; simpl;
    rewrite ?to_string_token;
    destruct (String.eqb (toUpperCase method) "GET"); simpl;
    (destruct (fetch _ _ (server w)) as [[r|e] s']; simpl; [|done]);
    destruct gfr; simpl; try done;
    unfold response_json; by destruct (json_body r).
Qed.

(** Unfold one [request] and split on what [fetch] answered. *)
Ltac run_request :=
  rewrite request_run; cbv zeta;
  let r := fresh "r" in let e := fresh "e" in let s' := fresh "s'" in
  destruct (fetch _ _ _) as [[r|e] s']; simpl.

Lemma auth_header_of_expected_init method data auth (w : World S) :
  headers (expected_init method data auth w) !! "Authorization"
  = if auth then Some (bearer w) else None.
Proof. by destruct auth. Qed.

(** C7. Every [request] sends exactly one fetch, whose [Authorization]
    header is [Bearer <token>], the token being read from
    [localStorage], when the auth flag is on, and is absent when the
    flag is off; and among the exported functions, exactly [login] and
    [register] send requests without the header. Both do send one:
    [login] sends a single POST to [login] without the header, and the
    first request of [register] goes out without it. Every other
    function sends exactly one request, and that request carries the
    header; the one exception sends nothing at all, [patchProfile] on
    [null] or [undefined], which fails before it reaches [request]. *)
Theorem authorization_header_follows_auth_flag :
  (∀ method endpoint data auth gfr (w : World S),
     ∃ init,
       sent (request method endpoint data auth gfr) w
         = [(API_URL +:+ "/" +:+ endpoint, init)] ∧
       headers init !! "Authorization"
         = if auth then Some (bearer w) else None) ∧
  (∀ c (w : World S),
     Forall (λ ui, headers ui.2 !! "Authorization"
                   = if is_login_or_register c then None
                     else Some (bearer w))
            (sent (call c) w)) ∧
  (∀ c (w : World S),
     if is_login_or_register c
     then ∃ url init rest,
            sent (call c) w = (url, init) :: rest ∧
            headers init !! "Authorization" = None
     else (∃ url init,
             sent (call c) w = [(url, init)] ∧
             headers init !! "Authorization" = Some (bearer w)) ∨
          (∃ userId userData,
             c = PatchProfile userId userData ∧
             own_entries userData = None ∧ sent (call c) w = [])) ∧
  (∀ email password (w : World S),
     ∃ init,
       sent (call (Login email password)) w
         = [(API_URL +:+ "/" +:+ "login", init)] ∧
       method init = "POST" ∧
       headers init !! "Authorization" = None).
Proof.
  split; [|split; [|split]].
  - intros verb endpoint data auth gfr w.
    exists (expected_init verb data auth w). split.
    + unfold sent. by run_request.
    + apply auth_header_of_expected_init.
  - intros c w. unfold sent.
    destruct c; simpl;
      unfold login, register, ApiClient.patchProfile, getUsers, getUserById,
        getUsersByName, patchUser, getPosts, postPost, deletePost, patchPost,
        getCohorts, post, patch, get, del, bind; simpl.
    all: try (destruct (own_entries userData); simpl; [|by constructor]).
    all: run_request; repeat constructor.
    all: try (destruct gfr; simpl).
    all: try (destruct (json_body r) as [j|]; simpl; repeat constructor).
    all: try (unfold login, post; simpl; run_request; repeat constructor).
    all: try (destruct j as [| | | | | |props]; simpl; repeat constructor).
  - intros c w. unfold sent.
    destruct c; simpl;
      unfold login, register, ApiClient.patchProfile, getUsers, getUserById,
        getUsersByName, patchUser, getPosts, postPost, deletePost, patchPost,
        getCohorts, post, patch, get, del, bind; simpl.
    all: try (destruct (own_entries userData) eqn:Hown; simpl;
              [|right; by eexists _, _]).
    all: run_request.
    all: try (destruct (json_body r) as [j|]; simpl).
    all: try (unfold login, post; simpl; run_request).
    all: try (destruct j as [| | | | | |props]; simpl).
    all: try (left; eexists _, _; split; [reflexivity|]; done).
    all: eexists _, _, _; split; [reflexivity|]; done.
  - intros email password w.
    exists (expected_init "POST" (JObj [("email", email); ("password", password)])
              false w).
    split; [|done]. unfold sent, ApiClient.call, login, post. simpl.
    by run_request.
Qed.

(** C8. Every [request] sends one fetch whose [body] is
    [JSON.stringify(data)] when the verb is not GET and is not set when
    it is; once [fetch] resolves, the call yields the response object
    itself when [getFullResponse] is on and what [response.json()]
    settles to when it is off; a rejection of [fetch] is passed on. *)
Theorem request_body_and_result verb endpoint data auth gfr (w : World S) :
  ∃ init,
    sent (request verb endpoint data auth gfr) w
      = [(API_URL +:+ "/" +:+ endpoint, init)] ∧
    body init = (if String.eqb (toUpperCase verb) "GET" then None
                 else Some (JSON_stringify data)) ∧
    outcome (request verb endpoint data auth gfr) w
      = match (fetch (API_URL +:+ "/" +:+ endpoint) init (server w)).1 with
        | Resolved r =>
            if gfr then Resolved (Raw r)
            else match json_body r with
                 | Resolved j => Resolved (Parsed j)
                 | Rejected e => Rejected e
                 end
        | Rejected e => Rejected e
        end.
Proof.
  exists (expected_init verb data auth w). split; [|split].
  - unfold sent. by run_request.
  - done.
  - unfold outcome. by run_request.
Qed.

(** The entries two objects share once their [password] entries are
    set aside. *)
Lemma rest_without_password pre pw post :
  Forall (λ kv : string * json, kv.1 = "password") pw →
  rest_without "password" (pre ++ pw ++ post)
  = rest_without "password" (pre ++ post).
Proof.
  intros Hpw. unfold rest_without, rest_props. f_equal.
  rewrite !List.filter_app. f_equal.
  replace (List.filter _ pw) with (@nil (string * json)); [done|].
  induction Hpw as [|[k v] pw Hk _ IH]; [done|].
  simpl in *. subst k. simpl. exact IH.
Qed.

Lemma rest_has_no_password props :
  "password" ∉ (rest_props "password" props).*1.
Proof.
  unfold rest_props. intros Hin.
  apply list_elem_of_fmap in Hin as ([k v] & Hk & Hin). simpl in Hk. subst k.
  apply list_elem_of_In, List.filter_In in Hin as [_ Hne].
  simpl in Hne. discriminate Hne.
Qed.

Lemma rest_keeps_the_others props (kv : string * json) :
  kv ∈ rest_props "password" props ↔ kv ∈ props ∧ kv.1 ≠ "password".
Proof.
  unfold rest_props. rewrite !list_elem_of_In, List.filter_In, negb_true_iff.
  by rewrite String.eqb_neq.
Qed.

(** C9. [patchProfile] on any object sends one PATCH whose body is the
    serialization of an object that has no [password] key and otherwise
    the same entries; and two objects that differ only in their
    [password] entries (present with any value, or absent) make
    [patchProfile] behave identically: same requests, same outcome, same
    final world. *)
Theorem patch_profile_ignores_password userId (w : World S) :
  (∀ props,
     ∃ init rest,
       sent (patchProfile userId (JObj props)) w
         = [(API_URL +:+ "/" +:+ "users/" +:+ to_string userId, init)] ∧
       method init = "PATCH" ∧
       body init = Some (JSON_stringify (JObj rest)) ∧
       ("password" ∉ rest.*1) ∧
       (∀ kv, kv ∈ rest ↔ kv ∈ props ∧ kv.1 ≠ "password")) ∧
  (∀ pre pw1 pw2 post,
     Forall (λ kv : string * json, kv.1 = "password") pw1 →
     Forall (λ kv : string * json, kv.1 = "password") pw2 →
     patchProfile userId (JObj (pre ++ pw1 ++ post)) w
     = patchProfile userId (JObj (pre ++ pw2 ++ post)) w).
Proof.
  split.
  - intros props.
    exists (expected_init "PATCH" (rest_without "password" props) true w),
           (rest_props "password" props).
    split; [|split; [done|split; [done|split]]].
    + unfold sent, ApiClient.patchProfile, patch. simpl. by run_request.
    + apply rest_has_no_password.
    + apply rest_keeps_the_others.
  - intros pre pw1 pw2 post H1 H2. unfold ApiClient.patchProfile. simpl.
    by rewrite !rest_without_password.
Qed.

End facts.

Lemma patch_profile_ignores_password_witness :
  Forall (λ kv : string * json, kv.1 = "password") [("password", JStr "hunter2")] ∧
  Forall (λ kv : string * json, kv.1 = "password") [] ∧
  patchProfile "http://api" toy_stringify toy_fetch (JNum 7)
    (JObj [("firstName", JStr "Ada"); ("password", JStr "hunter2");
           ("bio", JStr "hi")]) toy_world
  = patchProfile "http://api" toy_stringify toy_fetch (JNum 7)
      (JObj [("firstName", JStr "Ada"); ("bio", JStr "hi")]) toy_world.
Proof.
  split; [apply (bool_decide_unpack _); vm_compute; exact I|].
  split; [apply (bool_decide_unpack _); vm_compute; exact I|].
  apply (proj2 (patch_profile_ignores_password "http://api" toy_stringify
                  toy_fetch (JNum 7) toy_world)
           [("firstName", JStr "Ada")] [("password", JStr "hunter2")]
           [] [("bio", JStr "hi")]);
    apply (bool_decide_unpack _); vm_compute; exact I.
Defined.

(** ** The client at work *)

Example register_sends_two_requests_without_token :
  (λ ui, (ui.1, method ui.2, headers ui.2 !! "Authorization")) <$>
    sent (register "http://api" toy_stringify toy_fetch
            (JStr "a@b.c") (JStr "pw")) toy_world
  = [("http://api/users", "POST", None); ("http://api/login", "POST", None)].
Proof. reflexivity. Qed.

Example patch_profile_request :
  (λ ui, (ui.1, method ui.2, headers ui.2 !! "Authorization", body ui.2)) <$>
    sent (patchProfile "http://api" toy_stringify toy_fetch (JNum 7)
            (JObj [("firstName", JStr "Ada"); ("password", JStr "hunter2")]))
         toy_world
  = [("http://api/users/7", "PATCH", Some "Bearer t0k3n",
      Some (JStr ("{" +:+ quote +:+ "firstName" +:+ quote +:+ ":"
                  +:+ quote +:+ "Ada" +:+ quote +:+ "}")))].
Proof. reflexivity. Qed.

Example get_posts_unwraps_data :
  outcome (getPosts "http://api" toy_stringify toy_fetch) toy_world
  = Resolved (Parsed (JStr "http://api/posts")) ∧
  (λ ui, (method ui.2, body ui.2)) <$>
    sent (getPosts "http://api" toy_stringify toy_fetch) toy_world
  = [("GET", None)].
Proof. split; reflexivity. Qed.

Example delete_post_has_an_undefined_body :
  (λ ui, (ui.1, method ui.2, body ui.2)) <$>
    sent (deletePost "http://api" toy_stringify toy_fetch (JNum 3)) toy_world
  = [("http://api/posts/3", "DELETE", Some JUndefined)].
Proof. reflexivity. Qed.

End ApiClientFacts.

(** * More properties of the dashboard handlers *)

Module DashboardMore.
Import Dashboard DashboardView DashboardFacts.
Local Open Scope nat_scope.
Local Open Scope js_scope.

(** ** Handlers never write to an existing cell *)

Lemma allocating_ret {A} (a : A) : allocating (ret a).
Proof. intros w r w' [= <- <-]. apply grows_refl. Qed.

Lemma allocating_throw {A} e : allocating (@throw A e).
Proof. intros w r w' [= <- <-]. apply grows_refl. Qed.

Lemma allocating_bind {A B} (m : M A) (k : A → M B) :
  allocating m → (∀ a, allocating (k a)) → allocating (bind m k).
Proof.
  intros Hm Hk w r w'. unfold bind.
  destruct (m w) as [[a|e] w1] eqn:E.
  - intros Hrun. eapply grows_trans; [by eapply Hm | by eapply Hk].
  - intros [= <- <-]. by eapply Hm.
Qed.

Lemma allocating_of_option {A} (f : Dash → option A) :
  allocating (λ w, of_option (f w) w).
Proof.
  intros w r w'. destruct (f w); intros [= <- <-]; apply grows_refl.
Qed.

Lemma allocating_get_prop v k : allocating (get_prop v k).
Proof. apply (allocating_of_option (λ w, lookup_prop (heap w) v k)). Qed.

Lemma allocating_array_elems v : allocating (array_elems v).
Proof. apply (allocating_of_option (λ w, as_array (heap w) v)). Qed.

Lemma allocating_spread_elems v : allocating (spread_elems v).
Proof. apply (allocating_of_option (λ w, iter_elems (heap w) v)). Qed.

Lemma allocating_spread_props v : allocating (spread_props v).
Proof. intros w r w' [= <- <-]. apply grows_refl. Qed.

Lemma allocating_alloc c : allocating (alloc c).
Proof. intros w r w' [= <- <-]. apply (alloc_grows c w). Qed.

Lemma allocating_await p : allocating (await p).
Proof. destruct p; [apply allocating_ret | apply allocating_throw]. Qed.

Lemma allocating_map_cb {A B} (f : A → M B) l :
  (∀ x, allocating (f x)) → allocating (map_cb f l).
Proof.
  intros Hf. induction l as [|x l IH]; simpl; [apply allocating_ret|].
  apply allocating_bind; [done|]. intros y.
  apply allocating_bind; [done|]. intros ys. apply allocating_ret.
Qed.

Lemma allocating_filter_cb {A} (f : A → M bool) l :
  (∀ x, allocating (f x)) → allocating (filter_cb f l).
Proof.
  intros Hf. induction l as [|x l IH]; simpl; [apply allocating_ret|].
  apply allocating_bind; [done|]. intros y.
  apply allocating_bind; [done|]. intros ys. apply allocating_ret.
Qed.

Lemma allocating_Array_map fn arr :
  (∀ x, allocating (fn x)) → allocating (Array_map fn arr).
Proof.
  intros Hf. apply allocating_bind; [apply allocating_array_elems|]. intros es.
  apply allocating_bind; [by apply allocating_map_cb|]. intros es'.
  apply allocating_alloc.
Qed.

Lemma allocating_Array_filter fn arr :
  (∀ x, allocating (fn x)) → allocating (Array_filter fn arr).
Proof.
  intros Hf. apply allocating_bind; [apply allocating_array_elems|]. intros es.
  apply allocating_bind; [by apply allocating_filter_cb|]. intros es'.
  apply allocating_alloc.
Qed.

(** Close an [allocating] goal by following the shape of the code. *)
Ltac allocating_step :=
  first
    [ apply allocating_ret | apply allocating_throw | apply allocating_get_prop
    | apply allocating_array_elems | apply allocating_spread_elems
    | apply allocating_spread_props | apply allocating_alloc
    | apply allocating_await
    | apply allocating_Array_map; intros ?
    | apply allocating_Array_filter; intros ?
    | apply allocating_bind; [|intros ?]
    | match goal with |- allocating (if ?b then _ else _) => destruct b end ].

Lemma allocating_callback postId (m : per_post) x :
  allocating (per_post_callback postId m x).
Proof.
  destruct m; simpl;
    unfold replacePost, appendComment, removeComment, replaceComment;
    repeat allocating_step.
Qed.

Lemma allocating_prependPost sp prev : allocating (prependPost sp prev).
Proof. unfold prependPost. repeat allocating_step. Qed.

Lemma allocating_removePost postId prev : allocating (removePost postId prev).
Proof. unfold removePost. repeat allocating_step. Qed.

Lemma allocating_framed {A} (m : M A) : allocating m → framed m.
Proof.
  intros Hm w r w' Hrun. destruct (Hm w r w' Hrun) as (? & ? & ? & ? & ?).
  by repeat split.
Qed.

Lemma framed_bind {A B} (m : M A) (k : A → M B) :
  allocating m → (∀ a, framed (k a)) → framed (bind m k).
Proof.
  intros Hm Hk w r w'. unfold bind.
  destruct (m w) as [[a|e] w1] eqn:E.
  - intros Hrun. destruct (Hm _ _ _ E) as (Hp1 & Hposts & Hl1 & Hc1 & He1).
    destruct (Hk a _ _ _ Hrun) as (Hp2 & Hl2 & Hthrow).
    split; [by etrans|]. split; [congruence|].
    intros e' ->. destruct (Hthrow e' eq_refl). split; congruence.
  - intros [= <- <-]. destruct (Hm _ _ _ E) as (? & ? & ? & ? & ?).
    by repeat split.
Qed.

Lemma framed_setPostsFn upd :
  (∀ v, allocating (upd v)) → framed (setPostsFn upd).
Proof.
  intros Hupd w r w'. unfold setPostsFn.
  destruct (upd (posts w) w) as [[v|e] w1] eqn:E;
    destruct (Hupd _ _ _ _ E) as (Hp & Hposts & Hl & Hc & He);
    intros [= <- <-]; simpl; by repeat split.
Qed.

Lemma framed_updatePosts fn :
  (∀ x, allocating (fn x)) → framed (updatePosts fn).
Proof.
  intros Hfn. apply framed_setPostsFn. intros v. by apply allocating_Array_map.
Qed.

Lemma framed_handle m : is_create_post m = false → framed (handle m).
Proof.
  destruct m; simpl; [done|..]; intros _;
    unfold handleDeletePost, handleUpdatePost, handleCommentPost,
      handleDeleteComment, handleUpdateComment.
  - apply framed_bind; [apply allocating_await|]. intros _.
    apply framed_setPostsFn, allocating_removePost.
  - apply framed_bind; [apply allocating_await|]. intros up.
    apply framed_bind; [apply allocating_await|]. intros rc.
    apply framed_updatePosts, (allocating_callback postId (UpdatePost up rc)).
  - apply framed_bind; [apply allocating_await|]. intros sc.
    apply framed_updatePosts, (allocating_callback postId (CreateComment sc)).
  - apply framed_bind; [apply allocating_await|]. intros d.
    apply framed_updatePosts,
      (allocating_callback postId (DeleteComment commentId d)).
  - apply framed_bind; [apply allocating_await|]. intros uc.
    apply framed_updatePosts,
      (allocating_callback postId (UpdateComment commentId uc)).
Qed.

(** The create-post handler: same frame, and it never throws. *)
Lemma handlePostSubmit_frame r w :
  (handlePostSubmit r w).1 = Normal () ∧
  heap w `prefix_of` heap (handlePostSubmit r w).2 ∧
  loadingPosts (handlePostSubmit r w).2 = loadingPosts w.
Proof.
  unfold handlePostSubmit, try_catch.
  destruct (bind (await r) _ w) as [[[]|e] w1] eqn:E; simpl.
  - assert (Hf : framed (let* savedPost := await r in
                         setPostsFn (prependPost savedPost))).
    { apply framed_bind; [apply allocating_await|]. intros sp.
      apply framed_setPostsFn. intros v. apply allocating_prependPost. }
    destruct (Hf _ _ _ E) as (? & ? & _). done.
  - assert (Hf : framed (let* savedPost := await r in
                         setPostsFn (prependPost savedPost))).
    { apply framed_bind; [apply allocating_await|]. intros sp.
      apply framed_setPostsFn. intros v. apply allocating_prependPost. }
    destruct (Hf _ _ _ E) as (? & ? & _). done.
Qed.

(** X1. Whatever the state and however the server calls settle, a mutation
    handler never rewrites a cell that exists (every object and array it
    builds is new), never touches [loadingPosts], and, when it ends by
    throwing, leaves the posts state as it was; the create-post handler
    never throws at all. *)
Theorem mutation_handlers_copy_on_write m w :
  (∀ l c, heap w !! l = Some c → heap (handle m w).2 !! l = Some c) ∧
  loadingPosts (handle m w).2 = loadingPosts w ∧
  (∀ e, (handle m w).1 = Throw e →
        is_create_post m = false ∧ posts (handle m w).2 = posts w).
Proof.
  destruct (is_create_post m) eqn:Hc.
  - destruct m; try done. simpl.
    destruct (handlePostSubmit_frame postPost w) as (Hn & Hp & Hl).
    split; [intros l c; by apply prefix_cell|]. split; [done|].
    intros e He. rewrite Hn in He. discriminate He.
  - destruct (handle m w) as [r w'] eqn:E.
    destruct (framed_handle m Hc _ _ _ E) as (Hp & Hl & Hthrow). simpl.
    split; [intros l c; by apply prefix_cell|]. split; [done|].
    intros e ->. split; [done|]. by destruct (Hthrow e eq_refl).
Qed.

(** ** The posts state is always an array *)

Lemma as_array_some_mono h h' v :
  h `prefix_of` h' → is_Some (as_array h v) → is_Some (as_array h' v).
Proof. intros Hp [es Hes]. exists es. by eapply as_array_mono. Qed.

Lemma allocating_keeps_array {A} (m : M A) : allocating m → keeps_array m.
Proof.
  intros Hm w r w' Hrun Harr. destruct (Hm _ _ _ Hrun) as (Hp & Hposts & _).
  rewrite Hposts. by eapply as_array_some_mono.
Qed.

Lemma keeps_array_bind {A B} (m : M A) (k : A → M B) :
  keeps_array m → (∀ a, keeps_array (k a)) → keeps_array (bind m k).
Proof.
  intros Hm Hk w r w'. unfold bind.
  destruct (m w) as [[a|e] w1] eqn:E.
  - intros Hrun Harr. eapply Hk; [done|]. by eapply Hm.
  - intros [= <- <-] Harr. by eapply Hm.
Qed.

Lemma yields_array_alloc_after {A} (m : M A) (f : A → list val) :
  yields_array (let* a := m in alloc (Arr (f a))).
Proof.
  intros w v w'. unfold bind. destruct (m w) as [[a|e] w1]; [|done].
  intros [= <- <-]. simpl. rewrite lookup_app_r, Nat.sub_diag by done.
  by eexists.
Qed.

Lemma yields_array_Array_map fn arr : yields_array (Array_map fn arr).
Proof.
  intros w v w'. unfold Array_map, bind.
  destruct (array_elems arr w) as [[es|e] w1]; [|done].
  destruct (map_cb fn es w1) as [[es'|e] w2]; [|done].
  intros [= <- <-]. simpl. rewrite lookup_app_r, Nat.sub_diag by done.
  by eexists.
Qed.

Lemma yields_array_Array_filter fn arr : yields_array (Array_filter fn arr).
Proof.
  intros w v w'. unfold Array_filter, bind.
  destruct (array_elems arr w) as [[es|e] w1]; [|done].
  destruct (filter_cb fn es w1) as [[es'|e] w2]; [|done].
  intros [= <- <-]. simpl. rewrite lookup_app_r, Nat.sub_diag by done.
  by eexists.
Qed.

Lemma keeps_array_setPostsFn upd :
  (∀ v, allocating (upd v)) → (∀ v, yields_array (upd v)) →
  keeps_array (setPostsFn upd).
Proof.
  intros Halloc Hyield w r w'. unfold setPostsFn.
  destruct (upd (posts w) w) as [[v|e] w1] eqn:E; intros [= <- <-] Harr; simpl.
  - by eapply Hyield.
  - destruct (Halloc _ _ _ _ E) as (Hp & Hposts & _).
    rewrite Hposts. by eapply as_array_some_mono.
Qed.

Lemma keeps_array_updatePosts fn :
  (∀ x, allocating (fn x)) → keeps_array (updatePosts fn).
Proof.
  intros Hfn. apply keeps_array_setPostsFn.
  - intros v. by apply allocating_Array_map.
  - intros v. apply yields_array_Array_map.
Qed.

Lemma keeps_array_console_error e : keeps_array (console_error e).
Proof. by intros w r w' [= <- <-]. Qed.

Lemma keeps_array_try_catch {A} (body : M A) handler :
  keeps_array body → (∀ e, keeps_array (handler e)) →
  keeps_array (try_catch body handler).
Proof.
  intros Hb Hh w r w'. unfold try_catch.
  destruct (body w) as [[a|e] w1] eqn:E.
  - intros [= <- <-] Harr. by eapply Hb.
  - intros Hrun Harr. eapply Hh; [done|]. by eapply Hb.
Qed.

Lemma keeps_array_handle m : keeps_array (handle m).
Proof.
  destruct m; simpl;
    unfold handlePostSubmit, handleDeletePost, handleUpdatePost,
      handleCommentPost, handleDeleteComment, handleUpdateComment.
  - apply keeps_array_try_catch; [|intros e; apply keeps_array_console_error].
    apply keeps_array_bind; [apply allocating_keeps_array, allocating_await|].
    intros sp. apply keeps_array_setPostsFn.
    + intros v. apply allocating_prependPost.
    + intros v. apply (yields_array_alloc_after _ (λ rest, sp :: rest)).
  - apply keeps_array_bind; [apply allocating_keeps_array, allocating_await|].
    intros _. apply keeps_array_setPostsFn.
    + intros v. apply allocating_removePost.
    + intros v. apply yields_array_Array_filter.
  - apply keeps_array_bind; [apply allocating_keeps_array, allocating_await|].
    intros up.
    apply keeps_array_bind; [apply allocating_keeps_array, allocating_await|].
    intros rc.
    apply keeps_array_updatePosts, (allocating_callback postId (UpdatePost up rc)).
  - apply keeps_array_bind; [apply allocating_keeps_array, allocating_await|].
    intros sc.
    apply keeps_array_updatePosts, (allocating_callback postId (CreateComment sc)).
  - apply keeps_array_bind; [apply allocating_keeps_array, allocating_await|].
    intros d.
    apply keeps_array_updatePosts,
      (allocating_callback postId (DeleteComment commentId d)).
  - apply keeps_array_bind; [apply allocating_keeps_array, allocating_await|].
    intros uc.
    apply keeps_array_updatePosts,
      (allocating_callback postId (UpdateComment commentId uc)).
Qed.

Lemma keeps_array_fetchPosts r : keeps_array (fetchPosts r).
Proof.
  intros w res w'. unfold fetchPosts, try_finally, try_catch.
  destruct r as [v|e]; simpl.
  - unfold bind at 1. simpl. unfold bind at 1, Array_reverse.
    destruct v as [| | | | |l]; simpl; try (by intros [= <- <-]).
    destruct (heap w !! l) as [[f|es]|] eqn:El; simpl;
      try (by intros [= <- <-]).
    intros [= <- <-] _. simpl.
    rewrite list_lookup_insert_eq by (by eapply lookup_lt_Some).
    by eexists.
  - by intros [= <- <-].
Qed.

(** X2. The posts state, once an array, stays an array: through every
    mutation handler, however its server calls settle and whether or not
    it throws, and through the initial fetch, whatever it resolves to.
    So [prev.map], [prev.filter] and [[...prev]] never fail on the state
    itself. *)
Theorem posts_state_stays_an_array w :
  posts_is_array w →
  (∀ m, posts_is_array (handle m w).2) ∧
  (∀ r, posts_is_array (fetchPosts r w).2).
Proof.
  intros Harr. split.
  - intros m. destruct (handle m w) as [r w'] eqn:E.
    by apply (keeps_array_handle m _ _ _ E).
  - intros r. destruct (fetchPosts r w) as [res w'] eqn:E.
    by apply (keeps_array_fetchPosts r _ _ _ E).
Qed.

Lemma posts_state_stays_an_array_witness :
  posts_is_array demo ∧
  (∀ m, posts_is_array (handle m demo).2) ∧
  (∀ r, posts_is_array (fetchPosts r demo).2).
Proof.
  assert (H : posts_is_array demo) by (by eexists).
  split; [exact H|]. apply (posts_state_stays_an_array demo H).
Defined.

(** ** The initial fetch *)

(** X3. [fetchPosts] never throws and always clears [loadingPosts]. When
    the promise is rejected, or resolves to anything that is not an array
    (for instance [undefined], when the response had no [data]), the
    error is logged to the console and the store and the posts state are
    left exactly as they were. *)
Theorem initial_fetch_never_throws r w :
  (fetchPosts r w).1 = Normal () ∧
  loadingPosts (fetchPosts r w).2 = false ∧
  (∀ e, r = Rejected e →
        (fetchPosts r w).2
        = mkDash (heap w) (posts w) false (console w ++ [Reason e])
                 (renderErrors w)) ∧
  (∀ v, r = Fulfilled v → as_array (heap w) v = None →
        (fetchPosts r w).2
        = mkDash (heap w) (posts w) false (console w ++ [TypeError])
                 (renderErrors w)).
Proof.
  unfold fetchPosts, try_finally, try_catch.
  destruct r as [v|e]; simpl.
  - unfold bind at 1 3 5 7. simpl. unfold bind, Array_reverse.
    destruct v as [| | | | |l]; simpl; try (by repeat split; intros; simplify_eq).
    destruct (heap w !! l) as [[f|es]|] eqn:El; simpl.
    + repeat split; intros; by simplify_eq.
    + repeat split; intros; simplify_eq. simpl in *. by rewrite El in *.
    + repeat split; intros; by simplify_eq.
  - repeat split; intros; by simplify_eq.
Qed.

(** X4. When the promise resolves to an array, the posts state becomes
    that very array (the same reference, no copy), its elements reversed
    in place; nothing is allocated and no other cell changes. *)
Theorem initial_fetch_reverses_in_place w l es :
  heap w !! l = Some (Arr es) →
  posts (fetchPosts (Fulfilled (Ref l)) w).2 = Ref l ∧
  heap (fetchPosts (Fulfilled (Ref l)) w).2 !! l = Some (Arr (rev es)) ∧
  length (heap (fetchPosts (Fulfilled (Ref l)) w).2) = length (heap w) ∧
  (∀ l', l' ≠ l →
         heap (fetchPosts (Fulfilled (Ref l)) w).2 !! l' = heap w !! l').
Proof.
  intros Hl. unfold fetchPosts, try_finally, try_catch. simpl.
  unfold bind at 1 3 5 7. simpl. unfold bind, Array_reverse. rewrite Hl. simpl.
  split; [done|]. split; [|split].
  - rewrite list_lookup_insert_eq; [done|]. by eapply lookup_lt_Some.
  - by rewrite length_insert.
  - intros l' Hne. by rewrite list_lookup_insert_ne.
Qed.

Lemma initial_fetch_reverses_in_place_witness :
  heap demo !! 7 = Some (Arr [Ref 0; Ref 4]) ∧
  posts (fetchPosts (Fulfilled (Ref 7)) demo).2 = Ref 7 ∧
  heap (fetchPosts (Fulfilled (Ref 7)) demo).2 !! 7 = Some (Arr [Ref 4; Ref 0]) ∧
  length (heap (fetchPosts (Fulfilled (Ref 7)) demo).2) = length (heap demo) ∧
  (∀ l', l' ≠ 7 →
         heap (fetchPosts (Fulfilled (Ref 7)) demo).2 !! l' = heap demo !! l').
Proof.
  split; [reflexivity|].
  apply (initial_fetch_reverses_in_place demo 7 [Ref 0; Ref 4]). reflexivity.
Defined.

(** ** Comment mutations, post by post *)

Lemma own_props_object h h' x :
  h `prefix_of` h' → is_object h x = true → own_props h' x = own_props h x.
Proof.
  intros Hp. destruct x; simpl; try done.
  destruct (h !! l) as [[f|]|] eqn:E; try done.
  by rewrite (prefix_cell _ _ _ _ Hp E).
Qed.

Lemma prop_of_object h x k :
  is_object h x = true → prop_of h x k = default Undefined (own_props h x !! k).
Proof.
  unfold prop_of. destruct x; simpl; try done.
  by destruct (h !! l) as [[f|]|].
Qed.

(** [map] with a callback that reads but does not write. *)
Lemma map_cb_pure (cb : val → M val) (g : val → val) (l : list val) w :
  (∀ x, x ∈ l → cb x w = (Normal (g x), w)) →
  map_cb cb l w = (Normal (g <$> l), w).
Proof.
  induction l as [|x l IH]; intros Hcb; [done|].
  simpl. unfold bind at 1. rewrite (Hcb x); [|left].
  unfold bind at 1. rewrite IH; [done|]. intros y Hy. apply Hcb. by right.
Qed.

(** The object literal that ends every comment callback. *)
Lemma rebuild_post h0 x h2 lc new :
  is_object h0 x = true → h0 `prefix_of` h2 →
  h2 !! lc = Some (Arr new) → forallb (is_object h2) new = true →
  let h3 := h2 ++ [Obj (<["comments" := Ref lc]> (own_props h0 x))] in
  let y := Ref (length h2) in
  is_object h3 y = true ∧
  (∀ k, k ≠ "comments" → prop_of h3 y k = prop_of h0 x k) ∧
  post_comments h3 y = Some new.
Proof.
  intros Hx Hp Hlc Hnew h3 y.
  assert (Hy : h3 !! length h2
               = Some (Obj (<["comments" := Ref lc]> (own_props h0 x)))).
  { unfold h3. by rewrite lookup_app_r, Nat.sub_diag. }
  split; [|split].
  - unfold y. simpl. by rewrite Hy.
  - intros k Hk. rewrite (prop_of_object h0 x k Hx).
    unfold prop_of, y. simpl. rewrite Hy. by rewrite lookup_insert_ne.
  - unfold post_comments, prop_of, y. simpl. rewrite Hy.
    rewrite lookup_insert_eq. simpl.
    assert (Hlc3 : h3 !! lc = Some (Arr new)).
    { unfold h3. by apply lookup_app_l_Some. }
    rewrite Hlc3.
    by rewrite (forallb_is_object_mono h2 h3 new (prefix_snoc _ _) Hnew).
Qed.

Lemma comments_after_objects h m cs :
  comment_payload_ok h m = true →
  forallb (is_object h) cs = true →
  forallb (is_object h) (comments_after h m cs) = true.
Proof.
  intros Hm Hcs. destruct m; simpl in *; [done| | |].
  - rewrite forallb_app. simpl. by rewrite Hcs, Hm.
  - by apply forallb_filter_sub.
  - apply forallb_forall. intros c Hc.
    apply List.in_map_iff in Hc as (c0 & <- & Hc0).
    destruct (has_comment_id _ _ _); [done|].
    rewrite forallb_forall in Hcs. by apply Hcs.
Qed.

Lemma comment_callback_step w postId m x cs w1 :
  comment_payload_ok (heap w) m = true →
  is_object (heap w) x = true → post_comments (heap w) x = Some cs →
  grows w w1 →
  ∃ y w', per_post_callback postId m x w1 = (Normal y, w') ∧ grows w1 w' ∧
          rebuilt (heap w) postId (comments_after (heap w) m) x y (heap w').
Proof.
  intros Hm Hx Hcs Hg. pose proof Hg as (Hpre & _).
  pose proof (is_object_mono _ _ _ Hpre Hx) as Hx1.
  destruct (post_comments_inv _ _ _ Hcs) as [Harr Hobjs].
  pose proof (as_array_mono _ _ _ _ Hpre Harr) as Harr1.
  destruct (decide (post_id (heap w) x = postId)) as [Hid|Hid].
  2:{ exists x, w1. split; [|split; [apply grows_refl|]].
      - apply callback_skips; [done|].
        unfold post_id. by rewrite (prop_of_mono _ _ _ _ Hpre Hx).
      - split; [done|]. split; [done|]. split.
        + intros k _. by apply prop_of_mono.
        + intros cs0 Hcs0. unfold strict_eq.
          rewrite bool_decide_eq_false_2 by done.
          by eapply post_comments_mono. }
  assert (Hnew : forallb (is_object (heap w1)) (comments_after (heap w) m cs) = true).
  { eapply forallb_is_object_mono; [done|]. by apply comments_after_objects. }
  set (new := comments_after (heap w) m cs) in *.
  set (w2 := mkDash (heap w1 ++ [Arr new]) (posts w1) (loadingPosts w1) (console w1)
                    (renderErrors w1)).
  set (w3 := mkDash (heap w2 ++ [Obj (<["comments" := Ref (length (heap w1))]>
                                        (own_props (heap w) x))])
                    (posts w1) (loadingPosts w1) (console w1) (renderErrors w1)).
  assert (Hrun : per_post_callback postId m x w1
                 = (Normal (Ref (length (heap w2))), w3)).
  { destruct m as [| sc | cid d | cid uc]; [done|..]; simpl;
      unfold appendComment, removeComment, replaceComment;
      unfold bind at 1; rewrite (get_prop_object _ _ _ Hx1);
      rewrite (prop_of_mono _ _ _ _ Hpre Hx); fold (post_id (heap w) x);
      unfold strict_eq; rewrite (bool_decide_eq_true_2 _ Hid);
      unfold bind at 1, spread_props; unfold bind at 1;
      rewrite (get_prop_object _ _ _ Hx1), (prop_of_mono _ _ _ _ Hpre Hx);
      rewrite (own_props_object _ _ _ Hpre Hx).
    - unfold bind at 1, spread_elems.
      assert (Hit : iter_elems (heap w1) (prop_of (heap w) x "comments") = Some cs).
      { revert Harr1. unfold as_array, iter_elems.
        by destruct (prop_of (heap w) x "comments"). }
      rewrite Hit. simpl. reflexivity.
    - unfold bind at 1.
      rewrite (Array_filter_run _ (keeps (heap w) cid) _ cs w1 Harr1); [done|].
      intros c Hc. unfold bind at 1.
      assert (Hco : is_object (heap w) c = true).
      { rewrite forallb_forall in Hobjs. apply Hobjs. by apply list_elem_of_In. }
      rewrite (get_prop_object _ _ _ (is_object_mono _ _ _ Hpre Hco)).
      by rewrite (prop_of_mono _ _ _ _ Hpre Hco).
    - unfold bind at 1, Array_map. unfold bind at 1, array_elems.
      rewrite Harr1. simpl. unfold bind at 1.
      rewrite (map_cb_pure _
                 (λ c, if has_comment_id (heap w) cid c then uc else c)); [done|].
      intros c Hc. unfold bind at 1.
      assert (Hco : is_object (heap w) c = true).
      { rewrite forallb_forall in Hobjs. apply Hobjs. by apply list_elem_of_In. }
      rewrite (get_prop_object _ _ _ (is_object_mono _ _ _ Hpre Hco)).
      by rewrite (prop_of_mono _ _ _ _ Hpre Hco). }
  exists (Ref (length (heap w2))), w3. split; [done|]. split.
  - repeat split; simpl. rewrite <- app_assoc. by eexists.
  - destruct (rebuild_post (heap w) x (heap w2) (length (heap w1)) new)
      as (Ho & Hk & Hc); try done.
    + etrans; [done|]. apply prefix_snoc.
    + simpl. by rewrite lookup_app_r, Nat.sub_diag.
    + eapply forallb_is_object_mono; [apply prefix_snoc|done].
    + split; [done|]. split; [done|]. split; [done|].
      intros cs0 Hcs0. assert (cs0 = cs) as -> by congruence.
      unfold strict_eq. by rewrite (bool_decide_eq_true_2 _ Hid).
Qed.

Lemma rebuilt_stable h0 postId f x y h h' :
  rebuilt h0 postId f x y h → h `prefix_of` h' → rebuilt h0 postId f x y h'.
Proof.
  intros (Ho & Hne & Hk & Hcs) Hp. split; [by eapply is_object_mono|].
  split; [done|]. split.
  - intros k Hkk. rewrite <- (Hk k Hkk). by apply prop_of_mono.
  - intros cs E. eapply post_comments_mono; eauto.
Qed.

Lemma feed_after_rebuild h0 postId f h ps ps' feed :
  feed_of h0 ps = Some feed →
  Forall2 (λ x y, rebuilt h0 postId f x y h) ps ps' →
  ∃ feed', feed_of h ps' = Some feed' ∧
           Forall2 (entry_after h0 h postId f) feed feed'.
Proof.
  intros Hfeed%feed_of_inv Hall. revert ps' Hall.
  induction Hfeed as [|p [q cs] ps feed [Hq Hc] _ IH]; intros ps' Hall.
  - apply Forall2_nil_inv_l in Hall as ->. exists []. split; [done|constructor].
  - apply Forall2_cons_inv_l in Hall as (y & ys & (Ho & Hne & Hk & Hcs) & Hall & ->).
    destruct (IH ys Hall) as (feed' & Hf' & HR). simpl in *. subst q.
    eexists ((y, _) :: feed'). split.
    + simpl. by rewrite (Hcs cs Hc), Hf'.
    + constructor; [|done]. by repeat split.
Qed.

(** Every comment mutation, on a well-formed tree. *)
Lemma comment_mutation_spec w feed postId m :
  view_feed w = Some feed →
  comment_payload_ok (heap w) m = true →
  ∃ w' feed',
    run_per_post postId m w = (Normal (), w') ∧
    view_feed w' = Some feed' ∧
    heap w `prefix_of` heap w' ∧
    Forall2 (entry_after (heap w) (heap w') postId (comments_after (heap w) m))
            feed feed'.
Proof.
  intros Hview Hm. unfold view_feed in Hview.
  destruct (view_posts w) as [ps|] eqn:Hv; [|done].
  destruct (updatePosts_spec (per_post_callback postId m)
              (rebuilt (heap w) postId (comments_after (heap w) m)) w ps Hv)
    as (w' & ps' & Hrun & Hv' & Hpre & _ & _ & Hall).
  - intros. by eapply rebuilt_stable.
  - by intros x y h (? & _).
  - intros x w1 Hx Hg.
    destruct (view_posts_inv _ _ Hv) as [_ Hobj].
    rewrite forallb_forall in Hobj.
    apply list_elem_of_lookup_1 in Hx as [i Hi].
    destruct (Forall2_lookup_l _ _ _ _ _ (feed_of_inv _ _ _ Hview) Hi)
      as ([q cs] & _ & _ & Hc).
    eapply comment_callback_step; [done| |exact Hc|done].
    apply Hobj, list_elem_of_In. by eapply list_elem_of_lookup_2.
  - destruct (feed_after_rebuild _ _ _ _ _ _ _ Hview Hall) as (feed' & Hf' & HR).
    exists w', feed'. split; [|split; [|split; [done|done]]].
    + destruct m; try done; exact Hrun.
    + unfold view_feed. by rewrite Hv'.
Qed.

(** X5. Commenting on a post of a well-formed tree completes; the post
    with the given id lists its old comments followed by the saved
    comment (same objects, same order), and every post with another id
    stays the same object with the same comments. *)
Theorem create_comment_appends w feed postId sc i p cs :
  view_feed w = Some feed → is_object (heap w) sc = true →
  feed !! i = Some (p, cs) → post_id (heap w) p = postId →
  ∃ w' feed' p',
    handleCommentPost postId (Fulfilled sc) w = (Normal (), w') ∧
    view_feed w' = Some feed' ∧
    length feed' = length feed ∧
    feed' !! i = Some (p', cs ++ [sc]) ∧
    (∀ j q csj, feed !! j = Some (q, csj) → post_id (heap w) q ≠ postId →
                feed' !! j = Some (q, csj)).
Proof.
  intros Hview Hsc Hi Hid.
  destruct (comment_mutation_spec w feed postId (CreateComment sc) Hview Hsc)
    as (w' & feed' & Hrun & Hview' & _ & HR).
  destruct (Forall2_lookup_l _ _ _ _ _ HR Hi) as ([p' cs'] & Hi' & _ & _ & Hcs').
  simpl in Hcs'. unfold strict_eq in Hcs'.
  rewrite (bool_decide_eq_true_2 _ Hid) in Hcs'. subst cs'.
  exists w', feed', p'. split; [done|]. split; [done|].
  split; [symmetry; by eapply Forall2_length|]. split; [done|].
  intros j q csj Hj Hne.
  destruct (Forall2_lookup_l _ _ _ _ _ HR Hj) as ([q' csj'] & Hj' & Hq & _ & Hc).
  simpl in *. unfold strict_eq in Hc.
  rewrite (bool_decide_eq_false_2 _ Hne) in Hc. by rewrite Hj', (Hq Hne), Hc.
Qed.

Lemma create_comment_appends_witness :
  view_feed demo = Some [(Ref 0, [Ref 2; Ref 3]); (Ref 4, [Ref 6])] ∧
  ∃ w' feed' p',
    handleCommentPost (Num 2) (Fulfilled (Ref 13)) demo = (Normal (), w') ∧
    view_feed w' = Some feed' ∧
    length feed' = 2 ∧
    feed' !! 1 = Some (p', [Ref 6] ++ [Ref 13]) ∧
    (∀ j q csj,
       [(Ref 0, [Ref 2; Ref 3]); (Ref 4, [Ref 6])] !! j = Some (q, csj) →
       post_id (heap demo) q ≠ Num 2 → feed' !! j = Some (q, csj)).
Proof.
  split; [reflexivity|].
  apply (create_comment_appends demo
           [(Ref 0, [Ref 2; Ref 3]); (Ref 4, [Ref 6])] (Num 2) (Ref 13)
           1 (Ref 4) [Ref 6]); reflexivity.
Defined.

(** X6. Updating a comment on a well-formed tree completes; in the post
    with the given id the comment list keeps its length and its order,
    every comment carrying the given comment id is replaced by the
    updated comment and every other comment is the same object; posts
    with another id stay the same object with the same comments. *)
Theorem update_comment_replaces_in_place w feed postId commentId uc i p cs :
  view_feed w = Some feed → is_object (heap w) uc = true →
  feed !! i = Some (p, cs) → post_id (heap w) p = postId →
  ∃ w' feed' p' cs',
    handleUpdateComment postId commentId (Fulfilled uc) w = (Normal (), w') ∧
    view_feed w' = Some feed' ∧
    length feed' = length feed ∧
    feed' !! i = Some (p', cs') ∧
    length cs' = length cs ∧
    (∀ k c, cs !! k = Some c →
            cs' !! k = Some (if decide (comment_id (heap w) c = commentId)
                             then uc else c)) ∧
    (∀ j q csj, feed !! j = Some (q, csj) → post_id (heap w) q ≠ postId →
                feed' !! j = Some (q, csj)).
Proof.
  intros Hview Huc Hi Hid.
  destruct (comment_mutation_spec w feed postId (UpdateComment commentId uc)
              Hview Huc) as (w' & feed' & Hrun & Hview' & _ & HR).
  destruct (Forall2_lookup_l _ _ _ _ _ HR Hi) as ([p' cs'] & Hi' & _ & _ & Hcs').
  simpl in Hcs'. unfold strict_eq in Hcs'.
  rewrite (bool_decide_eq_true_2 _ Hid) in Hcs'. subst cs'.
  eexists w', feed', p', _. split; [done|]. split; [done|].
  split; [symmetry; by eapply Forall2_length|]. split; [done|].
  split; [by rewrite length_fmap|]. split.
  - intros k c Hk. rewrite list_lookup_fmap, Hk. simpl. f_equal.
    unfold has_comment_id, strict_eq. by case_bool_decide; case_decide.
  - intros j q csj Hj Hne.
    destruct (Forall2_lookup_l _ _ _ _ _ HR Hj) as ([q' csj'] & Hj' & Hq & _ & Hc).
    simpl in *. unfold strict_eq in Hc.
    rewrite (bool_decide_eq_false_2 _ Hne) in Hc. by rewrite Hj', (Hq Hne), Hc.
Qed.

Lemma update_comment_replaces_in_place_witness :
  view_feed demo = Some [(Ref 0, [Ref 2; Ref 3]); (Ref 4, [Ref 6])] ∧
  ∃ w' feed' p' cs',
    handleUpdateComment (Num 1) (Num 11) (Fulfilled (Ref 10)) demo
      = (Normal (), w') ∧
    view_feed w' = Some feed' ∧
    length feed' = 2 ∧
    feed' !! 0 = Some (p', cs') ∧
    length cs' = 2 ∧
    (∀ k c, [Ref 2; Ref 3] !! k = Some c →
            cs' !! k = Some (if decide (comment_id (heap demo) c = Num 11)
                             then Ref 10 else c)) ∧
    (∀ j q csj,
       [(Ref 0, [Ref 2; Ref 3]); (Ref 4, [Ref 6])] !! j = Some (q, csj) →
       post_id (heap demo) q ≠ Num 1 → feed' !! j = Some (q, csj)).
Proof.
  split; [reflexivity|].
  apply (update_comment_replaces_in_place demo
           [(Ref 0, [Ref 2; Ref 3]); (Ref 4, [Ref 6])] (Num 1) (Num 11) (Ref 10)
           0 (Ref 0) [Ref 2; Ref 3]); reflexivity.
Defined.

(** X7. A comment mutation (create, delete or update comment) on a
    well-formed tree never adds, removes or reorders posts, and every
    post keeps its id and every other property except [comments],
    whether or not it is the post the mutation names. *)
Theorem comment_mutations_keep_posts w feed postId m :
  view_feed w = Some feed →
  comment_payload_ok (heap w) m = true →
  ∃ w' feed',
    run_per_post postId m w = (Normal (), w') ∧
    view_feed w' = Some feed' ∧
    length feed' = length feed ∧
    (∀ j q csj, feed !! j = Some (q, csj) →
       ∃ q' csj',
         feed' !! j = Some (q', csj') ∧
         post_id (heap w') q' = post_id (heap w) q ∧
         (∀ k, k ≠ "comments" → prop_of (heap w') q' k = prop_of (heap w) q k)).
Proof.
  intros Hview Hm.
  destruct (comment_mutation_spec w feed postId m Hview Hm)
    as (w' & feed' & Hrun & Hview' & _ & HR).
  exists w', feed'. split; [done|]. split; [done|].
  split; [symmetry; by eapply Forall2_length|].
  intros j q csj Hj.
  destruct (Forall2_lookup_l _ _ _ _ _ HR Hj) as ([q' csj'] & Hj' & _ & Hk & _).
  exists q', csj'. split; [done|]. simpl in Hk. split; [by apply Hk|done].
Qed.

Lemma comment_mutations_keep_posts_witness :
  view_feed demo = Some [(Ref 0, [Ref 2; Ref 3]); (Ref 4, [Ref 6])] ∧
  ∃ w' feed',
    run_per_post (Num 1) (DeleteComment (Num 10) Undefined) demo
      = (Normal (), w') ∧
    view_feed w' = Some feed' ∧
    length feed' = 2 ∧
    (∀ j q csj,
       [(Ref 0, [Ref 2; Ref 3]); (Ref 4, [Ref 6])] !! j = Some (q, csj) →
       ∃ q' csj',
         feed' !! j = Some (q', csj') ∧
         post_id (heap w') q' = post_id (heap demo) q ∧
         (∀ k, k ≠ "comments" →
               prop_of (heap w') q' k = prop_of (heap demo) q k)).
Proof.
  split; [reflexivity|].
  apply (comment_mutations_keep_posts demo
           [(Ref 0, [Ref 2; Ref 3]); (Ref 4, [Ref 6])] (Num 1)
           (DeleteComment (Num 10) Undefined)); reflexivity.
Defined.

(** ** Adding a comment and taking it back *)

Lemma no_occurrence h commentId (feed : list (val * list val)) j q cs :
  occurrences h commentId feed = 0 → feed !! j = Some (q, cs) →
  List.filter (keeps h commentId) cs = cs.
Proof.
  intros Hocc Hj.
  pose proof (sum_list_bounds
                (λ e : val * list val,
                   length (List.filter (has_comment_id h commentId) e.2))
                feed j (q, cs) Hj) as Hle.
  unfold occurrences in Hocc. simpl in Hle.
  apply (filter_none_hit (has_comment_id h commentId)). lia.
Qed.

Lemma keeps_mono h h' commentId cs :
  h `prefix_of` h' → forallb (is_object h) cs = true →
  List.filter (keeps h' commentId) cs = List.filter (keeps h commentId) cs.
Proof.
  intros Hp Hobj. apply filter_ext_in. intros c Hc.
  unfold keeps, has_comment_id, comment_id.
  rewrite (prop_of_mono h h'); [done|done|].
  rewrite forallb_forall in Hobj. by apply Hobj, list_elem_of_In.
Qed.

Lemma feed_comments_are_objects h ps feed j q cs :
  feed_of h ps = Some feed → feed !! j = Some (q, cs) →
  forallb (is_object h) cs = true.
Proof.
  intros Hfeed%feed_of_inv Hj.
  destruct (Forall2_lookup_r _ _ _ _ _ Hfeed Hj) as (p & _ & _ & Hc).
  by destruct (post_comments_inv _ _ _ Hc).
Qed.

(** X8. Round trip: on a well-formed tree, adding a comment whose id no
    comment of the tree carries and then deleting that comment id from
    the same post gives back, for every post, exactly the comments it
    listed before (same objects, same order). *)
Theorem add_then_delete_comment_restores w feed postId sc d :
  view_feed w = Some feed → is_object (heap w) sc = true →
  occurrences (heap w) (comment_id (heap w) sc) feed = 0 →
  ∃ w1 w2 feed2,
    handleCommentPost postId (Fulfilled sc) w = (Normal (), w1) ∧
    handleDeleteComment postId (comment_id (heap w) sc) (Fulfilled d) w1
      = (Normal (), w2) ∧
    view_feed w2 = Some feed2 ∧
    feed2.*2 = feed.*2.
Proof.
  intros Hview Hsc Hocc. set (cid := comment_id (heap w) sc) in *.
  destruct (comment_mutation_spec w feed postId (CreateComment sc) Hview Hsc)
    as (w1 & feed1 & Hrun1 & Hview1 & Hpre1 & HR1).
  destruct (comment_mutation_spec w1 feed1 postId (DeleteComment cid d) Hview1 eq_refl)
    as (w2 & feed2 & Hrun2 & Hview2 & Hpre2 & HR2).
  exists w1, w2, feed2. split; [done|]. split; [done|]. split; [done|].
  assert (Hps : ∃ ps, feed_of (heap w) ps = Some feed).
  { unfold view_feed in Hview. destruct (view_posts w) as [ps|]; [|done]. by exists ps. }
  destruct Hps as [ps Hfeed].
  apply list_eq_same_length with (length feed).
  - by rewrite length_fmap.
  - by rewrite length_fmap, <- (Forall2_length _ _ _ HR2),
       <- (Forall2_length _ _ _ HR1).
  - intros j cs2 cs Hlt. rewrite !list_lookup_fmap.
    destruct (feed !! j) as [[q cs0]|] eqn:Hj; [|done].
    destruct (Forall2_lookup_l _ _ _ _ _ HR1 Hj) as ([q1 cs1] & Hj1 & _ & Hk1 & Hc1).
    destruct (Forall2_lookup_l _ _ _ _ _ HR2 Hj1) as ([q2 cs2'] & Hj2 & _ & _ & Hc2).
    rewrite Hj2. simpl in *. intros [= <-] [= <-].
    pose proof (feed_comments_are_objects _ _ _ _ _ _ Hfeed Hj) as Hobj.
    assert (Hid : post_id (heap w1) q1 = post_id (heap w) q) by by apply Hk1.
    rewrite Hc2, Hid, Hc1.
    destruct (strict_eq (post_id (heap w) q) postId); [|done].
    rewrite List.filter_app, (keeps_mono _ _ _ _ Hpre1 Hobj).
    rewrite (no_occurrence _ _ _ _ _ _ Hocc Hj). simpl.
    unfold keeps at 1, has_comment_id, comment_id.
    rewrite (prop_of_mono _ _ _ _ Hpre1 Hsc). fold (comment_id (heap w) sc).
    unfold strict_eq. rewrite bool_decide_eq_true_2 by done.
    simpl. by rewrite app_nil_r.
Qed.

Lemma add_then_delete_comment_restores_witness :
  view_feed demo = Some [(Ref 0, [Ref 2; Ref 3]); (Ref 4, [Ref 6])] ∧
  ∃ w1 w2 feed2,
    handleCommentPost (Num 2) (Fulfilled (Ref 13)) demo = (Normal (), w1) ∧
    handleDeleteComment (Num 2) (comment_id (heap demo) (Ref 13))
      (Fulfilled Undefined) w1 = (Normal (), w2) ∧
    view_feed w2 = Some feed2 ∧
    feed2.*2 = [(Ref 0, [Ref 2; Ref 3]); (Ref 4, [Ref 6])].*2.
Proof.
  split; [reflexivity|].
  apply (add_then_delete_comment_restores demo
           [(Ref 0, [Ref 2; Ref 3]); (Ref 4, [Ref 6])] (Num 2) (Ref 13) Undefined);
    reflexivity.
Defined.

(** ** A post without a comment list *)

Lemma type_errors_only_ret {A} (a : A) : type_errors_only (ret a).
Proof. by intros w e w'. Qed.

Lemma type_errors_only_bind {A B} (m : M A) (k : A → M B) :
  type_errors_only m → (∀ a, type_errors_only (k a)) →
  type_errors_only (bind m k).
Proof.
  intros Hm Hk w e w'. unfold bind.
  destruct (m w) as [[a|e0] w1] eqn:E.
  - apply Hk.
  - intros [= <- <-]. by eapply Hm.
Qed.

Lemma type_errors_only_of_option {A} (f : Dash → option A) :
  type_errors_only (λ w, of_option (f w) w).
Proof. intros w e w'. destruct (f w); [done|]. by intros [= <- <-]. Qed.

Lemma type_errors_only_map_cb {A B} (f : A → M B) l :
  (∀ x, type_errors_only (f x)) → type_errors_only (map_cb f l).
Proof.
  intros Hf. induction l as [|x l IH]; simpl; [apply type_errors_only_ret|].
  apply type_errors_only_bind; [done|]. intros y.
  apply type_errors_only_bind; [done|]. intros ys. apply type_errors_only_ret.
Qed.

Lemma type_errors_only_filter_cb {A} (f : A → M bool) l :
  (∀ x, type_errors_only (f x)) → type_errors_only (filter_cb f l).
Proof.
  intros Hf. induction l as [|x l IH]; simpl; [apply type_errors_only_ret|].
  apply type_errors_only_bind; [done|]. intros y.
  apply type_errors_only_bind; [done|]. intros ys. apply type_errors_only_ret.
Qed.

Ltac type_errors_step :=
  first
    [ apply type_errors_only_ret
    | apply (type_errors_only_of_option (λ w, lookup_prop (heap w) _ _))
    | apply (type_errors_only_of_option (λ w, as_array (heap w) _))
    | apply (type_errors_only_of_option (λ w, iter_elems (heap w) _))
    | apply type_errors_only_map_cb; intros ?
    | apply type_errors_only_filter_cb; intros ?
    | apply type_errors_only_bind; [|intros ?]
    | match goal with |- type_errors_only (if ?b then _ else _) => destruct b end
    | by intros ? ? ? ].

Lemma type_errors_only_callback postId (m : per_post) x :
  type_errors_only (per_post_callback postId m x).
Proof.
  destruct m; simpl;
    unfold replacePost, appendComment, removeComment, replaceComment,
      Array_filter, Array_map, get_prop, array_elems, spread_elems,
      spread_props, alloc;
    repeat type_errors_step.
Qed.

(** [map] stops with a TypeError at the first element whose callback
    throws one, when callbacks throw nothing else. *)
Lemma map_cb_type_error (f : val → M val) w l i p :
  (∀ x, allocating (f x)) → (∀ x, type_errors_only (f x)) →
  l !! i = Some p →
  (∀ w1, grows w w1 → ∃ w', f p w1 = (Throw TypeError, w')) →
  ∀ w1, grows w w1 → ∃ w', map_cb f l w1 = (Throw TypeError, w').
Proof.
  intros Halloc Honly. revert i.
  induction l as [|x l IH]; intros i Hi Hbad w1 Hg; [done|].
  simpl. unfold bind at 1.
  destruct i as [|i]; simpl in Hi.
  - injection Hi as ->. destruct (Hbad w1 Hg) as [w' ->]. by eexists.
  - destruct (f x w1) as [[y|e] w2] eqn:E.
    + destruct (IH i Hi Hbad w2) as [w' Hrun].
      { eapply grows_trans; [done|]. by eapply Halloc. }
      unfold bind at 1. rewrite Hrun. by eexists.
    + rewrite (Honly _ _ _ _ E). by eexists.
Qed.

(** X9. When a post with the given id has no [comments] property, the
    updater that each comment mutation aimed at that id hands to
    [setPosts] throws a TypeError on the current posts. The setter keeps
    that error away from the handler: the handler completes, the posts
    state stays the reference it was, nothing is logged, and the
    TypeError is left for React to throw again when it renders; no
    existing cell changes. *)
Theorem comment_mutation_needs_comment_list w ps postId m i p :
  view_posts w = Some ps →
  is_comment_mutation m = true →
  ps !! i = Some p → post_id (heap w) p = postId →
  prop_of (heap w) p "comments" = Undefined →
  (∃ w1, Array_map (per_post_callback postId m) (posts w) w
         = (Throw TypeError, w1)) ∧
  ∃ w',
    run_per_post postId m w = (Normal (), w') ∧
    renderErrors w' = renderErrors w ++ [TypeError] ∧
    posts w' = posts w ∧ loadingPosts w' = loadingPosts w ∧
    console w' = console w ∧
    (∀ l c, heap w !! l = Some c → heap w' !! l = Some c).
Proof.
  intros Hv Hm Hi Hid Hnone.
  destruct (view_posts_inv _ _ Hv) as [Harr Hobj].
  assert (Hp : is_object (heap w) p = true).
  { rewrite forallb_forall in Hobj.
    apply Hobj, list_elem_of_In. by eapply list_elem_of_lookup_2. }
  destruct (map_cb_type_error (per_post_callback postId m) w ps i p) with (w1 := w)
    as [w1 Hrun]; try done.
  - intros x. apply allocating_callback.
  - intros x. apply type_errors_only_callback.
  - intros w1 (Hpre & _). pose proof (is_object_mono _ _ _ Hpre Hp) as Hp1.
    destruct m as [| sc | cid d | cid uc]; [done|..]; simpl;
      unfold appendComment, removeComment, replaceComment;
      unfold bind at 1; rewrite (get_prop_object _ _ _ Hp1);
      rewrite (prop_of_mono _ _ _ _ Hpre Hp); fold (post_id (heap w) p);
      unfold strict_eq; rewrite (bool_decide_eq_true_2 _ Hid);
      unfold bind at 1, spread_props; unfold bind at 1;
      rewrite (get_prop_object _ _ _ Hp1), (prop_of_mono _ _ _ _ Hpre Hp), Hnone;
      by eexists.
  - assert (Hupd : Array_map (per_post_callback postId m) (posts w) w
                   = (Throw TypeError, w1)).
    { unfold Array_map. unfold bind at 1, array_elems.
      rewrite Harr. simpl. unfold bind at 1. by rewrite Hrun. }
    destruct (allocating_map_cb (per_post_callback postId m) ps
                (allocating_callback postId m) _ _ _ Hrun)
      as (Hpre & Hposts & Hload & Hcons & Herrs).
    split; [by exists w1|].
    assert (Hup : updatePosts (per_post_callback postId m) w
                  = (Normal (), mkDash (heap w1) (posts w1) (loadingPosts w1)
                                  (console w1) (renderErrors w1 ++ [TypeError]))).
    { unfold updatePosts, setPostsFn. by rewrite Hupd. }
    eexists. split; [destruct m; try done; exact Hup|]. simpl.
    split; [by rewrite Herrs|]. split; [done|]. split; [done|]. split; [done|].
    intros l c. by apply prefix_cell.
Qed.

Lemma comment_mutation_needs_comment_list_witness :
  view_posts (mkDash [object [("id", Num 3); ("content", Str "third")]; Arr [Ref 0];
                      object [("id", Num 20)]] (Ref 1) false [] [])
    = Some [Ref 0] ∧
  ∃ w',
    handleCommentPost (Num 3) (Fulfilled (Ref 2))
      (mkDash [object [("id", Num 3); ("content", Str "third")]; Arr [Ref 0];
               object [("id", Num 20)]] (Ref 1) false [] [])
      = (Normal (), w') ∧
    renderErrors w' = [TypeError] ∧
    posts w' = Ref 1 ∧ loadingPosts w' = false ∧ console w' = [] ∧
    (∀ l c, [object [("id", Num 3); ("content", Str "third")]; Arr [Ref 0];
             object [("id", Num 20)]] !! l = Some c → heap w' !! l = Some c).
Proof.
  split; [reflexivity|].
  apply (proj2 (comment_mutation_needs_comment_list
           (mkDash [object [("id", Num 3); ("content", Str "third")]; Arr [Ref 0];
                    object [("id", Num 20)]] (Ref 1) false [] [])
           [Ref 0] (Num 3) (CreateComment (Ref 2)) 0 (Ref 0)
           eq_refl eq_refl eq_refl eq_refl eq_refl)).
Defined.

(** ** Create post and delete post, one at a time *)

(** X10. Creating a post completes; the saved post comes first and the
    posts that were there follow, the same objects in the same order; no
    existing cell changes. *)
Theorem create_post_prepends w ps sp :
  view_posts w = Some ps → is_object (heap w) sp = true →
  ∃ w',
    handlePostSubmit (Fulfilled sp) w = (Normal (), w') ∧
    view_posts w' = Some (sp :: ps) ∧
    (∀ l c, heap w !! l = Some c → heap w' !! l = Some c).
Proof.
  intros Hv Hsp.
  destruct (handlePostSubmit_run w ps sp Hv Hsp) as (w' & Hrun & Hpre & Hv').
  exists w'. split; [done|]. split; [done|]. intros l c. by apply prefix_cell.
Qed.

Lemma create_post_prepends_witness :
  view_posts demo = Some [Ref 0; Ref 4] ∧
  ∃ w',
    handlePostSubmit (Fulfilled (Ref 11)) demo = (Normal (), w') ∧
    view_posts w' = Some [Ref 11; Ref 0; Ref 4] ∧
    (∀ l c, heap demo !! l = Some c → heap w' !! l = Some c).
Proof.
  split; [reflexivity|].
  apply (create_post_prepends demo [Ref 0; Ref 4] (Ref 11)); reflexivity.
Defined.

Lemma filter_sublist {A} (q : A → bool) (l : list A) :
  List.filter q l `sublist_of` l.
Proof.
  induction l as [|x l IH]; simpl; [done|].
  destruct (q x); [by apply sublist_skip | by apply sublist_cons].
Qed.

Lemma filter_filter_same {A} (q : A → bool) (l : list A) :
  List.filter q (List.filter q l) = List.filter q l.
Proof.
  induction l as [|x l IH]; simpl; [done|].
  destruct (q x) eqn:E; simpl; [|done]. by rewrite E, IH.
Qed.

(** X11. Deleting a post completes and removes every post that carries
    the id, not only the first: what is left is the posts with another
    id, the same objects in their old order. Deleting the same id once
    more changes nothing in the sequence. *)
Theorem delete_post_removes_all_and_is_idempotent w ps postId d d' :
  view_posts w = Some ps →
  ∃ w1 w2 ps1,
    handleDeletePost postId (Fulfilled d) w = (Normal (), w1) ∧
    view_posts w1 = Some ps1 ∧
    ps1 `sublist_of` ps ∧
    (∀ p, p ∈ ps1 ↔ p ∈ ps ∧ post_id (heap w) p ≠ postId) ∧
    handleDeletePost postId (Fulfilled d') w1 = (Normal (), w2) ∧
    view_posts w2 = Some ps1.
Proof.
  intros Hv. destruct (view_posts_inv _ _ Hv) as [_ Hobj].
  destruct (handleDeletePost_run w ps postId d Hv) as (w1 & Hrun1 & Hpre1 & Hv1).
  destruct (handleDeletePost_run w1 _ postId d' Hv1) as (w2 & Hrun2 & _ & Hv2).
  set (q := λ p, negb (strict_eq (post_id (heap w) p) postId)) in *.
  exists w1, w2, (List.filter q ps).
  split; [done|]. split; [done|]. split; [apply filter_sublist|].
  split; [|split; [done|]].
  - intros p. rewrite !list_elem_of_In, List.filter_In. unfold q, strict_eq.
    rewrite negb_true_iff, bool_decide_eq_false. done.
  - rewrite Hv2. f_equal.
    rewrite (filter_ext_in _ q); [apply filter_filter_same|].
    intros p Hp. unfold q, post_id. rewrite (prop_of_mono (heap w)); [done|done|].
    apply list_elem_of_In, List.filter_In in Hp as [Hp _].
    rewrite forallb_forall in Hobj. by apply Hobj.
Qed.

Lemma delete_post_removes_all_and_is_idempotent_witness :
  view_posts demo = Some [Ref 0; Ref 4] ∧
  ∃ w1 w2 ps1,
    handleDeletePost (Num 1) (Fulfilled Undefined) demo = (Normal (), w1) ∧
    view_posts w1 = Some ps1 ∧
    ps1 `sublist_of` [Ref 0; Ref 4] ∧
    (∀ p, p ∈ ps1 ↔ p ∈ [Ref 0; Ref 4] ∧ post_id (heap demo) p ≠ Num 1) ∧
    handleDeletePost (Num 1) (Fulfilled Null) w1 = (Normal (), w2) ∧
    view_posts w2 = Some ps1.
Proof.
  split; [reflexivity|].
  apply (delete_post_removes_all_and_is_idempotent demo [Ref 0; Ref 4] (Num 1)
           Undefined Null). reflexivity.
Defined.

(** ** The updated post *)

(** X12. The object that replaces an updated post is built from the
    patched post the server returned: it has exactly that post's
    properties, [id] included, with [comments] set to the fetched
    comments; nothing of the old post is carried over. *)
Theorem updated_post_is_the_patched_post w ps postId up rc i p :
  view_posts w = Some ps → in_store (heap w) up = true →
  ps !! i = Some p → post_id (heap w) p = postId →
  ∃ w' ps' l,
    handleUpdatePost postId (Fulfilled up) (Fulfilled rc) w = (Normal (), w') ∧
    view_posts w' = Some ps' ∧
    ps' !! i = Some (Ref l) ∧
    heap w' !! l = Some (Obj (<["comments" := rc]> (own_props (heap w) up))) ∧
    (∀ k, k ≠ "comments" →
          prop_of (heap w') (Ref l) k = default Undefined (own_props (heap w) up !! k)).
Proof.
  intros Hv Hup Hi Hid.
  destruct (update_post_takes_patched_fields w ps postId up rc i p Hv Hup Hi Hid)
    as (w' & ps' & l & Hrun & Hv' & Hl & Hcell).
  exists w', ps', l. repeat (split; [done|]).
  intros k Hk. unfold prop_of. simpl. rewrite Hcell. by rewrite lookup_insert_ne.
Qed.

Lemma updated_post_is_the_patched_post_witness :
  view_posts demo = Some [Ref 0; Ref 4] ∧
  ∃ w' ps' l,
    handleUpdatePost (Num 1) (Fulfilled (Ref 8)) (Fulfilled (Ref 9)) demo
      = (Normal (), w') ∧
    view_posts w' = Some ps' ∧
    ps' !! 0 = Some (Ref l) ∧
    heap w' !! l
      = Some (Obj (<["comments" := Ref 9]> (own_props (heap demo) (Ref 8)))) ∧
    (∀ k, k ≠ "comments" →
          prop_of (heap w') (Ref l) k
          = default Undefined (own_props (heap demo) (Ref 8) !! k)).
Proof.
  split; [reflexivity|].
  apply (updated_post_is_the_patched_post demo [Ref 0; Ref 4] (Num 1)
           (Ref 8) (Ref 9) 0 (Ref 0)); reflexivity.
Defined.

End DashboardMore.

(** * Properties of the cohort helpers *)

Module CohortFacts.
Import Dashboard DashboardView DashboardFacts DashboardMore Cohorts.
Local Open Scope nat_scope.
Local Open Scope js_scope.

(** ** Well-formed courses stay well-formed as the store grows *)

Lemma falsy_not_array h v : truthy v = false → as_array h v = None.
Proof. by destruct v. Qed.

Lemma course_ok_inv h key c :
  course_ok h key c = true →
  is_object h c = true ∧
  ((truthy (prop_of h c key) = false ∧ course_members h key c = []) ∨
   (truthy (prop_of h c key) = true ∧
    as_array h (prop_of h c key) = Some (course_members h key c))).
Proof.
  unfold course_ok, course_members, array_or_nil.
  intros [Ho Hk]%andb_true_iff. split; [done|].
  destruct (truthy (prop_of h c key)) eqn:Ht; simpl in Hk.
  - right. split; [done|]. apply bool_decide_eq_true in Hk as [es Hes].
    by rewrite Hes.
  - left. split; [done|]. by rewrite (falsy_not_array _ _ Ht).
Qed.

Lemma course_members_mono h h' key c :
  h `prefix_of` h' → course_ok h key c = true →
  course_members h' key c = course_members h key c.
Proof.
  intros Hp Hok. destruct (course_ok_inv _ _ _ Hok) as [Ho [[Ht Hm]|[Ht Hm]]].
  - rewrite Hm. unfold course_members, array_or_nil.
    rewrite (prop_of_mono _ _ _ _ Hp Ho). by rewrite (falsy_not_array _ _ Ht).
  - unfold course_members at 1, array_or_nil.
    rewrite (prop_of_mono _ _ _ _ Hp Ho). by rewrite (as_array_mono _ _ _ _ Hp Hm).
Qed.

Lemma course_ok_mono h h' key c :
  h `prefix_of` h' → course_ok h key c = true → course_ok h' key c = true.
Proof.
  intros Hp Hok. destruct (course_ok_inv _ _ _ Hok) as [Ho Hcase].
  unfold course_ok. rewrite (is_object_mono _ _ _ Hp Ho). simpl.
  rewrite (prop_of_mono _ _ _ _ Hp Ho).
  destruct Hcase as [[Ht _]|[Ht Hm]]; rewrite Ht; simpl; [done|].
  apply bool_decide_eq_true. eexists. by eapply as_array_mono.
Qed.

(** ** The member lists *)

Lemma flat_cb_members key w0 cs :
  forallb (course_ok (heap w0) key) cs = true →
  ∀ w1, grows w0 w1 →
    ∃ w', flat_cb (listed key) cs w1
          = (Normal (concat (course_members (heap w0) key <$> cs)), w') ∧
          grows w1 w'.
Proof.
  induction cs as [|c cs IH]; intros Hok w1 Hg.
  - exists w1. split; [done|apply grows_refl].
  - simpl in Hok. apply andb_true_iff in Hok as [Hc Hcs].
    pose proof Hg as (Hpre & _).
    destruct (course_ok_inv _ _ _ Hc) as [Ho Hcase].
    pose proof (is_object_mono _ _ _ Hpre Ho) as Ho1.
    simpl. unfold bind at 1. unfold listed at 1. unfold bind at 1.
    rewrite (get_prop_object _ _ _ Ho1), (prop_of_mono _ _ _ _ Hpre Ho).
    unfold or_empty. destruct Hcase as [[Ht Hm]|[Ht Hm]]; rewrite Ht.
    + destruct (IH Hcs (mkDash (heap w1 ++ [Arr []]) (posts w1)
                                (loadingPosts w1) (console w1) (renderErrors w1)))
        as (w' & Hrun & Hg').
      { eapply grows_trans; [done|apply (alloc_grows (Arr []) w1)]. }
      exists w'.
      split; [|eapply grows_trans; [apply (alloc_grows (Arr []) w1)|done]].
      unfold alloc. unfold bind at 1, flatten_one. simpl.
      rewrite lookup_app_r, Nat.sub_diag by done. simpl.
      unfold bind at 1. rewrite Hrun. by rewrite Hm.
    + destruct (IH Hcs w1 Hg) as (w' & Hrun & Hg').
      exists w'. split; [|done].
      simpl. unfold bind at 1, flatten_one.
      rewrite (as_array_mono _ _ _ _ Hpre Hm).
      unfold bind at 1. by rewrite Hrun.
Qed.

Lemma cohort_ok_inv h key cohort :
  cohort_ok h key cohort = true →
  is_object h cohort = true ∧
  as_array h (prop_of h cohort "courses") = Some (courses_of h cohort) ∧
  forallb (course_ok h key) (courses_of h cohort) = true.
Proof.
  unfold cohort_ok, courses_of, array_or_nil.
  intros [[Ho Ha]%andb_true_iff Hall]%andb_true_iff.
  apply bool_decide_eq_true in Ha as [es Hes]. rewrite Hes in *. done.
Qed.

Lemma cohortMembers_run key w cohort :
  cohort_ok (heap w) key cohort = true →
  ∃ w' l,
    cohortMembers key cohort w = (Normal (Ref l), w') ∧
    heap w' !! l
      = Some (Arr (concat (course_members (heap w) key
                           <$> courses_of (heap w) cohort))) ∧
    length (heap w) ≤ l ∧
    grows w w'.
Proof.
  intros Hok. destruct (cohort_ok_inv _ _ _ Hok) as (Ho & Ha & Hall).
  destruct (flat_cb_members key w _ Hall w (grows_refl w)) as (w1 & Hrun & Hg).
  pose proof Hg as (Hpre & _).
  exists (alloc (Arr (concat (course_members (heap w) key
                              <$> courses_of (heap w) cohort))) w1).2,
         (length (heap w1)).
  split; [|split; [apply alloc_cell|split]].
  - unfold cohortMembers. destruct cohort; try done.
    simpl. unfold bind at 1. unfold bind at 1.
    rewrite (get_prop_object _ _ _ Ho). unfold Array_flatMap.
    unfold bind at 1, array_elems. rewrite Ha. simpl.
    unfold bind at 1. rewrite Hrun. simpl. reflexivity.
  - by apply prefix_length.
  - eapply grows_trans; [done|apply alloc_grows].
Qed.

(** X13. For a cohort whose [courses] is an array of course objects, each
    listing its students (teachers) as an array or not at all,
    [getStudentsInCohort] ([getTeachersInCohort]) completes with a newly
    allocated array holding the students (teachers) of every course, in
    course order, courses without a list contributing nothing; no
    existing cell changes. *)
Theorem cohort_members_are_listed w cohort :
  (cohort_ok (heap w) "students" cohort = true →
   ∃ w' l,
     getStudentsInCohort cohort w = (Normal (Ref l), w') ∧
     heap w' !! l
       = Some (Arr (concat (course_members (heap w) "students"
                            <$> courses_of (heap w) cohort))) ∧
     length (heap w) ≤ l ∧ grows w w') ∧
  (cohort_ok (heap w) "teachers" cohort = true →
   ∃ w' l,
     getTeachersInCohort cohort w = (Normal (Ref l), w') ∧
     heap w' !! l
       = Some (Arr (concat (course_members (heap w) "teachers"
                            <$> courses_of (heap w) cohort))) ∧
     length (heap w) ≤ l ∧ grows w w').
Proof. split; apply cohortMembers_run. Qed.

Lemma cohort_members_are_listed_witness :
  cohort_ok (heap school) "students" (Ref 0) = true ∧
  ∃ w' l,
    getStudentsInCohort (Ref 0) school = (Normal (Ref l), w') ∧
    heap w' !! l = Some (Arr ([Ref 9; Ref 10] ++ [] ++ [])) ∧
    length (heap school) ≤ l ∧ grows school w'.
Proof.
  split; [reflexivity|].
  apply (proj1 (cohort_members_are_listed school (Ref 0))). reflexivity.
Defined.

(** X14. The optional chaining guards the cohort only: with no cohort
    ([null] or [undefined]) both functions complete with a new empty
    array; with a cohort object whose [courses] is not an array they
    throw a TypeError and leave the state untouched. *)
Theorem cohort_members_edge_cases w cohort :
  (nullish cohort = true →
   getStudentsInCohort cohort w
   = (Normal (Ref (length (heap w))),
      mkDash (heap w ++ [Arr []]) (posts w) (loadingPosts w) (console w)
             (renderErrors w)) ∧
   getTeachersInCohort cohort w
   = (Normal (Ref (length (heap w))),
      mkDash (heap w ++ [Arr []]) (posts w) (loadingPosts w) (console w)
             (renderErrors w))) ∧
  (is_object (heap w) cohort = true →
   as_array (heap w) (prop_of (heap w) cohort "courses") = None →
   getStudentsInCohort cohort w = (Throw TypeError, w) ∧
   getTeachersInCohort cohort w = (Throw TypeError, w)).
Proof.
  split.
  - intros Hn. by destruct cohort.
  - intros Ho Ha.
    assert (H : ∀ key, cohortMembers key cohort w = (Throw TypeError, w)).
    { intros key. unfold cohortMembers. destruct cohort; try done. simpl.
      unfold bind at 1. unfold bind at 1. rewrite (get_prop_object _ _ _ Ho).
      unfold Array_flatMap, bind at 1, array_elems. by rewrite Ha. }
    split; apply H.
Qed.

Lemma cohort_members_edge_cases_witness :
  is_object (heap school) (Ref 2) = true ∧
  as_array (heap school) (prop_of (heap school) (Ref 2) "courses") = None ∧
  getStudentsInCohort (Ref 2) school = (Throw TypeError, school) ∧
  getTeachersInCohort (Ref 2) school = (Throw TypeError, school).
Proof.
  split; [reflexivity|]. split; [reflexivity|].
  apply (proj2 (cohort_members_edge_cases school (Ref 2))); reflexivity.
Defined.

(** ** The aggregate of the staff view *)

Lemma flat_cb_courses key w cl :
  forallb (cohort_ok (heap w) key) cl = true →
  flat_cb (λ c, get_prop c "courses") cl w
  = (Normal (concat (courses_of (heap w) <$> cl)), w).
Proof.
  induction cl as [|co cl IH]; intros Hok; [done|].
  simpl in Hok. apply andb_true_iff in Hok as [Hco Hcl].
  destruct (cohort_ok_inv _ _ _ Hco) as (Ho & Ha & _).
  simpl. unfold bind at 1. rewrite (get_prop_object _ _ _ Ho).
  unfold bind at 1, flatten_one. rewrite Ha.
  unfold bind at 1. by rewrite (IH Hcl).
Qed.

Lemma concat_fmap_concat {A B} (f : A → list B) (ls : list (list A)) :
  concat (f <$> concat ls) = concat ((λ l, concat (f <$> l)) <$> ls).
Proof.
  induction ls as [|l ls IH]; [done|].
  simpl. by rewrite fmap_app, concat_app, IH.
Qed.

Lemma forallb_concat {A} (P : A → bool) (ls : list (list A)) :
  forallb (forallb P) ls = true → forallb P (concat ls) = true.
Proof.
  induction ls as [|l ls IH]; simpl; [done|].
  intros [Hl Hls]%andb_true_iff. rewrite forallb_app, Hl. by apply IH.
Qed.

Lemma prop_of_cell h l f k :
  h !! l = Some (Obj f) → prop_of h (Ref l) k = default Undefined (f !! k).
Proof. intros H. unfold prop_of. simpl. by rewrite H. Qed.

Lemma is_object_cell h l f : h !! l = Some (Obj f) → is_object h (Ref l) = true.
Proof. intros H. simpl. by rewrite H. Qed.

Lemma as_array_cell h l es : h !! l = Some (Arr es) → as_array h (Ref l) = Some es.
Proof. intros H. simpl. by rewrite H. Qed.

Lemma all_members_run key w cohorts cl :
  as_array (heap w) cohorts = Some cl →
  forallb (cohort_ok (heap w) key) cl = true →
  ∃ w' l,
    (let* aggregate := allCourses cohorts in cohortMembers key aggregate) w
      = (Normal (Ref l), w') ∧
    heap w' !! l
      = Some (Arr (concat ((λ co, concat (course_members (heap w) key
                                          <$> courses_of (heap w) co)) <$> cl))) ∧
    grows w w'.
Proof.
  intros Ha Hok.
  set (all := concat (courses_of (heap w) <$> cl)).
  set (w1 := mkDash (heap w ++ [Arr all]) (posts w) (loadingPosts w) (console w)
                    (renderErrors w)).
  set (w2 := mkDash (heap w1 ++ [Obj {["courses" := Ref (length (heap w))]}])
                    (posts w) (loadingPosts w) (console w) (renderErrors w)).
  assert (Hagg : allCourses cohorts w = (Normal (Ref (length (heap w1))), w2)).
  { unfold allCourses, Array_flatMap. unfold bind at 1. unfold bind at 1.
    unfold array_elems. rewrite Ha. simpl. unfold bind at 1.
    by rewrite (flat_cb_courses key w cl Hok). }
  assert (Hp2 : heap w `prefix_of` heap w2).
  { simpl. rewrite <- app_assoc. by eexists. }
  assert (Hall : forallb (course_ok (heap w) key) all = true).
  { apply forallb_concat. apply forallb_forall. intros l Hl.
    apply List.in_map_iff in Hl as (co & <- & Hco).
    rewrite forallb_forall in Hok. by destruct (cohort_ok_inv _ _ _ (Hok co Hco)) as (_ & _ & ?). }
  assert (Hlo : heap w2 !! length (heap w1)
                = Some (Obj {["courses" := Ref (length (heap w))]})).
  { simpl. by rewrite lookup_app_r, Nat.sub_diag. }
  assert (Hla : heap w2 !! length (heap w) = Some (Arr all)).
  { simpl. apply lookup_app_l_Some. by rewrite lookup_app_r, Nat.sub_diag. }
  assert (Hcourses : courses_of (heap w2) (Ref (length (heap w1))) = all).
  { unfold courses_of, array_or_nil. rewrite (prop_of_cell _ _ _ _ Hlo).
    rewrite lookup_singleton_eq. simpl default.
    by rewrite (as_array_cell _ _ _ Hla). }
  assert (Hok2 : cohort_ok (heap w2) key (Ref (length (heap w1))) = true).
  { unfold cohort_ok. rewrite Hcourses, (is_object_cell _ _ _ Hlo).
    rewrite (prop_of_cell _ _ _ _ Hlo), lookup_singleton_eq. simpl default.
    rewrite (as_array_cell _ _ _ Hla).
    rewrite bool_decide_eq_true_2 by by eexists. simpl.
    apply forallb_forall. intros c Hc. eapply course_ok_mono; [done|].
    rewrite forallb_forall in Hall. by apply Hall. }
  destruct (cohortMembers_run key w2 _ Hok2) as (w' & l & Hrun & Hcell & _ & Hg).
  exists w', l. split; [|split].
  - unfold bind at 1. by rewrite Hagg.
  - rewrite Hcell, Hcourses. do 2 f_equal.
    rewrite (list_fmap_ext _ (course_members (heap w) key) all).
    + unfold all. rewrite concat_fmap_concat. f_equal.
      by rewrite <- list_fmap_compose.
    + intros i c Hc. apply course_members_mono; [done|].
      rewrite forallb_forall in Hall. apply Hall, list_elem_of_In.
      by eapply list_elem_of_lookup_2.
  - destruct Hg as (Hp & ? & ? & ? & ?). repeat split; try done.
    by etrans.
Qed.

(** X15. The staff view's aggregate: over an array of well-formed
    cohorts, [getStudentsInCohort({ courses: cohorts.flatMap(c => c.courses) })]
    completes with a new array holding the students of every course of
    every cohort, cohort by cohort and course by course, which is the
    concatenation of what [getStudentsInCohort] lists for each cohort;
    likewise for the teachers. No existing cell changes. *)
Theorem aggregate_lists_every_cohort w cohorts cl :
  as_array (heap w) cohorts = Some cl →
  (forallb (cohort_ok (heap w) "students") cl = true →
   ∃ w' l,
     allStudents cohorts w = (Normal (Ref l), w') ∧
     heap w' !! l
       = Some (Arr (concat ((λ co, concat (course_members (heap w) "students"
                                           <$> courses_of (heap w) co)) <$> cl))) ∧
     grows w w') ∧
  (forallb (cohort_ok (heap w) "teachers") cl = true →
   ∃ w' l,
     allTeachers cohorts w = (Normal (Ref l), w') ∧
     heap w' !! l
       = Some (Arr (concat ((λ co, concat (course_members (heap w) "teachers"
                                           <$> courses_of (heap w) co)) <$> cl))) ∧
     grows w w').
Proof. intros Ha. split; by apply all_members_run. Qed.

Lemma aggregate_lists_every_cohort_witness :
  as_array (heap school) (Ref 14) = Some [Ref 0; Ref 5] ∧
  forallb (cohort_ok (heap school) "students") [Ref 0; Ref 5] = true ∧
  ∃ w' l,
    allStudents (Ref 14) school = (Normal (Ref l), w') ∧
    heap w' !! l = Some (Arr (([Ref 9; Ref 10] ++ [] ++ []) ++ ([Ref 11] ++ []) ++ [])) ∧
    grows school w'.
Proof.
  split; [reflexivity|]. split; [reflexivity|].
  apply (proj1 (aggregate_lists_every_cohort school (Ref 14) [Ref 0; Ref 5] eq_refl)).
  reflexivity.
Defined.

(** ** Fetching the cohorts *)

Section fetching_facts.
Variable converted_above_zero : list cell → val → bool.

#[local] Abbreviation fetchCohorts := (Cohorts.fetchCohorts converted_above_zero).

(** X16. [fetchCohorts] never throws and always clears [loadingCohorts],
    whoever the user is and however the API calls settle; it allocates
    nothing and leaves the store, the posts state and [loadingPosts] as
    they were. *)
Theorem fetch_cohorts_never_throws user r1 r2 p :
  (fetchCohorts user r1 r2 p).1 = Normal () ∧
  loadingCohorts (fetchCohorts user r1 r2 p).2 = false ∧
  heap (dash (fetchCohorts user r1 r2 p).2) = heap (dash p) ∧
  posts (dash (fetchCohorts user r1 r2 p).2) = posts (dash p) ∧
  loadingPosts (dash (fetchCohorts user r1 r2 p).2) = loadingPosts (dash p).
Proof.
  unfold Cohorts.fetchCohorts, try_finallyP, try_catchP, bindP, lift, unwrap,
    get_prop, await, bind, of_option, ret, throw, retP, setSelectedCohort,
    setCohorts, setLoadingCohorts, console_error.
  repeat (case_match; simplify_eq; simpl in * ); done.
Qed.

Ltac unfold_fetch :=
  unfold Cohorts.fetchCohorts, try_finallyP, try_catchP, bindP, lift, unwrap,
    get_prop, await, bind, of_option, ret, throw, retP, setSelectedCohort,
    setCohorts, setLoadingCohorts, console_error.

(** X17. The role decides, by strict comparison with the number 0. A
    user whose [role] is 0 is a student: [cohorts] is never set and the
    outcome of [getCohorts] plays no part. Any other role (a string, a
    missing role, another number) is staff: [selectedCohort] is never set
    and the outcome of [getCohortsForUser] plays no part. With no user
    at all, a TypeError is logged and neither is set. *)
Theorem fetch_cohorts_follows_role user r1 r2 p :
  (lookup_prop (heap (dash p)) user "role" = Some (Num 0) →
   cohorts (fetchCohorts user r1 r2 p).2 = cohorts p ∧
   ∀ r2', fetchCohorts user r1 r2' p = fetchCohorts user r1 r2 p) ∧
  (∀ role, lookup_prop (heap (dash p)) user "role" = Some role →
           role ≠ Num 0 →
   selectedCohort (fetchCohorts user r1 r2 p).2 = selectedCohort p ∧
   ∀ r1', fetchCohorts user r1' r2 p = fetchCohorts user r1 r2 p) ∧
  (nullish user = true →
   fetchCohorts user r1 r2 p
   = (Normal (),
      mkPage (mkDash (heap (dash p)) (posts (dash p)) (loadingPosts (dash p))
                     (console (dash p) ++ [TypeError])
                     (renderErrors (dash p)))
             (cohorts p) (selectedCohort p) false)).
Proof.
  split; [|split].
  - intros Hrole. split.
    + unfold_fetch. rewrite Hrole. simpl.
      repeat (case_match; simplify_eq; simpl in * ); done.
    + intros r2'. unfold_fetch. rewrite Hrole. simpl. done.
  - intros role Hrole Hne.
    assert (Hs : strict_eq role (Num 0) = false).
    { unfold strict_eq. by apply bool_decide_eq_false. }
    split.
    + unfold_fetch. rewrite Hrole. simpl. rewrite Hs.
      repeat (case_match; simplify_eq; simpl in * ); done.
    + intros r1'. unfold_fetch. rewrite Hrole. simpl. rewrite Hs. done.
  - intros Hn. by destruct user.
Qed.

Lemma lookup_prop_defined h v k :
  nullish v = false → in_store h v = true →
  lookup_prop h v k = Some (prop_of h v k).
Proof.
  unfold prop_of. destruct v as [| | | | |l]; simpl; try done.
  intros _ Hl%bool_decide_eq_true.
  destruct (lookup_lt_is_Some_2 h l Hl) as [c ->]. by destruct c.
Qed.

Lemma lookup_prop_any_key h v k k' x :
  lookup_prop h v k = Some x → lookup_prop h v k' ≠ None.
Proof.
  destruct v as [| | | | |l]; simpl; try done.
  by destruct (h !! l) as [[f|es]|].
Qed.

(** X18. The response envelope is optional. Whatever the call resolves
    to, short of [null] and [undefined]: when it carries a truthy [data]
    that is the payload, otherwise the resolved value itself is; in
    particular an array that comes without an envelope is its own
    payload. For a student, if the payload is a non-empty array its
    first element becomes [selectedCohort], if it is an empty array
    [selectedCohort] is left alone. For staff the payload becomes
    [cohorts] as it is, array or not. *)
Theorem fetch_cohorts_unwraps_envelope user json r p :
  nullish json = false →
  in_store (heap (dash p)) json = true →
  (∀ es, lookup_prop (heap (dash p)) user "role" = Some (Num 0) →
         as_array (heap (dash p)) (payload (heap (dash p)) json) = Some es →
   fetchCohorts user (Fulfilled json) r p
   = (Normal (),
      mkPage (dash p) (cohorts p)
             (match es with c0 :: _ => c0 | [] => selectedCohort p end)
             false)) ∧
  (∀ role, lookup_prop (heap (dash p)) user "role" = Some role →
           role ≠ Num 0 →
   fetchCohorts user r (Fulfilled json) p
   = (Normal (),
      mkPage (dash p) (payload (heap (dash p)) json) (selectedCohort p) false)) ∧
  (∀ es, as_array (heap (dash p)) json = Some es →
         payload (heap (dash p)) json = json).
Proof.
  intros Hnn Hin.
  pose proof (lookup_prop_defined _ _ "data" Hnn Hin) as Hdata.
  destruct p as [[h ps lp cs re] co sel lc]. simpl in *. split; [|split].
  - intros es Hrole Harr.
    pose proof (lookup_prop_any_key _ _ _ "id" _ Hrole) as Hid.
    unfold_fetch. simpl. rewrite Hrole. simpl.
    destruct (lookup_prop h user "id") as [uid|]; [|done]. simpl.
    rewrite Hdata. simpl. fold (payload h json).
    destruct (payload h json) as [| | | | |l]; try done. simpl in *.
    destruct (h !! l) as [[f|es']|] eqn:El; try done. injection Harr as ->.
    destruct es as [|c0 es]; simpl; [done|].
    replace (0 <? Z.pos (Pos.of_succ_nat (length es)))%Z with true by done.
    by rewrite El.
  - intros role Hrole Hne. unfold_fetch. simpl. rewrite Hrole. simpl.
    unfold strict_eq. rewrite (bool_decide_eq_false_2 _ Hne). simpl.
    rewrite Hdata. simpl. done.
  - intros es Harr. unfold payload, prop_of.
    destruct json as [| | | | |l]; try done. simpl in *.
    by destruct (h !! l) as [[f|es']|].
Qed.

(** X19. When the call the role selects is rejected, the reason is
    logged to the console and neither [cohorts] nor [selectedCohort]
    changes. *)
Theorem fetch_cohorts_failure_is_logged user role e r p :
  lookup_prop (heap (dash p)) user "role" = Some role →
  lookup_prop (heap (dash p)) user "id" ≠ None →
  (if strict_eq role (Num 0)
   then fetchCohorts user (Rejected e) r p
   else fetchCohorts user r (Rejected e) p)
  = (Normal (),
     mkPage (mkDash (heap (dash p)) (posts (dash p)) (loadingPosts (dash p))
                    (console (dash p) ++ [Reason e])
                    (renderErrors (dash p)))
            (cohorts p) (selectedCohort p) false).
Proof.
  intros Hrole Hid. destruct p as [[h ps lp cs re] co sel lc]. simpl in *.
  destruct (strict_eq role (Num 0)) eqn:Hs.
  - unfold_fetch. simpl. rewrite Hrole. simpl. rewrite Hs. simpl.
    by destruct (lookup_prop h user "id").
  - unfold_fetch. simpl. rewrite Hrole. simpl. by rewrite Hs.
Qed.

End fetching_facts.

Lemma fetch_cohorts_failure_is_logged_witness :
  lookup_prop (heap (dash school_page)) (Ref 16) "role" = Some (Num 0) ∧
  fetchCohorts (λ _ _, false) (Ref 16) (Rejected (Str "offline")) (Fulfilled (Ref 15))
    school_page
  = (Normal (),
     mkPage (mkDash (heap (dash school_page)) (posts (dash school_page))
                    (loadingPosts (dash school_page))
                    (console (dash school_page) ++ [Reason (Str "offline")])
                    (renderErrors (dash school_page)))
            (cohorts school_page) (selectedCohort school_page) false).
Proof.
  split; [reflexivity|].
  apply (fetch_cohorts_failure_is_logged (λ _ _, false) (Ref 16) (Num 0)
           (Str "offline") (Fulfilled (Ref 15)) school_page);
    [reflexivity|discriminate].
Defined.

Lemma fetch_cohorts_follows_role_witness :
  lookup_prop (heap (dash school_page)) (Ref 17) "role" = Some (Num 1) ∧
  selectedCohort
    (fetchCohorts (λ _ _, false) (Ref 17) (Rejected Null) (Fulfilled (Ref 15))
       school_page).2
  = selectedCohort school_page ∧
  ∀ r1', fetchCohorts (λ _ _, false) (Ref 17) r1' (Fulfilled (Ref 15)) school_page
         = fetchCohorts (λ _ _, false) (Ref 17) (Rejected Null)
             (Fulfilled (Ref 15)) school_page.
Proof.
  split; [reflexivity|].
  apply (proj1 (proj2 (fetch_cohorts_follows_role (λ _ _, false) (Ref 17)
                         (Rejected Null) (Fulfilled (Ref 15)) school_page))
           (Num 1)); [reflexivity|discriminate].
Defined.

Lemma fetch_cohorts_unwraps_envelope_witness :
  (as_array (heap (dash school_page)) (Ref 14) = Some [Ref 0; Ref 5] ∧
   lookup_prop (heap (dash school_page)) (Ref 16) "role" = Some (Num 0) ∧
   fetchCohorts (λ _ _, false) (Ref 16) (Fulfilled (Ref 14)) (Rejected Null)
     school_page
   = (Normal (), mkPage (dash school_page) (cohorts school_page) (Ref 0) false)) ∧
  (is_object (heap (dash school_page)) (Ref 15) = true ∧
   payload (heap (dash school_page)) (Ref 15) = Ref 14 ∧
   fetchCohorts (λ _ _, false) (Ref 16) (Fulfilled (Ref 15)) (Rejected Null)
     school_page
   = (Normal (), mkPage (dash school_page) (cohorts school_page) (Ref 0) false)).
Proof.
  split.
  - split; [reflexivity|]. split; [reflexivity|].
    apply (proj1 (fetch_cohorts_unwraps_envelope (λ _ _, false) (Ref 16) (Ref 14)
                    (Rejected Null) school_page eq_refl eq_refl) [Ref 0; Ref 5]);
      reflexivity.
  - split; [reflexivity|]. split; [reflexivity|].
    apply (proj1 (fetch_cohorts_unwraps_envelope (λ _ _, false) (Ref 16) (Ref 15)
                    (Rejected Null) school_page eq_refl eq_refl) [Ref 0; Ref 5]);
      reflexivity.
Defined.

(** ** The cohort helpers at work *)

Example staff_load_stores_the_payload :
  (fetchCohorts (λ _ _, false) (Ref 17) (Rejected Null) (Fulfilled (Ref 15))
     school_page).2
  = mkPage (dash school_page) (Ref 14) Null false.
Proof. reflexivity. Qed.

Example student_load_without_envelope :
  selectedCohort
    (fetchCohorts (λ _ _, false) (Ref 16) (Fulfilled (Ref 14)) (Rejected Null)
       school_page).2
  = Ref 0.
Proof. reflexivity. Qed.

Example students_of_cohort_1 :
  (let* r := getStudentsInCohort (Ref 0) in array_elems r) school
  = (Normal [Ref 9; Ref 10],
     mkDash (school_store ++ [Arr []; Arr [Ref 9; Ref 10]]) (Ref 14) false [] []).
Proof. reflexivity. Qed.

Example all_students :
  ((let* r := allStudents (Ref 14) in array_elems r) school).1
  = Normal [Ref 9; Ref 10; Ref 11].
Proof. reflexivity. Qed.

Example all_teachers :
  ((let* r := allTeachers (Ref 14) in array_elems r) school).1
  = Normal [Ref 13].
Proof. reflexivity. Qed.

Example no_cohort_selected :
  getStudentsInCohort Null (mount []) 
  = (Normal (Ref 1), mkDash [Arr []; Arr []] (Ref 0) true [] []).
Proof. reflexivity. Qed.

End CohortFacts.

(** * More properties of the API client *)

Module ApiClientMore.
Import ApiClient ApiClientView ApiClientFacts.

Section more_facts.
Context {S : Type}.
Variable API_URL : string.
Variable JSON_stringify : json → json.
Variable fetch : string → RequestInit → S → result Response * S.

#[local] Abbreviation request := (ApiClient.request API_URL JSON_stringify fetch).
#[local] Abbreviation call := (ApiClient.call API_URL JSON_stringify fetch).
#[local] Abbreviation register := (ApiClient.register API_URL JSON_stringify fetch).
#[local] Abbreviation patchProfile := (ApiClient.patchProfile API_URL JSON_stringify fetch).
#[local] Abbreviation expected_init := (ApiClient.expected_init JSON_stringify).

Ltac run_request :=
  rewrite (request_run API_URL JSON_stringify fetch); cbv zeta;
  let r := fresh "r" in let e := fresh "e" in let s' := fresh "s'" in
  destruct (fetch _ _ _) as [[r|e] s']; simpl.

Ltac unfold_api :=
  unfold ApiClient.login, ApiClient.register, ApiClient.patchProfile, getUsers,
    getUserById, getUsersByName, patchUser, getPosts, postPost, deletePost,
    patchPost, getCohorts, post, patch, get, del, bind; simpl.

(** X20. [register] sends the credentials to [users] first, and to [login]
    only when that request resolved and its body parsed as JSON; a
    sign-up that fails stops the flow with the sign-up's error. Both
    requests are the same POST: same headers (no token), same body. *)
Theorem register_logs_in_only_after_signup email password (w : World S) :
  ∃ init,
    method init = "POST" ∧
    headers init !! "Authorization" = None ∧
    body init
      = Some (JSON_stringify (JObj [("email", email); ("password", password)])) ∧
    match (fetch (API_URL +:+ "/" +:+ "users") init (server w)).1 with
    | Resolved r =>
        match json_body r with
        | Resolved _ =>
            sent (register email password) w
            = [(API_URL +:+ "/" +:+ "users", init);
               (API_URL +:+ "/" +:+ "login", init)]
        | Rejected e =>
            sent (register email password) w
              = [(API_URL +:+ "/" +:+ "users", init)] ∧
            outcome (register email password) w = Rejected e
        end
    | Rejected e =>
        sent (register email password) w
          = [(API_URL +:+ "/" +:+ "users", init)] ∧
        outcome (register email password) w = Rejected e
    end.
Proof.
  exists (expected_init "POST"
            (JObj [("email", email); ("password", password)]) false w).
  split; [done|]. split; [done|]. split; [done|].
  unfold sent, outcome. unfold_api. run_request; [|done].
  destruct (json_body r) as [j|e]; simpl; [|done].
  unfold ApiClient.login, post. simpl. by run_request.
Qed.

Lemma unwrap_run verb endpoint data auth (k : reply → C S reply)
    (w : World S) :
  (∀ j w1, ∃ t, k (Parsed j) w1 = (data_of j, w1, t) ∧ fetches t = []) →
  let m := ApiClient.bind (request verb endpoint data auth false) k in
  let url := API_URL +:+ "/" +:+ endpoint in
  let init := expected_init verb data auth w in
  sent m w = [(url, init)] ∧
  outcome m w
  = match (fetch url init (server w)).1 with
    | Resolved r =>
        match json_body r with
        | Resolved j => data_of j
        | Rejected e => Rejected e
        end
    | Rejected e => Rejected e
    end.
Proof.
  intros Hk m url init. unfold m, sent, outcome, ApiClient.bind.
  rewrite (request_run API_URL JSON_stringify fetch). cbv zeta.
  fold url. fold init.
  destruct (fetch url init (server w)) as [[r|e] s']; simpl; [|done].
  destruct (json_body r) as [j|e]; simpl; [|done].
  destruct (Hk j (mkWorld (localStorage w) s')) as (t & -> & Ht).
  simpl. by rewrite Ht.
Qed.

Lemma get_data_run (j : json) (w1 : World S) :
  ∃ t, get_data (Parsed j) w1 = (data_of j, w1, t) ∧ fetches t = [].
Proof. destruct j; by eexists. Qed.

(** X21. [getPosts], [postPost], [deletePost] and [patchPost] send one
    request and never resolve to the response envelope: they resolve to
    its [data] member, to [undefined] when the parsed body is an object
    without [data] (or a primitive or an array), and reject with a
    TypeError when the body is JSON [null]; a rejected fetch or a body
    that is not JSON is passed on as the same rejection. *)
Theorem unwrapping_calls_return_data c (w : World S) :
  unwraps_data c = true →
  ∃ url init,
    sent (call c) w = [(url, init)] ∧
    outcome (call c) w
    = match (fetch url init (server w)).1 with
      | Resolved r =>
          match json_body r with
          | Resolved j => data_of j
          | Rejected e => Rejected e
          end
      | Rejected e => Rejected e
      end.
Proof.
  intros Hc. destruct c; try done; simpl; eexists _, _.
  - apply (unwrap_run "GET" "posts" JNull true).
    intros j w1. destruct j; by eexists.
  - apply (unwrap_run "POST" "posts"
             (JObj [("userid", userId); ("content", content)]) true).
    apply get_data_run.
  - apply (unwrap_run "DELETE" ("posts/" +:+ to_string postId) JUndefined true).
    apply get_data_run.
  - apply (unwrap_run "PATCH" ("posts/" +:+ to_string postId)
             (JObj [("content", content)]) true).
    apply get_data_run.
Qed.

Lemma raw_run verb endpoint data auth (w : World S) :
  let url := API_URL +:+ "/" +:+ endpoint in
  let init := expected_init verb data auth w in
  sent (request verb endpoint data auth true) w = [(url, init)] ∧
  outcome (request verb endpoint data auth true) w
  = match (fetch url init (server w)).1 with
    | Resolved r => Resolved (Raw r)
    | Rejected e => Rejected e
    end.
Proof.
  intros url init. unfold sent, outcome.
  rewrite (request_run API_URL JSON_stringify fetch). cbv zeta.
  fold url. fold init. by destruct (fetch url init (server w)) as [[r|e] s'].
Qed.

(** X22. [patchProfile] (on an object), [getUsers], [getUserById],
    [getUsersByName] and [getCohorts] never read the body: whenever the
    fetch resolves they resolve to the response object itself, even when
    its body is not JSON. *)
Theorem full_response_calls_skip_parsing c (w : World S) :
  wants_response c = true →
  (∀ userId userData, c = PatchProfile userId userData →
                      ∃ props, userData = JObj props) →
  ∃ url init,
    sent (call c) w = [(url, init)] ∧
    outcome (call c) w
    = match (fetch url init (server w)).1 with
      | Resolved r => Resolved (Raw r)
      | Rejected e => Rejected e
      end.
Proof.
  intros Hc Hobj. destruct c; try done; simpl.
  1: destruct (Hobj _ _ eq_refl) as [props ->].
  all: eexists _, _; apply raw_run.
Qed.

(** X23. [patchProfile] with no profile data ([null] or [undefined])
    rejects with a TypeError before anything is sent; with a number or a
    boolean it sends the PATCH with the serialization of an empty
    object. *)
Theorem patch_profile_without_an_object userId (w : World S) :
  outcome (patchProfile userId JNull) w = Rejected TypeError ∧
  sent (patchProfile userId JNull) w = [] ∧
  outcome (patchProfile userId JUndefined) w = Rejected TypeError ∧
  sent (patchProfile userId JUndefined) w = [] ∧
  (∀ userData, (∃ z, userData = JNum z) ∨ (∃ b, userData = JBool b) →
     ∃ init,
       sent (patchProfile userId userData) w
         = [(API_URL +:+ "/" +:+ "users/" +:+ to_string userId, init)] ∧
       method init = "PATCH" ∧
       body init = Some (JSON_stringify (JObj []))).
Proof.
  repeat (split; [done|]).
  intros userData [[z ->] | [b ->]];
    exists (expected_init "PATCH" (JObj []) true w);
    (split; [|done]); unfold sent, ApiClient.patchProfile, patch; simpl;
    by run_request.
Qed.

(** X24. Every request an exported function sends carries exactly the
    header [Content-Type: application/json] and, unless the function is
    [login] or [register], [Authorization]; when no token is stored the
    latter reads [Bearer null]. *)
Theorem headers_of_every_request c (w : World S) :
  Forall (λ ui,
            headers ui.2
            = if is_login_or_register c then plain_headers
              else auth_headers (match localStorage w !! "token" with
                                 | Some t => t
                                 | None => "null"
                                 end))
         (sent (call c) w).
Proof.
  unfold sent.
  destruct c; simpl; unfold_api.
  all: try (destruct (own_entries userData); simpl; [|by constructor]).
  all: run_request; repeat constructor.
  all: try (destruct gfr; simpl).
  all: try (destruct (json_body r) as [j|]; simpl; repeat constructor).
  all: try (unfold ApiClient.login, post; simpl; run_request; repeat constructor).
  all: try (destruct j as [| | | | | |props]; simpl; repeat constructor).
Qed.

End more_facts.

Lemma unwrapping_calls_return_data_witness :
  unwraps_data (PatchPost (JNum 3) (JStr "hi")) = true ∧
  ∃ url init,
    sent (call "http://api" toy_stringify toy_fetch (PatchPost (JNum 3) (JStr "hi")))
         toy_world = [(url, init)] ∧
    outcome (call "http://api" toy_stringify toy_fetch
               (PatchPost (JNum 3) (JStr "hi"))) toy_world
    = match (toy_fetch url init (server toy_world)).1 with
      | Resolved r =>
          match json_body r with
          | Resolved j => data_of j
          | Rejected e => Rejected e
          end
      | Rejected e => Rejected e
      end.
Proof.
  split; [reflexivity|].
  apply (unwrapping_calls_return_data "http://api" toy_stringify toy_fetch
           (PatchPost (JNum 3) (JStr "hi")) toy_world). reflexivity.
Defined.

Lemma full_response_calls_skip_parsing_witness :
  wants_response (GetUserById (JNum 7)) = true ∧
  ∃ url init,
    sent (call "http://api" toy_stringify toy_fetch (GetUserById (JNum 7)))
         toy_world = [(url, init)] ∧
    outcome (call "http://api" toy_stringify toy_fetch (GetUserById (JNum 7)))
            toy_world
    = match (toy_fetch url init (server toy_world)).1 with
      | Resolved r => Resolved (Raw r)
      | Rejected e => Rejected e
      end.
Proof.
  split; [reflexivity|].
  apply (full_response_calls_skip_parsing "http://api" toy_stringify toy_fetch
           (GetUserById (JNum 7)) toy_world); [reflexivity|discriminate].
Defined.

End ApiClientMore.

(** * Properties of the search box *)

Module SearchFacts.
Import Search.
Local Open Scope N_scope.

(** ** Blank text *)

Lemma trim_start_blank s : trim_start s = [] ↔ blank s = true.
Proof.
  induction s as [|c s IH]; simpl; [done|].
  destruct (is_white_space c); simpl; [done|]. split; discriminate.
Qed.

Lemma blank_app s t : blank (s ++ t) = blank s && blank t.
Proof. apply forallb_app. Qed.

Lemma blank_rev s : blank (rev s) = blank s.
Proof.
  induction s as [|c s IH]; simpl; [done|].
  rewrite blank_app, IH. simpl. rewrite andb_true_r. apply andb_comm.
Qed.

Lemma trim_start_head s c s' :
  trim_start s = c :: s' → is_white_space c = false.
Proof.
  induction s as [|x s IH]; simpl; [done|].
  destruct (is_white_space x) eqn:E; [done|]. by intros [= <- <-].
Qed.

Lemma trim_blank s : trim s = [] ↔ blank s = true.
Proof.
  unfold trim. split.
  - intros H. apply trim_start_blank.
    destruct (trim_start s) as [|c s'] eqn:E; [done|]. exfalso.
    pose proof (trim_start_head _ _ _ E) as Hc.
    assert (Hr : trim_start (rev (c :: s')) = []).
    { destruct (trim_start (rev (c :: s'))); [done|].
      apply (f_equal (@length N)) in H. rewrite length_rev in H. done. }
    apply trim_start_blank in Hr. rewrite blank_rev in Hr.
    simpl in Hr. by rewrite Hc in Hr.
  - intros H. apply trim_start_blank in H. by rewrite H.
Qed.

(** ** Encoding *)

Lemma all_chars_app P s t :
  all_chars P (s +:+ t) = all_chars P s && all_chars P t.
Proof.
  induction s as [|a s IH]; simpl; [done|]. by rewrite IH, andb_assoc.
Qed.

Lemma hex_digit_safe m : m < 16 → safe_char (hex_digit m) = true.
Proof.
  intros H. destruct m as [|p]; [reflexivity|].
  do 4 (try destruct p as [p|p|]); try reflexivity; lia.
Qed.

Lemma percent_safe o : all_chars safe_char (percent o) = true.
Proof.
  unfold percent. simpl.
  rewrite !hex_digit_safe; [done| |]; by apply N.mod_lt.
Qed.

Lemma escape_safe cp : all_chars safe_char (escape cp) = true.
Proof.
  unfold escape. induction (utf8 cp) as [|o os IH]; [done|].
  cbn [fold_right]. by rewrite all_chars_app, percent_safe, IH.
Qed.

Lemma unreserved_safe c : unreserved c = true → safe_char (ascii_of_N c) = true.
Proof.
  intros H. unfold safe_char.
  assert (Hlt : c < 256).
  { unfold unreserved in H.
    repeat (rewrite ?orb_true_iff, ?andb_true_iff, ?N.leb_le, ?N.eqb_eq in H).
    lia. }
  rewrite (N_ascii_embedding _ Hlt). simpl. by rewrite H.
Qed.

(** Both facts about the encoder at once, by the length of the text. *)
Lemma encode_spec n :
  ∀ s, (length s ≤ n)%nat →
    (is_Some (encodeURIComponent s) ↔ well_formed s = true) ∧
    (∀ q, encodeURIComponent s = Some q → all_chars safe_char q = true).
Proof.
  induction n as [|n IH]; intros s Hlen.
  - destruct s; [|simpl in Hlen; lia]. simpl. split; [by split; [|eexists]|].
    by intros q [= <-].
  - destruct s as [|c rest]; [split; [by split; [|eexists]|by intros q [= <-]]|].
    simpl in Hlen. simpl.
    destruct (unreserved c) eqn:Hu.
    { assert (Hl : is_low_surrogate c = false).
      { unfold unreserved, is_low_surrogate in *.
        apply andb_false_iff.
        repeat (rewrite ?orb_true_iff, ?andb_true_iff, ?N.leb_le, ?N.eqb_eq in Hu).
        rewrite !N.leb_gt. lia. }
      assert (Hh : is_high_surrogate c = false).
      { unfold unreserved, is_high_surrogate in *.
        apply andb_false_iff.
        repeat (rewrite ?orb_true_iff, ?andb_true_iff, ?N.leb_le, ?N.eqb_eq in Hu).
        rewrite !N.leb_gt. lia. }
      rewrite Hl, Hh. destruct (IH rest ltac:(lia)) as [Hiff Hsafe]. split.
      - rewrite <- Hiff. rewrite fmap_is_Some. done.
      - intros q Hq. destruct (encodeURIComponent rest) as [r|]; [|done].
        injection Hq as <-. simpl.
        by rewrite (unreserved_safe _ Hu), (Hsafe r eq_refl). }
    destruct (is_low_surrogate c); [split; [by split; [intros []|]|done]|].
    destruct (is_high_surrogate c).
    + destruct rest as [|d rest']; [split; [by split; [intros []|]|done]|].
      destruct (is_low_surrogate d); simpl;
        [|split; [by split; [intros []|]|done]].
      simpl in Hlen. destruct (IH rest' ltac:(lia)) as [Hiff Hsafe]. split.
      * rewrite <- Hiff. rewrite fmap_is_Some. done.
      * intros q Hq. destruct (encodeURIComponent rest') as [r|]; [|done].
        injection Hq as <-.
        by rewrite all_chars_app, escape_safe, (Hsafe r eq_refl).
    + destruct (IH rest ltac:(lia)) as [Hiff Hsafe]. split.
      * rewrite <- Hiff. rewrite fmap_is_Some. done.
      * intros q Hq. destruct (encodeURIComponent rest) as [r|]; [|done].
        injection Hq as <-.
        by rewrite all_chars_app, escape_safe, (Hsafe r eq_refl).
Qed.

(** ** Submitting the search *)

(** X25. Submitting the search form always suppresses the browser's
    default. With a blank box (empty, or nothing but white space) nothing
    else happens. Otherwise, when the text has no lone surrogate, the
    handler navigates exactly once, to [/search?q=] followed by the
    encoding of the text as typed (not trimmed), and empties the box;
    when it has one, the encoder's URIError escapes and the box keeps its
    text. *)
Theorem search_submit_cases b :
  (blank (searchVal b) = true →
   onSearchSubmit b = (Done, mkBox (searchVal b) (navigations b) true)) ∧
  (blank (searchVal b) = false → well_formed (searchVal b) = true →
   ∃ q, encodeURIComponent (searchVal b) = Some q ∧
        onSearchSubmit b
        = (Done, mkBox [] (navigations b ++ ["/search?q=" +:+ q]) true)) ∧
  (blank (searchVal b) = false → well_formed (searchVal b) = false →
   onSearchSubmit b = (URIError, mkBox (searchVal b) (navigations b) true)).
Proof.
  destruct (encode_spec (length (searchVal b)) (searchVal b) ltac:(done))
    as [Hiff _].
  unfold onSearchSubmit. simpl. split; [|split].
  - intros Hb. apply trim_blank in Hb. by rewrite Hb.
  - intros Hb Hwf.
    destruct (trim (searchVal b)) as [|c t] eqn:Ht.
    { apply trim_blank in Ht. congruence. }
    destruct (proj2 Hiff Hwf) as [q Hq]. exists q. by rewrite Hq.
  - intros Hb Hwf.
    destruct (trim (searchVal b)) as [|c t] eqn:Ht.
    { apply trim_blank in Ht. congruence. }
    destruct (encodeURIComponent (searchVal b)) as [q|] eqn:Hq; [|done].
    assert (well_formed (searchVal b) = true) by (apply Hiff; by eexists).
    congruence.
Qed.

Lemma search_submit_cases_witness :
  blank (units " a&b ") = false ∧ well_formed (units " a&b ") = true ∧
  ∃ q, encodeURIComponent (units " a&b ") = Some q ∧
       onSearchSubmit (mkBox (units " a&b ") [] false)
       = (Done, mkBox [] ([] ++ ["/search?q=" +:+ q]) true).
Proof.
  split; [reflexivity|]. split; [reflexivity|].
  apply (proj1 (proj2 (search_submit_cases (mkBox (units " a&b ") [] false))));
    reflexivity.
Defined.

(** X26. Whatever is typed, a URL the handler navigates to is [/search?q=]
    followed only by letters, digits, [- _ . ! ~ * ' ( )] and [%]: the
    text cannot add a second parameter, a fragment or a path segment. *)
Theorem search_url_is_safe b url :
  url ∈ navigations (onSearchSubmit b).2 →
  url ∈ navigations b ∨
  ∃ q, url = "/search?q=" +:+ q ∧ all_chars safe_char q = true.
Proof.
  destruct (encode_spec (length (searchVal b)) (searchVal b) ltac:(done))
    as [_ Hsafe].
  unfold onSearchSubmit. simpl.
  destruct (trim (searchVal b)); simpl; [by left|].
  destruct (encodeURIComponent (searchVal b)) as [q|]; simpl; [|by left].
  rewrite elem_of_app, list_elem_of_singleton. intros [H| ->]; [by left|].
  right. exists q. split; [done|]. by apply Hsafe.
Qed.

Lemma search_url_is_safe_witness :
  "/search?q=a%26b" ∈ navigations (onSearchSubmit (mkBox (units "a&b") [] false)).2 ∧
  ("/search?q=a%26b" ∈ navigations (mkBox (units "a&b") [] false) ∨
   ∃ q, "/search?q=a%26b" = "/search?q=" +:+ q ∧ all_chars safe_char q = true).
Proof.
  assert (H : "/search?q=a%26b"
              ∈ navigations (onSearchSubmit (mkBox (units "a&b") [] false)).2).
  { vm_compute. left. }
  split; [exact H|].
  apply (search_url_is_safe (mkBox (units "a&b") [] false) "/search?q=a%26b" H).
Defined.

Example search_for_a_name :
  onSearchSubmit (mkBox (units "Ada L") [] false)
  = (Done, mkBox [] ["/search?q=Ada%20L"] true).
Proof. reflexivity. Qed.

Example search_keeps_outer_spaces :
  onSearchSubmit (mkBox (units " a&b=c ") [] false)
  = (Done, mkBox [] ["/search?q=%20a%26b%3Dc%20"] true).
Proof. reflexivity. Qed.

Example search_non_ascii :
  (onSearchSubmit (mkBox [233; 8364; 55357; 56832]%N [] false)).2
  = mkBox [] ["/search?q=%C3%A9%E2%82%AC%F0%9F%98%80"] true.
Proof. reflexivity. Qed.

Example search_blank :
  onSearchSubmit (mkBox (units "   ") [] false)
  = (Done, mkBox (units "   ") [] true).
Proof. reflexivity. Qed.

End SearchFacts.
